(** * Verification of [lib/index.js]: content-root discovery and the
      pull-request preview pipeline.

    The development is a shallow embedding.  Closure variables of the two
    exported functions become record fields of an explicit state, callbacks
    become return values, and every call to an outside collaborator (the
    directory walker, the preparer, git, the content service, the presenter,
    GitHub, the logger) leaves an event in a trace, so that "is invoked",
    "exactly once" and "never" are statements about that trace. *)

From Stdlib Require Import Ascii String.
From stdpp Require Import base option list sorting strings.

Local Open Scope string_scope.
Local Open Scope list_scope.
Local Open Scope nat_scope.

(** ** JavaScript regular expressions

    The source uses three regular-expression literals.  They are embedded
    as terms of a small syntax and run by a backtracking matcher with the
    semantics of the JavaScript engine for this fragment: greedy
    quantifiers that give back one character at a time, capture groups
    numbered in the order they close, [^] and [$] anchored at the two ends
    of the input (no [m] flag), and a search that tries start positions
    from left to right. *)
Module Regex.

Inductive atom : Type :=
| AChar (c : ascii)       (* an escaped or plain literal character *)
| ANotChar (c : ascii)    (* the negated class [^c] *)
| ADigit.                 (* \d *)

Inductive regex : Type :=
| Atom (a : atom)
| Lit (l : string)        (* a run of literal characters *)
| Opt (a : atom)          (* a? *)
| Plus (a : atom)         (* a+ *)
| Bol                     (* ^ *)
| Eol                     (* $ *)
| Seq (r1 r2 : regex)
| Group (r : regex).      (* ( r ) *)

Definition is_digit (c : ascii) : bool :=
  let n := nat_of_ascii c in (48 <=? n)%nat && (n <=? 57)%nat.

Definition atom_matches (a : atom) (c : ascii) : bool :=
  match a with
  | AChar d => Ascii.eqb c d
  | ANotChar d => negb (Ascii.eqb c d)
  | ADigit => is_digit c
  end.

Fixpoint strip_prefix (p s : string) : option string :=
  match p, s with
  | EmptyString, _ => Some s
  | String a p', String b s' => if Ascii.eqb a b then strip_prefix p' s' else None
  | String _ _, EmptyString => None
  end.

(** [a*] from position [pos]: take as many characters as possible, then
    hand over to the continuation, giving characters back on failure. *)
Fixpoint match_star {R} (a : atom) (pos : nat) (s : string)
    (k : nat → string → option R) : option R :=
  match s with
  | String c s' =>
      if atom_matches a c then
        match match_star a (S pos) s' k with
        | Some r => Some r
        | None => k pos s
        end
      else k pos s
  | EmptyString => k pos s
  end.

(** [match_re input r pos s caps k]: match [r] against [s], the suffix of
    [input] that starts at [pos]; [caps] are the groups closed so far. *)
Fixpoint match_re {R} (input : string) (r : regex) (pos : nat) (s : string)
    (caps : list string) (k : nat → string → list string → option R) : option R :=
  match r with
  | Atom a =>
      match s with
      | String c s' => if atom_matches a c then k (S pos) s' caps else None
      | EmptyString => None
      end
  | Lit l =>
      match strip_prefix l s with
      | Some s' => k (pos + String.length l) s' caps
      | None => None
      end
  | Opt a =>
      match s with
      | String c s' =>
          if atom_matches a c then
            match k (S pos) s' caps with
            | Some r => Some r
            | None => k pos s caps
            end
          else k pos s caps
      | EmptyString => k pos s caps
      end
  | Plus a =>
      match s with
      | String c s' =>
          if atom_matches a c
          then match_star a (S pos) s' (λ p t, k p t caps)
          else None
      | EmptyString => None
      end
  | Bol => match pos with O => k pos s caps | S _ => None end
  | Eol => match s with EmptyString => k pos s caps | String _ _ => None end
  | Seq r1 r2 =>
      match_re input r1 pos s caps (λ p t cs, match_re input r2 p t cs k)
  | Group r1 =>
      match_re input r1 pos s caps
        (λ p t cs, k p t (cs ++ [substring pos (p - pos) input]))
  end.

(** The result of [RegExp.prototype.exec]: where the match starts and
    ends, and the captured groups m[1], m[2], ... *)
Record rmatch : Type := { m_index : nat; m_end : nat; m_groups : list string }.

Fixpoint search (input : string) (r : regex) (pos : nat) (s : string) : option rmatch :=
  match match_re input r pos s [] (λ p _ cs, Some {| m_index := pos; m_end := p; m_groups := cs |}) with
  | Some m => Some m
  | None =>
      match s with
      | String _ s' => search input r (S pos) s'
      | EmptyString => None
      end
  end.

Definition exec (r : regex) (input : string) : option rmatch :=
  search input r 0 input.

Definition test (r : regex) (input : string) : bool :=
  match exec r input with Some _ => true | None => false end.

(** [String.prototype.replace] with a non-global pattern: the first
    match, if any, is replaced. *)
Definition replace (r : regex) (input repl : string) : string :=
  match exec r input with
  | Some m =>
      substring 0 (m_index m) input +:+ repl +:+
      substring (m_end m) (String.length input - m_end m) input
  | None => input
  end.

(** What a pattern stands for, to compare the matcher with: [den r pos w
    rest cs] says that [r] can consume [w] when it starts at position [pos]
    and [rest] follows, and that its groups then capture [cs]. *)
Fixpoint all_match (a : atom) (w : string) : bool :=
  match w with
  | EmptyString => true
  | String c w' => atom_matches a c && all_match a w'
  end.

Fixpoint den (r : regex) (pos : nat) (w rest : string) (cs : list string) : Prop :=
  match r with
  | Atom a => (∃ c, w = String c EmptyString ∧ atom_matches a c = true) ∧ cs = []
  | Lit l => w = l ∧ cs = []
  | Opt a =>
      (w = EmptyString ∨ ∃ c, w = String c EmptyString ∧ atom_matches a c = true) ∧
      cs = []
  | Plus a => w ≠ EmptyString ∧ all_match a w = true ∧ cs = []
  | Bol => w = EmptyString ∧ pos = 0 ∧ cs = []
  | Eol => w = EmptyString ∧ rest = EmptyString ∧ cs = []
  | Seq r1 r2 =>
      ∃ w1 w2 cs1 cs2,
        w = w1 +:+ w2 ∧ den r1 pos w1 (w2 +:+ rest) cs1 ∧
        den r2 (pos + String.length w1) w2 rest cs2 ∧ cs = cs1 ++ cs2
  | Group r1 => ∃ cs1, den r1 pos w rest cs1 ∧ cs = cs1 ++ [w]
  end.

End Regex.

Import Regex.

Definition CR : ascii := ascii_of_nat 13.
Definition LF : ascii := ascii_of_nat 10.

(** [/^\./] *)
Definition re_dotfile : regex := Seq Bol (Atom (AChar ".")).

(** [/\r?\n$/] *)
Definition re_trailing_newline : regex :=
  Seq (Opt (AChar CR)) (Seq (Atom (AChar LF)) Eol).

(** [/([^/]+\/[^/]+)\/pull\/(\d+)$/] *)
Definition re_pull_request : regex :=
  Seq (Group (Seq (Plus (ANotChar "/")) (Seq (Atom (AChar "/")) (Plus (ANotChar "/")))))
      (Seq (Lit "/pull/") (Seq (Group (Plus ADigit)) Eol)).


(** A non-empty run of characters other than [/], and a non-empty run of
    decimal digits. *)
Definition segment (s : string) : Prop :=
  s ≠ "" ∧ all_match (ANotChar "/") s = true.

Definition digits (s : string) : Prop :=
  s ≠ "" ∧ all_match ADigit s = true.

(** ** Paths

    [path.relative(from, to)] of Node, for POSIX paths that need no
    resolution against the working directory: both paths are cut at [/],
    empty segments are dropped, the common leading segments are removed,
    and the result climbs out of what is left of [from] before it descends
    into what is left of [to]. *)
Module path.

Definition sep : string := "/".

(** [s.split('/')] *)
Fixpoint split (s : string) : list string :=
  match s with
  | EmptyString => [EmptyString]
  | String c s' =>
      if Ascii.eqb c "/" then EmptyString :: split s'
      else match split s' with
           | x :: r => String c x :: r
           | [] => [String c EmptyString]
           end
  end.

Definition nonempty (s : string) : bool := negb (String.eqb s "").

Definition segments (s : string) : list string := List.filter nonempty (split s).

Fixpoint drop_common (from to : list string) : list string * list string :=
  match from, to with
  | f :: from', t :: to' =>
      if String.eqb f t then drop_common from' to' else (from, to)
  | _, _ => (from, to)
  end.

Definition relative (from to : string) : string :=
  let '(up, down) := drop_common (segments from) (segments to) in
  String.concat sep (List.map (λ _, "..") up ++ down).

End path.

(** ** Plain objects used as dictionaries

    [contentIDMap] and [presentedURLMap] are objects made by [{}] and
    filled by [obj[key] = value].  Such an object keeps its own
    properties in the order of their creation, and it inherits the
    accessor [__proto__] of [Object.prototype]: an assignment to that
    name creates no property.  It sets the prototype when the value is an
    object or [null], and does nothing for any other value; once the
    prototype is [null] the accessor is out of reach, and [__proto__]
    is a name like any other. *)
Module Obj.

(** What the setter of [__proto__] tells apart. *)
Inductive kind : Type := Null | Object | Primitive.

Class Value (V : Type) : Type := kind_of : V → kind.

(** A content ID: a string or [null]. *)
#[global] Instance content_id_value : Value (option string) :=
  λ v, match v with Some _ => Primitive | None => Null end.

(** An array of URLs. *)
#[global] Instance urls_value : Value (list string) := λ _, Object.

(** The own properties in the order of their creation, and the
    prototype: [None] for [Object.prototype], where [{}] starts, else the
    value that an assignment to [__proto__] has put there. *)
Record t (V : Type) : Type := {
  entries : list (string * V);
  proto : option V
}.
Arguments entries {V} _.
Arguments proto {V} _.

Fixpoint get {V} (key : string) (l : list (string * V)) : option V :=
  match l with
  | [] => None
  | (k, v) :: l' => if String.eqb k key then Some v else get key l'
  end.

(** A property that exists keeps its place; a new one goes last. *)
Fixpoint put {V} (key : string) (value : V) (l : list (string * V))
    : list (string * V) :=
  match l with
  | [] => [(key, value)]
  | (k, v) :: l' =>
      if String.eqb k key then (k, value) :: l' else (k, v) :: put key value l'
  end.

(** The accessor is found unless the prototype is [null]. *)
Definition inherits_accessor {V} `{Value V} (o : t V) : bool :=
  match proto o with
  | None => true
  | Some v => match kind_of v with Null => false | _ => true end
  end.

(** [o[key] = value] *)
Definition set {V} `{Value V} (key : string) (value : V) (o : t V) : t V :=
  if String.eqb key "__proto__" && inherits_accessor o then
    match kind_of value with
    | Primitive => o
    | _ => {| entries := entries o; proto := Some value |}
    end
  else {| entries := put key value (entries o); proto := proto o |}.

(** [o[key]] for a name that is an own property, [None] when it is not
    one. *)
#[global] Instance lookup {V} : Lookup string V (t V) := λ key o, get key (entries o).

(** [{}] *)
#[global] Instance empty {V} : Empty (t V) := {| entries := []; proto := None |}.

#[global] Instance singleton {V} : SingletonM string V (t V) :=
  λ key value, {| entries := [(key, value)]; proto := None |}.

#[global] Instance size {V} : Size (t V) := λ o, length (entries o).

(** An array index: the decimal numeral, without sign or leading zero,
    of a number below [2^32 - 1]. *)
Fixpoint numeral (acc : N) (s : string) : option N :=
  match s with
  | EmptyString => Some acc
  | String c s' =>
      if is_digit c
      then numeral (10 * acc + (N.of_nat (nat_of_ascii c) - 48))%N s'
      else None
  end.

Definition array_index (s : string) : option N :=
  match s with
  | EmptyString => None
  | String c s' =>
      if Ascii.eqb c "0" && negb (String.eqb s' "") then None
      else n ← numeral 0 s; if (n <? 4294967295)%N then Some n else None
  end.

Definition index_le {V} (a b : N * (string * V)) : Prop := (a.1 ≤ b.1)%N.

#[global] Instance index_le_dec {V} : RelDecision (@index_le V) :=
  λ a b, decide (a.1 ≤ b.1)%N.

(** The own properties in the order in which [Object.keys] and
    [async.forEachOf] go through them: the array indices first, by
    ascending value, then the other names in the order of creation. *)
Definition items {V} (o : t V) : list (string * V) :=
  (merge_sort index_le
     (omap (λ e : string * V, n ← array_index e.1; Some (n, e)) (entries o))).*2 ++
  List.filter (λ e : string * V, bool_decide (array_index e.1 = None)) (entries o).

(** [Object.keys(o)] *)
Definition keys {V} (o : t V) : list string := (items o).*1.

End Obj.

(** ** Collaborators and data *)

(** A JavaScript [Error], identified by its message. *)
Definition Error : Type := string.

(** The two shapes of a Node callback invocation: [cb(err)] and
    [cb(null, value)]. *)
Inductive callback (A : Type) : Type :=
| Failed (err : Error)
| Returned (value : A).
Arguments Failed {A} err.
Arguments Returned {A} value.

(** The [opts] object handed to [prepare.prepare]. *)
Module Opts.
Record t : Type := {
  revisionID : option string;
  contentServiceURL : string;
  contentServiceAPIKey : option string;
  contentRoot : option string
}.

(** Two [opts] objects that differ at most in [contentRoot]. *)
Definition frame (o o' : t) : Prop :=
  revisionID o' = revisionID o ∧
  contentServiceURL o' = contentServiceURL o ∧
  contentServiceAPIKey o' = contentServiceAPIKey o.

(** [opts.contentRoot = root] *)
Definition set_contentRoot (root : string) (o : t) : t :=
  {| revisionID := revisionID o;
     contentServiceURL := contentServiceURL o;
     contentServiceAPIKey := contentServiceAPIKey o;
     contentRoot := Some root |}.
End Opts.

(** The [results] object a preparer passes to its callback. *)
Module Results.
Record t : Type := {
  success : bool;
  didSomething : bool;
  contentIDBase : option string
}.
End Results.

(** What the walker finds in one directory: the entries it could not stat
    (name and error), the names of the regular files, and the
    subdirectories (name and content).  Entries of other kinds have no
    listener in the source and are left out. *)
#[warnings="-register-all"]
Inductive fsnode : Type :=
| Dir (errors : list (string * Error)) (files : list string)
      (directories : list (string * fsnode)).

Abbreviation dirent := (string * fsnode)%type (only parsing).

Fixpoint height (node : fsnode) : nat :=
  match node with
  | Dir _ _ ds =>
      S ((fix go (l : list dirent) : nat :=
            match l with
            | [] => 0
            | (_, d) :: l' => Nat.max (height d) (go l')
            end) ds)
  end.

Fixpoint no_slash (s : string) : bool :=
  match s with
  | EmptyString => true
  | String c s' => negb (Ascii.eqb c "/") && no_slash s'
  end.

(** A name a directory entry can have. *)
Definition valid_name (name : string) : bool := path.nonempty name && no_slash name.

(** A tree as a file system presents it: the names in a directory are
    entry names, and no two entries of a directory share a name. *)
Fixpoint well_formed (t : fsnode) : bool :=
  match t with
  | Dir _ _ dirs =>
      forallb valid_name dirs.*1 && bool_decide (NoDup dirs.*1) &&
      (fix all (l : list dirent) : bool :=
         match l with
         | [] => true
         | (_, d) :: l' => well_formed d && all l'
         end) dirs
  end.

Inductive level : Type := LDebug | LInfo | LError.

Inductive logarg : Type :=
| AStr (s : string)
| AList (l : list string).

(** Everything the code does to the outside world. *)
Inductive event : Type :=
| Log (lv : level) (fmt : string) (args : list logarg)
| Readdir (dir : string)
| Prepare (opts : Opts.t)
| ExecFile (file : string) (args : list string) (cwd : string)
| IssueAPIKey (name : string)
| RevokeAPIKey (key : option string)
| Whereis (contentID : option string)
| PostComment (repoName pullRequestNumber body : string).

Record ExecResult : Type := {
  exec_err : option Error;
  exec_stdout : string;
  exec_stderr : string
}.

Record Config : Type := {
  mockGitSHA : option string;
  stagingContentServiceURL : string;
  stagingPresenterURL : string
}.

Record Presenter : Type := {
  (** [whereis(contentID, cb)]: the [path] of every mapping *)
  whereis : option string → callback (list string)
}.

Record ContentService : Type := {
  issueAPIKey : string → callback string;
  revokeAPIKey : option string → option Error
}.

Record GitHub : Type := {
  postComment : string → string → string → option Error
}.

Record Toolbelt : Type := {
  workspacePath : string;
  config : Config;
  stagingPresenter : option Presenter;
  stagingContentService : ContentService;
  github : option GitHub;
  pullRequestURL : string
}.

(** The modules and the machine state the file reaches through [require]:
    the directory tree below the workspace path as [walk] reads it, the
    preparer, git, and the two text helpers. *)
Record Env : Type := {
  tree : fsnode;
  prepare : Opts.t → callback Results.t;
  git_rev_parse : string → ExecResult;
  urlJoin : string → string → string;
  forSuccessfulBuild : Obj.t (list string) → string
}.

(** ** [recursivelyPrepare] *)
Module RP.

(** The variables captured by the handlers, the caller's [opts] object
    (one object, shared by reference with every preparer call), and the
    trace.  [contentIDMap] is a plain object used as a dictionary from
    workspace-relative paths to content IDs (a string or [null]). *)
Record state : Type := {
  atLeastOne : bool;
  allSuccessful : bool;
  submittedSomething : bool;
  contentIDMap : Obj.t (option string);
  opts : Opts.t;
  trace : list event
}.

Definition emit (e : event) (st : state) : state :=
  {| atLeastOne := atLeastOne st; allSuccessful := allSuccessful st;
     submittedSomething := submittedSomething st;
     contentIDMap := contentIDMap st; opts := opts st;
     trace := trace st ++ [e] |}.

Definition set_opts (o : Opts.t) (st : state) : state :=
  {| atLeastOne := atLeastOne st; allSuccessful := allSuccessful st;
     submittedSomething := submittedSomething st;
     contentIDMap := contentIDMap st; opts := o; trace := trace st |}.

Definition set_atLeastOne (b : bool) (st : state) : state :=
  {| atLeastOne := b; allSuccessful := allSuccessful st;
     submittedSomething := submittedSomething st;
     contentIDMap := contentIDMap st; opts := opts st; trace := trace st |}.

Definition set_allSuccessful (b : bool) (st : state) : state :=
  {| atLeastOne := atLeastOne st; allSuccessful := b;
     submittedSomething := submittedSomething st;
     contentIDMap := contentIDMap st; opts := opts st; trace := trace st |}.

Definition set_submittedSomething (b : bool) (st : state) : state :=
  {| atLeastOne := atLeastOne st; allSuccessful := allSuccessful st;
     submittedSomething := b;
     contentIDMap := contentIDMap st; opts := opts st; trace := trace st |}.

Definition set_contentIDMap (m : Obj.t (option string)) (st : state) : state :=
  {| atLeastOne := atLeastOne st; allSuccessful := allSuccessful st;
     submittedSomething := submittedSomething st;
     contentIDMap := m; opts := opts st; trace := trace st |}.

(** The object [recursivelyPrepare] passes as second argument of the
    callback. *)
Record result : Type := {
  didSomething : bool;
  res_submittedSomething : bool;
  res_contentIDMap : Obj.t (option string)
}.

(** [callback(new Error(msg), true)] or [callback(null, { ... })]. *)
Inductive outcome : Type :=
| Unsuccessful (err : Error) (second : bool)
| Completed (r : result).

(** [/^\./.test(name) || name === '_build' || name === '_site'] *)
Definition excluded (name : string) : bool :=
  test re_dotfile name || String.eqb name "_build" || String.eqb name "_site".

(** [for (let i = stats.length; i--; i >= 0) { ... stats.splice(i, 1) ... }]

    The loop condition is [i--]: it reads [i], stops when that is 0 and
    otherwise runs the body with [i] already decremented.  The third
    clause [i >= 0] is an expression without effect.  Reading [.name] of
    an index outside the array throws, which is [None] here. *)
Fixpoint prune (i : nat) (stats : list dirent) : option (list dirent) :=
  match i with
  | O => Some stats
  | S j =>
      match stats !! j with
      | Some (name, _) =>
          if excluded name then prune j (delete j stats) else prune j stats
      | None => None
      end
  end.

Section handlers.
Context (env : Env) (toolbelt : Toolbelt).

(** [walker.on('directories', ...)]: returns the array as the walker
    finds it after the handler has run. *)
Definition on_directories (root : string) (stats : list dirent) (st : state)
    : option (list dirent * state) :=
  let st := emit (Log LDebug "Traversing directories: %s" [AStr root]) st in
  stats' ← prune (length stats) stats;
  Some (stats', st).

(** [walker.on('files', ...)], together with the callback it hands to
    [prepare.prepare].  The continuation [callback] of the walker takes
    no argument: [callback(err)] and [callback(null)] both resume the
    walk. *)
Definition on_files (root : string) (stats : list string) (st : state) : state :=
  let hasContent := existsb (String.eqb "_deconst.json") stats in
  if hasContent then
    let st := emit (Log LInfo "Deconst content directory: %s" [AStr root]) st in
    let st := set_opts (Opts.set_contentRoot root (opts st)) st in
    let st := emit (Prepare (opts st)) st in
    let st := set_atLeastOne true st in
    match prepare env (opts st) with
    | Failed err => set_allSuccessful false st
    | Returned results =>
        let relativeRoot := path.relative (workspacePath toolbelt) root in
        let st := set_allSuccessful (allSuccessful st && Results.success results) st in
        if Results.didSomething results then
          let st := set_submittedSomething true st in
          set_contentIDMap (Obj.set relativeRoot (Results.contentIDBase results) (contentIDMap st)) st
        else st
    end
  else st.

(** [walker.on('errors', ...)] *)
Definition on_errors (root : string) (stats : list (string * Error)) (st : state) : state :=
  emit (Log LError "Error walking %s" [AStr root; AList (List.map snd stats)]) st.

(** [walker.on('end', ...)] *)
Definition on_end (st : state) : outcome * state :=
  let st := emit (Log LDebug "Walk completed" []) st in
  let st :=
    if negb (atLeastOne st) then
      emit (Log LInfo "Please add a _deconst.json file to each root directory where content is located." [])
        (emit (Log LInfo "No content discovered to prepare and submit." []) st)
    else st in
  if negb (allSuccessful st) then
    (Unsuccessful "At least one preparer terminated unsuccessfully." true, st)
  else
    (Completed {| didSomething := atLeastOne st;
                  res_submittedSomething := submittedSomething st;
                  res_contentIDMap := contentIDMap st |}, st).

(** The walker of the [walk] package, as far as the handlers above can
    observe it.  It reads a directory and sorts the entries by kind.
    When some entries could not be read it emits [errors] for them at
    once, with a continuation that does nothing; then it emits the
    groups that are not empty one after the other, each when the handler
    of the one before has called back: [files], [directories], and last
    [errors], a second time.  After that it descends into the
    directories still listed in the array it gave to the [directories]
    handler, taking them from the end of that array, each with the path
    [root + '/' + name].  [followLinks: false] keeps symbolic links out
    of the directory list.  [fuel] bounds the depth of the descent. *)
Fixpoint descend (visit : string → fsnode → state → option state)
    (root : string) (pending : list dirent) (st : state) : option state :=
  match pending with
  | [] => Some st
  | (name, node) :: pending' =>
      st' ← visit (root +:+ path.sep +:+ name) node st;
      descend visit root pending' st'
  end.

Fixpoint walk (fuel : nat) (root : string) (node : fsnode) (st : state) : option state :=
  match fuel with
  | O => None
  | S fuel' =>
      match node with
      | Dir errs files dirs =>
          let st := emit (Readdir root) st in
          let st := match errs with [] => st | _ => on_errors root errs st end in
          let st := match files with [] => st | _ => on_files root files st end in
          '(remaining, st) ← match dirs with
                             | [] => Some ([], st)
                             | _ => on_directories root dirs st
                             end;
          let st := match errs with [] => st | _ => on_errors root errs st end in
          descend (walk fuel') root (reverse remaining) st
      end
  end.

(** The same traversal written out as the list of directories it
    reads, each named by the chain of directory names that leads to it
    from the workspace: a directory first, then its subdirectories that
    are not excluded, last listed first, each with all that lies below
    it. *)
Fixpoint visits (names : list string) (node : fsnode) : list (list string * fsnode) :=
  (names, node) ::
  match node with
  | Dir _ _ dirs =>
      (fix below (l : list dirent) : list (list string * fsnode) :=
         match l with
         | [] => []
         | (name, d) :: l' =>
             below l' ++ (if excluded name then [] else visits (names ++ [name]) d)
         end) dirs
  end.

Definition visits_below (names : list string) (l : list dirent)
    : list (list string * fsnode) :=
  (fix below (l : list dirent) : list (list string * fsnode) :=
     match l with
     | [] => []
     | (name, d) :: l' =>
         below l' ++ (if excluded name then [] else visits (names ++ [name]) d)
     end) l.

(** The path the walker builds for a chain of names. *)
Definition path_of (names : list string) : string :=
  foldl (λ root name, root +:+ path.sep +:+ name) (workspacePath toolbelt) names.

(** What the handlers do to the state for one directory. *)
Definition handle (st : state) (v : list string * fsnode) : state :=
  let root := path_of v.1 in
  match v.2 with
  | Dir errs files dirs =>
      let st := emit (Readdir root) st in
      let st := match errs with [] => st | _ => on_errors root errs st end in
      let st := match files with [] => st | _ => on_files root files st end in
      let st := match dirs with
                | [] => st
                | _ => emit (Log LDebug "Traversing directories: %s" [AStr root]) st
                end in
      match errs with [] => st | _ => on_errors root errs st end
  end.

(** [stats.some((each) => each.name === '_deconst.json')] for the files
    of a directory. *)
Definition has_marker (v : list string * fsnode) : bool :=
  match v.2 with
  | Dir _ files _ => existsb (String.eqb "_deconst.json") files
  end.

(** The content roots among the directories [vs]: those that hold a
    [_deconst.json] file, by their paths. *)
Definition roots_of (vs : list (list string * fsnode)) : list string :=
  List.map (λ v, path_of v.1) (List.filter has_marker vs).

(** The content roots of the workspace, in the order the walker meets
    them. *)
Definition discovered : list string := roots_of (visits [] (tree env)).

(** The preparer's answer for a root, given the caller's [opts]. *)
Definition prepared (o : Opts.t) (root : string) : callback Results.t :=
  prepare env (Opts.set_contentRoot root o).

(** The preparer failed, or answered with results whose [success] is not
    true. *)
Definition unsuccessful (r : callback Results.t) : bool :=
  match r with
  | Failed _ => true
  | Returned results => negb (Results.success results)
  end.

(** The content ID the preparer submitted under, when its results say
    [didSomething]. *)
Definition submitted (r : callback Results.t) : option (option string) :=
  match r with
  | Failed _ => None
  | Returned results =>
      if Results.didSomething results then Some (Results.contentIDBase results) else None
  end.

Definition did_submit (r : callback Results.t) : bool :=
  match submitted r with Some _ => true | None => false end.

(** [contentIDMap] after the roots [rs] have been prepared, starting
    from [m]. *)
Definition record_root (o : Opts.t) (m : Obj.t (option string)) (root : string)
    : Obj.t (option string) :=
  match submitted (prepared o root) with
  | Some contentIDBase => Obj.set (path.relative (workspacePath toolbelt) root) contentIDBase m
  | None => m
  end.

(** The aggregate that the callback of [recursivelyPrepare] receives:
    the error when some root was not prepared with success, else the
    result object folded from the answers for the content roots. *)
Definition aggregate (o : Opts.t) : outcome :=
  let roots := discovered in
  if forallb (λ root, negb (unsuccessful (prepared o root))) roots
  then Completed
         {| didSomething := existsb (λ _, true) roots;
            res_submittedSomething :=
              existsb (λ root, did_submit (prepared o root)) roots;
            res_contentIDMap := foldl (record_root o) ∅ roots |}
  else Unsuccessful "At least one preparer terminated unsuccessfully." true.

Definition initial (o : Opts.t) : state :=
  {| atLeastOne := false; allSuccessful := true; submittedSomething := false;
     contentIDMap := ∅; opts := o; trace := [] |}.

(** The state of the closure when the walker emits [end]. *)
Definition walked (o : Opts.t) : option state :=
  walk (height (tree env)) (workspacePath toolbelt) (tree env) (initial o).

(** [recursivelyPrepare(toolbelt, opts, callback)]: the arguments of the
    callback, the [opts] object as the caller finds it afterwards, and
    the trace. *)
Definition recursivelyPrepare (o : Opts.t) : option (outcome * Opts.t * list event) :=
  st ← walked o;
  let '(out, st') := on_end st in
  Some (out, opts st', trace st').

End handlers.
End RP.

(** An entry that the [directories] handler leaves in the array. *)
Definition kept (d : dirent) : Prop := RP.excluded d.1 = false.

#[global] Instance kept_dec d : Decision (kept d) :=
  decide (RP.excluded d.1 = false).

(** ** [preparePullRequest] *)

(** The order in which the answers to concurrent presenter queries come
    back: some rearrangement of the order in which they were sent. *)
Record Arrival : Type := {
  arrival :> list (string * option string) → list (string * option string);
  arrival_perm : ∀ l, arrival l ≡ₚ l
}.

Module PR.

(** The [let] variables of [preparePullRequest] and the trace. *)
Record state : Type := {
  revisionID : option string;
  transientKey : option string;
  contentIDMap : option (Obj.t (option string));
  presentedURLMap : option (Obj.t (list string));
  submittedSomething : bool;
  didSomething : bool;
  trace : list event
}.

Definition initial : state :=
  {| revisionID := None; transientKey := None; contentIDMap := None;
     presentedURLMap := None; submittedSomething := false;
     didSomething := false; trace := [] |}.

Definition emit (e : event) (st : state) : state :=
  {| revisionID := revisionID st; transientKey := transientKey st;
     contentIDMap := contentIDMap st; presentedURLMap := presentedURLMap st;
     submittedSomething := submittedSomething st; didSomething := didSomething st;
     trace := trace st ++ [e] |}.

Definition emits (es : list event) (st : state) : state :=
  {| revisionID := revisionID st; transientKey := transientKey st;
     contentIDMap := contentIDMap st; presentedURLMap := presentedURLMap st;
     submittedSomething := submittedSomething st; didSomething := didSomething st;
     trace := trace st ++ es |}.

Definition set_revisionID (v : string) (st : state) : state :=
  {| revisionID := Some v; transientKey := transientKey st;
     contentIDMap := contentIDMap st; presentedURLMap := presentedURLMap st;
     submittedSomething := submittedSomething st; didSomething := didSomething st;
     trace := trace st |}.

Definition set_transientKey (v : string) (st : state) : state :=
  {| revisionID := revisionID st; transientKey := Some v;
     contentIDMap := contentIDMap st; presentedURLMap := presentedURLMap st;
     submittedSomething := submittedSomething st; didSomething := didSomething st;
     trace := trace st |}.

Definition set_result (r : RP.result) (st : state) : state :=
  {| revisionID := revisionID st; transientKey := transientKey st;
     contentIDMap := Some (RP.res_contentIDMap r);
     presentedURLMap := presentedURLMap st;
     submittedSomething := RP.res_submittedSomething r;
     didSomething := RP.didSomething r;
     trace := trace st |}.

Definition set_presentedURLMap (m : Obj.t (list string)) (st : state) : state :=
  {| revisionID := revisionID st; transientKey := transientKey st;
     contentIDMap := contentIDMap st; presentedURLMap := Some m;
     submittedSomething := submittedSomething st; didSomething := didSomething st;
     trace := trace st |}.

(** String conversion of a variable that holds a string or [null]. *)
Definition to_string (v : option string) : string :=
  match v with
  | Some s => s
  | None => "null"
  end.

(** Truthiness of a value that is a string or undefined. *)
Definition truthy (v : option string) : bool :=
  match v with
  | Some s => negb (String.eqb s "")
  | None => false
  end.

(** One function of the [async.series] array: it ends by calling [cb]
    with an error or without one.  The outer [option] is [None] when the
    step does not come back. *)
Definition step : Type := state → option (option Error * state).

(** What the pipeline hands to its caller. *)
Record pull_request_result : Type := { pr_didSomething : bool }.

Section steps.
Context (env : Env) (order : Arrival) (toolbelt : Toolbelt).

Definition generateRevisionID : step := λ st,
  if truthy (mockGitSHA (config toolbelt)) then
    let st := emit (Log LDebug "Returning mocked git workspace SHA." []) st in
    let st := set_revisionID ("build-" +:+ to_string (mockGitSHA (config toolbelt))) st in
    Some (None, st)
  else
    let cwd := workspacePath toolbelt in
    let st := emit (Log LDebug "Generating revision ID from git SHA of [%s]." [AStr cwd]) st in
    let st := emit (ExecFile "git" ["rev-parse"; "--short=10"; "HEAD"] cwd) st in
    let r := git_rev_parse env cwd in
    match exec_err r with
    | Some err =>
        let st := emit (Log LError "unable to execute git." []) st in
        let st := emit (Log LError ("[stdout]" +:+ String LF (exec_stdout r)) []) st in
        let st := emit (Log LError ("[stderr]" +:+ String LF (exec_stderr r)) []) st in
        Some (Some err, st)
    | None =>
        let st := set_revisionID ("build-" +:+ replace re_trailing_newline (exec_stdout r) "") st in
        let st := emit (Log LDebug "Revision ID: [%s]" [AStr (to_string (revisionID st))]) st in
        Some (None, st)
    end.

Definition issueTransientKey : step := λ st,
  let st := emit (Log LDebug "Issuing transient staging API key." []) st in
  let name := "temporary-" +:+ to_string (revisionID st) in
  let st := emit (IssueAPIKey name) st in
  match issueAPIKey (stagingContentService toolbelt) name with
  | Failed err => Some (Some err, st)
  | Returned apiKey => Some (None, set_transientKey apiKey st)
  end.

(** The object literal [{ revisionID, contentServiceURL,
    contentServiceAPIKey }] of [invokePreparer]. *)
Definition preparer_opts (revisionID transientKey : option string) : Opts.t :=
  {| Opts.revisionID := revisionID;
     Opts.contentServiceURL := stagingContentServiceURL (config toolbelt);
     Opts.contentServiceAPIKey := transientKey;
     Opts.contentRoot := None |}.

Definition invokePreparer : step := λ st,
  let st := emit (Log LDebug "Invoking preparer with revision ID [%s]."
                    [AStr (to_string (revisionID st))]) st in
  let opts := preparer_opts (revisionID st) (transientKey st) in
  '(out, _, tr) ← RP.recursivelyPrepare env toolbelt opts;
  let st := emits tr st in
  match out with
  | RP.Unsuccessful err _ => Some (Some err, st)
  | RP.Completed result => Some (None, set_result result st)
  end.

Definition revokeTransientKey : step := λ st,
  let st := emit (Log LDebug "Revoking transient staging API key." []) st in
  let st := emit (RevokeAPIKey (transientKey st)) st in
  Some (revokeAPIKey (stagingContentService toolbelt) (transientKey st), st).

(** The iteratee of [async.forEachOf] from the point where the
    presenter answers. *)
Definition resolved (presenter : Presenter) (entry : string * option string)
    (acc : option Error * state) : option Error * state :=
  let '(contentRoot, contentID) := entry in
  let '(failure, st) := acc in
  match whereis presenter contentID with
  | Failed err =>
      (match failure with Some _ => failure | None => Some err end, st)
  | Returned mappings =>
      let presentedURLs := List.map (urlJoin env (stagingPresenterURL (config toolbelt))) mappings in
      let st := emit (Log LDebug "Content root [%s] is mapped to the URL%s %s."
                        [AStr contentRoot;
                         AStr (if Nat.eqb (length presentedURLs) 1 then "s" else "");
                         AList presentedURLs]) st in
      (failure, set_presentedURLMap (Obj.set contentRoot presentedURLs (default ∅ (presentedURLMap st))) st)
  end.

(** [async.forEachOf(contentIDMap, ...)] over a presenter that answers
    asynchronously: every entry is queried before the first answer
    comes back, the answers are handled in their order of arrival, and
    the first error among them is the one handed to the final callback.
    With [contentIDMap] still [null] there is nothing to iterate; the
    guard on [submittedSomething] keeps that case away. *)
Definition getPresentedURLMap : step := λ st,
  match stagingPresenter toolbelt with
  | None =>
      Some (None, emit (Log LError "Unable to comment on GitHub: the staging URL is not configured." []) st)
  | Some presenter =>
      if negb (submittedSomething st) then Some (None, st)
      else
        let st := set_presentedURLMap ∅ st in
        let entries := Obj.items (default ∅ (contentIDMap st)) in
        let st := emits (List.map (λ entry, Whereis entry.2) entries) st in
        Some (foldl (λ acc entry, resolved presenter entry acc) (None, st) (order entries))
  end.

Definition commentOnGitHub : step := λ st,
  match presentedURLMap st with
  | None => Some (None, st)
  | Some presented =>
      if negb (submittedSomething st) then Some (None, st)
      else
        match github toolbelt with
        | None =>
            let st := emit (Log LError "Unable to comment on GitHub: no GitHub account available." []) st in
            let contentRoots := Obj.keys presented in
            let st :=
              match contentRoots with
              | [only] =>
                  emit (Log LInfo "Your preview is available at %s."
                          [AList (default [] (presented !! only))]) st
              | _ =>
                  emits (List.map (λ contentRoot,
                             Log LInfo "* %s: %s"
                               [AStr contentRoot; AList (default [] (presented !! contentRoot))])
                           contentRoots)
                    (emit (Log LInfo "Your previews are available at:" []) st)
              end in
            Some (None, st)
        | Some gh =>
            match exec re_pull_request (pullRequestURL toolbelt) with
            | None =>
                let st := emit (Log LError "Unable to comment on GitHub: the pull request URL looks wrong." []) st in
                let st := emit (Log LError "URL: [%s]" [AStr (pullRequestURL toolbelt)]) st in
                Some (None, st)
            | Some m =>
                let repoName := nth 0 (m_groups m) "" in
                let pullRequestNumber := nth 1 (m_groups m) "" in
                let commentBody := forSuccessfulBuild env presented in
                let st := emit (PostComment repoName pullRequestNumber commentBody) st in
                Some (postComment gh repoName pullRequestNumber commentBody, st)
            end
        end
  end.

(** [async.series(tasks, final)]: the tasks run one after the other;
    the first error ends the series and goes to [final], and the tasks
    after it are not run. *)
Fixpoint series (tasks : list step) (st : state) : option (option Error * state) :=
  match tasks with
  | [] => Some (None, st)
  | task :: tasks' =>
      '(err, st') ← task st;
      match err with
      | Some e => Some (Some e, st')
      | None => series tasks' st'
      end
  end.

Definition pipeline : list step :=
  [generateRevisionID; issueTransientKey; invokePreparer;
   revokeTransientKey; getPresentedURLMap; commentOnGitHub].

(** [preparePullRequest(toolbelt, callback)]: the arguments of the
    callback and the trace of the run. *)
Definition preparePullRequest : option (callback pull_request_result * list event) :=
  '(err, st) ← series pipeline initial;
  match err with
  | Some e => Some (Failed e, trace st)
  | None => Some (Returned {| pr_didSomething := didSomething st |}, trace st)
  end.

(** The URLs for the paths the presenter returns. *)
Definition presented_urls (paths : list string) : list string :=
  List.map (urlJoin env (stagingPresenterURL (config toolbelt))) paths.

(** The presented URL map once the answer for [entry] has arrived. *)
Definition present (presenter : Presenter) (pm : Obj.t (list string))
    (entry : string * option string) : Obj.t (list string) :=
  match whereis presenter entry.2 with
  | Returned paths => Obj.set entry.1 (presented_urls paths) pm
  | Failed _ => pm
  end.

(** The revision ID a run starts with, when [generateRevisionID]
    comes back without error. *)
Definition revision : option string :=
  match generateRevisionID initial with
  | Some (None, st) => revisionID st
  | _ => None
  end.

End steps.
End PR.

(** ** Reading traces *)

Definition prepare_calls (tr : list event) : list Opts.t :=
  omap (λ e, match e with Prepare o => Some o | _ => None end) tr.

Definition readdirs (tr : list event) : list string :=
  omap (λ e, match e with Readdir d => Some d | _ => None end) tr.

Definition issued (tr : list event) : list string :=
  omap (λ e, match e with IssueAPIKey n => Some n | _ => None end) tr.

Definition revoked (tr : list event) : list (option string) :=
  omap (λ e, match e with RevokeAPIKey k => Some k | _ => None end) tr.

Definition queried (tr : list event) : list (option string) :=
  omap (λ e, match e with Whereis c => Some c | _ => None end) tr.

Definition comments (tr : list event) : list (string * string * string) :=
  omap (λ e, match e with PostComment r n b => Some (r, n, b) | _ => None end) tr.

Definition subprocesses (tr : list event) : list (string * list string * string) :=
  omap (λ e, match e with ExecFile f a c => Some (f, a, c) | _ => None end) tr.

(** The events of [recursivelyPrepare]: log lines, directory reads and
    preparer calls. *)
Definition local (e : event) : bool :=
  match e with
  | Log _ _ _ | Readdir _ | Prepare _ => true
  | _ => false
  end.

Definition is_log (e : event) : bool :=
  match e with
  | Log _ _ _ => true
  | _ => false
  end.

(** [at_path t names d]: following [names] down from [t] leads to [d]. *)
Inductive at_path : fsnode → list string → fsnode → Prop :=
| at_here t : at_path t [] t
| at_child errs files dirs name d names t :
    (name, d) ∈ dirs → at_path d names t →
    at_path (Dir errs files dirs) (name :: names) t.

(** What [replace(/\r?\n$/, '')] comes to: one line end, LF or CR LF, is
    taken off the end of the text. *)
Fixpoint chomp (s : string) : string :=
  match s with
  | EmptyString => EmptyString
  | String c s' =>
      if Ascii.eqb c LF && String.eqb s' "" then EmptyString
      else if Ascii.eqb c CR && String.eqb s' (String LF "") then EmptyString
      else String c (chomp s')
  end.

(** ** A sample workspace

    Two content roots, [docs] and [api], next to directories that the
    walker must not enter although they hold a marker file. *)
Module Sample.

Definition leaf (files : list string) : fsnode := Dir [] files [].

Definition workspace : fsnode :=
  Dir [] ["README.md"]
    [ (".git", leaf ["_deconst.json"; "HEAD"]);
      ("api", leaf ["_deconst.json"; "index.md"]);
      ("_build", leaf ["_deconst.json"]);
      ("docs", Dir [] ["_deconst.json"; "index.rst"]
                 [("_site", leaf ["_deconst.json"]); ("guide", leaf ["intro.rst"])]) ].

Definition submitted_as (contentIDBase : string) : callback Results.t :=
  Returned {| Results.success := true; Results.didSomething := true;
              Results.contentIDBase := Some contentIDBase |}.

(** A preparer that submits both roots. *)
Definition prepare_both (o : Opts.t) : callback Results.t :=
  match Opts.contentRoot o with
  | Some "/ws/docs" => submitted_as "id1"
  | Some "/ws/api" => submitted_as "id2"
  | _ => Failed "not a content root"
  end.

(** A preparer that fails on [api]. *)
Definition prepare_docs_only (o : Opts.t) : callback Results.t :=
  match Opts.contentRoot o with
  | Some "/ws/docs" => submitted_as "id1"
  | _ => Failed "preparer exited with status 1"
  end.

Definition git_ok : ExecResult :=
  {| exec_err := None; exec_stdout := "0123456789" +:+ String LF ""; exec_stderr := "" |}.

Definition env_with (prepare : Opts.t → callback Results.t) : Env :=
  {| tree := workspace; prepare := prepare; git_rev_parse := λ _, git_ok;
     urlJoin := λ base p, base +:+ p;
     forSuccessfulBuild := λ presented, "Preview ready." |}.

Definition env : Env := env_with prepare_both.
Definition failing_env : Env := env_with prepare_docs_only.

Definition service : ContentService :=
  {| issueAPIKey := λ name, Returned ("key-for-" +:+ name);
     revokeAPIKey := λ _, None |}.

(** A presenter that knows [id1] and fails on every other content ID. *)
Definition presenter : Presenter :=
  {| whereis := λ contentID,
       match contentID with
       | Some "id1" => Returned ["/docs/"; "/docs/latest/"]
       | _ => Failed "presenter unreachable"
       end |}.

Definition hub : GitHub := {| postComment := λ _ _ _, None |}.

Definition toolbelt_with (mock : option string) (p : option Presenter)
    (g : option GitHub) (url : string) : Toolbelt :=
  {| workspacePath := "/ws";
     config := {| mockGitSHA := mock;
                  stagingContentServiceURL := "https://content.staging";
                  stagingPresenterURL := "https://staging" |};
     stagingPresenter := p; stagingContentService := service;
     github := g; pullRequestURL := url |}.

(** No presenter, no GitHub account, a mocked SHA. *)
Definition toolbelt : Toolbelt :=
  toolbelt_with (Some "abc123") None None "https://host/owner/repo/pull/42".

(** No mocked SHA: the revision comes from git. *)
Definition git_toolbelt : Toolbelt :=
  toolbelt_with None None None "https://host/owner/repo/pull/42".

Definition full_toolbelt : Toolbelt :=
  toolbelt_with (Some "abc123") (Some presenter) (Some hub) "https://host/owner/repo/pull/42".

Definition fifo : Arrival :=
  {| arrival := λ l, l; arrival_perm := λ l, Permutation_refl l |}.

Definition opts : Opts.t :=
  PR.preparer_opts toolbelt (Some "build-abc123") (Some "key-for-temporary-build-abc123").

Definition contentIDs : Obj.t (option string) :=
  Obj.set "api" (Some "id2") (Obj.set "docs" (Some "id1") ∅).

(** The pipeline state after a preparation that submitted both roots. *)
Definition prepared_state : PR.state :=
  {| PR.revisionID := Some "build-abc123";
     PR.transientKey := Some "key-for-temporary-build-abc123";
     PR.contentIDMap := Some contentIDs;
     PR.presentedURLMap := None;
     PR.submittedSomething := true; PR.didSomething := true;
     PR.trace := [] |}.

Definition presented : Obj.t (list string) :=
  Obj.set "docs" ["https://staging/docs/"] ∅.

Definition presented_state : PR.state :=
  PR.set_presentedURLMap presented prepared_state.

End Sample.

(** ** More to compare the code with *)

(** The tree without the entries that cannot be read. *)
Fixpoint without_errors (t : fsnode) : fsnode :=
  match t with
  | Dir _ files dirs =>
      Dir [] files
        ((fix all (l : list dirent) : list dirent :=
            match l with
            | [] => []
            | (name, d) :: l' => (name, without_errors d) :: all l'
            end) dirs)
  end.

Definition with_tree (t : fsnode) (env : Env) : Env :=
  {| tree := t; prepare := prepare env; git_rev_parse := git_rev_parse env;
     urlJoin := urlJoin env; forSuccessfulBuild := forSuccessfulBuild env |}.

(** What the walker and the handlers do at one directory, in order: the
    directory is read, the entries that could not be read are logged,
    the preparer is called when there is a marker file, the
    [directories] handler logs when there are subdirectories, and the
    entries that could not be read are logged once more. *)
Definition directory_events (toolbelt : Toolbelt) (o : Opts.t)
    (v : list string * fsnode) : list event :=
  let root := RP.path_of toolbelt v.1 in
  match v.2 with
  | Dir errs files dirs =>
      Readdir root ::
      match errs with
      | [] => []
      | _ => [Log LError "Error walking %s" [AStr root; AList (List.map snd errs)]]
      end ++
      (if existsb (String.eqb "_deconst.json") files
       then [Log LInfo "Deconst content directory: %s" [AStr root];
             Prepare (Opts.set_contentRoot root o)]
       else []) ++
      match dirs with
      | [] => []
      | _ => [Log LDebug "Traversing directories: %s" [AStr root]]
      end ++
      match errs with
      | [] => []
      | _ => [Log LError "Error walking %s" [AStr root; AList (List.map snd errs)]]
      end
  end.

(** The lines [walker.on('end')] logs. *)
Definition end_events (roots : list string) : list event :=
  Log LDebug "Walk completed" [] ::
  match roots with
  | [] => [Log LInfo "No content discovered to prepare and submit." [];
           Log LInfo "Please add a _deconst.json file to each root directory where content is located." []]
  | _ => []
  end.

Definition is_error_log (e : event) : bool :=
  match e with
  | Log LError _ _ => true
  | _ => false
  end.

(** The events of [generateRevisionID], and those of the two tasks that
    come after the revocation. *)
Definition revision_event (e : event) : bool :=
  match e with
  | Log _ _ _ | ExecFile _ _ _ => true
  | _ => false
  end.

Definition notice_event (e : event) : bool :=
  match e with
  | Log _ _ _ | Whereis _ | PostComment _ _ _ => true
  | _ => false
  end.

(** What a run does besides logging. *)
Definition effects (tr : list event) : list event :=
  List.filter (λ e, negb (is_log e)) tr.

(** The reads and preparer calls of the walk, directory by directory. *)
Definition walk_effects (toolbelt : Toolbelt) (o : Opts.t)
    (vs : list (list string * fsnode)) : list event :=
  flat_map (λ v,
    Readdir (RP.path_of toolbelt v.1) ::
    if RP.has_marker v
    then [Prepare (Opts.set_contentRoot (RP.path_of toolbelt v.1) o)]
    else []) vs.

(** A text without carriage return and line feed. *)
Fixpoint no_line_end (s : string) : bool :=
  match s with
  | EmptyString => true
  | String c s' => negb (Ascii.eqb c CR) && negb (Ascii.eqb c LF) && no_line_end s'
  end.

(** The paths the presenter gives for a content ID, none when it fails. *)
Definition answered (presenter : Presenter) (contentID : option string) : list string :=
  match whereis presenter contentID with
  | Returned paths => paths
  | Failed _ => []
  end.

(** ** More sample collaborators *)
Module Cases.

(** Entries that cannot be read, in the workspace and in [docs]. *)
Definition unreadable : fsnode :=
  Dir [("private", "EACCES: permission denied")] ["README.md"]
    [ ("api", Sample.leaf ["_deconst.json"; "index.md"]);
      ("docs", Dir [("draft.rst", "ELOOP: too many symbolic links")]
                 ["_deconst.json"; "index.rst"] []) ].

(** A workspace without any content root. *)
Definition bare : fsnode :=
  Dir [] ["README.md"] [("src", Sample.leaf ["main.c"])].

(** A preparer that finds nothing to submit. *)
Definition prepare_nothing (o : Opts.t) : callback Results.t :=
  Returned {| Results.success := true; Results.didSomething := false;
              Results.contentIDBase := None |}.

Definition idle_env : Env := Sample.env_with prepare_nothing.

Definition refusing_service : ContentService :=
  {| issueAPIKey := λ _, Failed "401 Unauthorized";
     revokeAPIKey := λ _, None |}.

Definition keeping_service : ContentService :=
  {| issueAPIKey := λ name, Returned ("key-for-" +:+ name);
     revokeAPIKey := λ _, Some "500 Internal Server Error" |}.

(** A presenter that knows both content IDs. *)
Definition presenter : Presenter :=
  {| whereis := λ contentID,
       match contentID with
       | Some "id1" => Returned ["/docs/"]
       | Some "id2" => Returned ["/api/"; "/api/v2/"]
       | _ => Failed "unknown content ID"
       end |}.

Definition toolbelt_of (service : ContentService) (p : option Presenter)
    (g : option GitHub) : Toolbelt :=
  {| workspacePath := "/ws";
     config := {| mockGitSHA := Some "abc123";
                  stagingContentServiceURL := "https://content.staging";
                  stagingPresenterURL := "https://staging" |};
     stagingPresenter := p; stagingContentService := service;
     github := g; pullRequestURL := "https://host/owner/repo/pull/42" |}.

Definition refused : Toolbelt := toolbelt_of refusing_service None None.
Definition kept_key : Toolbelt := toolbelt_of keeping_service (Some presenter) (Some Sample.hub).
Definition complete : Toolbelt := toolbelt_of Sample.service (Some presenter) (Some Sample.hub).
Definition no_hub : Toolbelt := toolbelt_of Sample.service (Some presenter) None.

(** A content root named [__proto__]. *)
Definition dunder : fsnode :=
  Dir [] ["README.md"] [("__proto__", Sample.leaf ["_deconst.json"; "index.md"])].

Definition prepare_dunder (o : Opts.t) : callback Results.t :=
  match Opts.contentRoot o with
  | Some "/ws/__proto__" => Sample.submitted_as "id3"
  | _ => Failed "not a content root"
  end.

Definition dunder_env : Env := with_tree dunder (Sample.env_with prepare_dunder).

(** A build that is not for a pull request. *)
Definition wrong_url : Toolbelt :=
  Sample.toolbelt_with (Some "abc123") (Some presenter) (Some Sample.hub)
    "https://host/owner/repo/commits/abc".

End Cases.

(** * Properties *)

(** ** Strings *)
Section string_facts.

Lemma append_nil_l s : "" +:+ s = s.
Proof. reflexivity. Qed.

Lemma append_cons c a b : String c a +:+ b = String c (a +:+ b).
Proof. reflexivity. Qed.

Lemma append_nil_r s : s +:+ "" = s.
Proof. induction s as [|c s IH]; [done|]. by rewrite append_cons, IH. Qed.

Lemma append_assoc a b c : (a +:+ b) +:+ c = a +:+ (b +:+ c).
Proof. induction a as [|x a IH]; [done|]. by rewrite !append_cons, IH. Qed.

Lemma length_append a b :
  String.length (a +:+ b) = String.length a + String.length b.
Proof. induction a as [|x a IH]; [done|]. rewrite append_cons. simpl. by rewrite IH. Qed.

Lemma substring_none n s : substring n 0 s = "".
Proof. revert n. induction s; intros [|n]; simpl; auto. Qed.

Lemma substring_prefix p s : substring 0 (String.length p) (p +:+ s) = p.
Proof.
  induction p as [|x p IH]; [by destruct s|].
  rewrite append_cons. simpl. by rewrite IH.
Qed.

Lemma substring_skip p n m s :
  substring (String.length p + n) m (p +:+ s) = substring n m s.
Proof. induction p as [|x p IH]; [done|]. rewrite append_cons. simpl. apply IH. Qed.

Lemma substring_end s k : substring (String.length s) k s = "".
Proof. induction s as [|x s IH]; [by destruct k|]. simpl. apply IH. Qed.

Lemma append_snoc p c s : (p +:+ String c "") +:+ s = p +:+ String c s.
Proof. by rewrite append_assoc. Qed.

Lemma length_snoc p c : String.length (p +:+ String c "") = S (String.length p).
Proof. rewrite length_append. simpl. lia. Qed.

End string_facts.

(** ** The regular expressions *)
Section regex_facts.

Lemma search_bol_fails input r pos s :
  search input (Seq Bol r) (S pos) s = None.
Proof.
  revert pos. induction s as [|c s IH]; intros pos; simpl; [done|].
  apply IH.
Qed.

Lemma test_dotfile name :
  test re_dotfile name =
  match name with String c _ => Ascii.eqb c "." | EmptyString => false end.
Proof.
  unfold test, exec, re_dotfile. destruct name as [|c s]; simpl; [done|].
  destruct (Ascii.eqb c "."); [done|].
  by rewrite search_bol_fails.
Qed.

Lemma search_cons input r pos c s :
  search input r pos (String c s) =
  match match_re input r pos (String c s) []
          (λ p _ cs, Some {| m_index := pos; m_end := p; m_groups := cs |}) with
  | Some m => Some m
  | None => search input r (S pos) s
  end.
Proof. reflexivity. Qed.

(** Cutting out the first match of [/\r?\n$/] found from position
    [length p] on leaves [p] followed by the chomped rest. *)
Lemma cut_trailing_newline p s :
  match search (p +:+ s) re_trailing_newline (String.length p) s with
  | Some m =>
      substring 0 (m_index m) (p +:+ s) +:+ "" +:+
      substring (m_end m) (String.length (p +:+ s) - m_end m) (p +:+ s)
  | None => p +:+ s
  end = p +:+ chomp s.
Proof.
  revert p. induction s as [|c s IH]; intros p; [done|].
  specialize (IH (p +:+ String c "")).
  rewrite !append_snoc, length_snoc in IH.
  rewrite search_cons.
  remember (search (p +:+ String c s) re_trailing_newline (S (String.length p)) s)
    as rest eqn:Hrest.
  clear Hrest. unfold re_trailing_newline.
  assert (Hcut : ∀ k,
    substring 0 (String.length p) (p +:+ String c s) +:+ "" +:+
    substring (String.length (p +:+ String c s)) k (p +:+ String c s) = p +:+ "").
  { intros k. by rewrite substring_prefix, substring_end. }
  destruct (Ascii.eqb_spec c CR) as [->|Hcr].
  - (* a carriage return: the optional \r is tried first *)
    destruct s as [|c' s'].
    { simpl. exact IH. }
    destruct (Ascii.eqb_spec c' LF) as [->|Hlf].
    + destruct s' as [|c'' s''].
      * simpl. rewrite length_append. simpl.
        specialize (Hcut 0). rewrite length_append in Hcut. simpl in Hcut.
        replace (String.length p + 2 - S (S (String.length p))) with 0 by lia.
        replace (S (S (String.length p))) with (String.length p + 2) by lia.
        exact Hcut.
      * simpl. exact IH.
    + pose proof (proj2 (Ascii.eqb_neq c' LF) Hlf) as E.
      simpl in IH |- *. rewrite E in IH |- *. simpl in IH |- *. exact IH.
  - destruct (Ascii.eqb_spec c LF) as [->|Hlf].
    + destruct s as [|c' s'].
      * simpl. rewrite length_append. simpl.
        specialize (Hcut 0). rewrite length_append in Hcut. simpl in Hcut.
        replace (String.length p + 1 - S (String.length p)) with 0 by lia.
        replace (S (String.length p)) with (String.length p + 1) by lia.
        exact Hcut.
      * simpl. exact IH.
    + simpl. rewrite (proj2 (Ascii.eqb_neq c CR) Hcr), (proj2 (Ascii.eqb_neq c LF) Hlf).
      simpl. exact IH.
Qed.

Lemma strip_prefix_Some p s s' : strip_prefix p s = Some s' → s = p +:+ s'.
Proof.
  revert s. induction p as [|a p IH]; intros s; simpl.
  { by intros [= ->]. }
  destruct s as [|b s]; [done|].
  destruct (Ascii.eqb_spec a b) as [->|]; [|done].
  intros Hs. by rewrite (IH _ Hs).
Qed.

Lemma strip_prefix_append p s : strip_prefix p (p +:+ s) = Some s.
Proof.
  induction p as [|a p IH]; [done|].
  rewrite append_cons. simpl. by rewrite Ascii.eqb_refl.
Qed.

Lemma match_star_sound {R} a pos s (k : nat → string → option R) res :
  match_star a pos s k = Some res →
  ∃ w rest, s = w +:+ rest ∧ all_match a w = true ∧
            k (pos + String.length w) rest = Some res.
Proof.
  revert pos. induction s as [|c s IH]; intros pos; simpl.
  { intros Hk. exists "", "". by rewrite Nat.add_0_r. }
  destruct (atom_matches a c) eqn:Hc.
  - destruct (match_star a (S pos) s k) as [res'|] eqn:Hstar.
    + intros [= ->]. destruct (IH _ Hstar) as (w & rest & -> & Hw & Hk).
      exists (String c w), rest. simpl. rewrite Hc, Hw.
      by rewrite Nat.add_succ_r.
    + intros Hk. exists "", (String c s). by rewrite Nat.add_0_r.
  - intros Hk. exists "", (String c s). by rewrite Nat.add_0_r.
Qed.

Lemma match_star_complete {R} a pos w rest (k : nat → string → option R) res :
  all_match a w = true →
  k (pos + String.length w) rest = Some res →
  is_Some (match_star a pos (w +:+ rest) k).
Proof.
  revert pos. induction w as [|c w IH]; intros pos Hw Hk.
  - rewrite Nat.add_0_r in Hk. rewrite append_nil_l.
    destruct rest as [|c rest]; simpl; [by eexists|].
    destruct (atom_matches a c); [|by eexists].
    destruct (match_star a (S pos) rest k); by eexists.
  - simpl in Hw. apply andb_true_iff in Hw as [Hc Hw].
    rewrite append_cons. simpl. rewrite Hc.
    simpl in Hk. rewrite Nat.add_succ_r in Hk.
    destruct (IH (S pos) Hw Hk) as [res' ->]. by eexists.
Qed.

(** A result of the matcher comes from a way to read the pattern. *)
Lemma match_re_sound {R} r : ∀ input pre s caps
    (k : nat → string → list string → option R) res,
  input = pre +:+ s →
  match_re input r (String.length pre) s caps k = Some res →
  ∃ w rest cs,
    s = w +:+ rest ∧ den r (String.length pre) w rest cs ∧
    k (String.length pre + String.length w) rest (caps ++ cs) = Some res.
Proof.
  induction r as [a|l|a|a| | |r1 IH1 r2 IH2|r1 IH1];
    intros input pre s caps k res Hinput; simpl.
  - destruct s as [|c s]; [done|]. destruct (atom_matches a c) eqn:Hc; [|done].
    intros Hk. exists (String c ""), s, []. rewrite app_nil_r, Nat.add_1_r.
    repeat split; eauto.
  - destruct (strip_prefix l s) as [s'|] eqn:Hl; [|done].
    intros Hk. exists l, s', []. rewrite app_nil_r.
    by rewrite (strip_prefix_Some _ _ _ Hl).
  - assert (Hskip : k (String.length pre) s caps = Some res →
      ∃ w rest cs, s = w +:+ rest ∧
        ((w = "" ∨ ∃ c, w = String c "" ∧ atom_matches a c = true) ∧ cs = []) ∧
        k (String.length pre + String.length w) rest (caps ++ cs) = Some res).
    { intros Hk. exists "", s, []. rewrite app_nil_r, Nat.add_0_r. auto. }
    destruct s as [|c s]; [done|]. destruct (atom_matches a c) eqn:Hc; [|done].
    destruct (k (S (String.length pre)) s caps) as [res'|] eqn:Hk; [|done].
    intros [= ->]. exists (String c ""), s, []. rewrite app_nil_r, Nat.add_1_r.
    repeat split; eauto.
  - destruct s as [|c s]; [done|]. destruct (atom_matches a c) eqn:Hc; [|done].
    intros (w & rest & -> & Hw & Hk)%match_star_sound.
    exists (String c w), rest, []. rewrite app_nil_r. simpl. rewrite Hc, Hw.
    rewrite Nat.add_succ_r. by repeat split.
  - destruct (String.length pre) eqn:Hpos; [|done].
    intros Hk. exists "", s, []. by rewrite app_nil_r.
  - destruct s; [|done]. intros Hk. exists "", "", [].
    by rewrite app_nil_r, Nat.add_0_r.
  - intros (w1 & rest1 & cs1 & -> & Hden1 & Hk1)%(IH1 input pre); [|done].
    assert (Hinput' : input = (pre +:+ w1) +:+ rest1) by by rewrite append_assoc.
    rewrite <- length_append in Hk1.
    apply (IH2 input _ _ _ _ _ Hinput') in Hk1 as (w2 & rest & cs2 & -> & Hden2 & Hk).
    exists (w1 +:+ w2), rest, (cs1 ++ cs2).
    rewrite !length_append in *. rewrite append_assoc, app_assoc, Nat.add_assoc.
    split; [done|]. split; [|done]. by exists w1, w2, cs1, cs2.
  - intros (w & rest & cs & -> & Hden & Hk)%(IH1 input pre); [|done].
    exists w, rest, (cs ++ [w]). split; [done|]. split; [by exists cs|].
    rewrite app_assoc. rewrite <- Hk. do 3 f_equal.
    subst input. replace (String.length pre + String.length w - String.length pre)
      with (String.length w) by lia.
    rewrite <- (Nat.add_0_r (String.length pre)), substring_skip.
    by rewrite substring_prefix.
Qed.

(** The matcher finds a result whenever the pattern can be read in a way
    that the continuation accepts. *)
Lemma match_re_complete {R} r : ∀ input pre w rest cs caps
    (k : nat → string → list string → option R) res,
  input = pre +:+ w +:+ rest →
  den r (String.length pre) w rest cs →
  k (String.length pre + String.length w) rest (caps ++ cs) = Some res →
  is_Some (match_re input r (String.length pre) (w +:+ rest) caps k).
Proof.
  induction r as [a|l|a|a| | |r1 IH1 r2 IH2|r1 IH1];
    intros input pre w rest cs caps k res Hinput; simpl.
  - intros [(c & -> & Hc) ->]. rewrite app_nil_r, Nat.add_1_r.
    rewrite append_cons, append_nil_l, Hc. by eexists.
  - intros [-> ->]. rewrite app_nil_r, strip_prefix_append. by eexists.
  - intros [[->|(c & -> & Hc)] ->]; rewrite app_nil_r.
    + rewrite Nat.add_0_r, append_nil_l. intros Hk.
      destruct rest as [|c rest]; [by eexists|].
      destruct (atom_matches a c); [|by eexists].
      destruct (k (S (String.length pre)) rest caps); by eexists.
    + rewrite Nat.add_1_r, append_cons, append_nil_l, Hc. intros ->. by eexists.
  - intros (Hne & Hw & ->). rewrite app_nil_r.
    destruct w as [|c w]; [done|]. simpl in Hw. apply andb_true_iff in Hw as [Hc Hw].
    rewrite append_cons, Hc. simpl. rewrite Nat.add_succ_r. intros Hk.
    by apply (match_star_complete a _ w rest (λ p t, k p t caps) res).
  - intros (-> & -> & ->). rewrite app_nil_r, append_nil_l. by eexists.
  - intros (-> & -> & ->). rewrite app_nil_r, Nat.add_0_r. by eexists.
  - intros (w1 & w2 & cs1 & cs2 & -> & Hden1 & Hden2 & ->) Hk.
    rewrite length_append, Nat.add_assoc, <- length_append, app_assoc in Hk.
    rewrite <- length_append in Hden2.
    assert (Hinput' : input = (pre +:+ w1) +:+ w2 +:+ rest)
      by by rewrite Hinput, !append_assoc.
    destruct (IH2 input _ _ _ _ _ _ _ Hinput' Hden2 Hk) as [res' Hres'].
    rewrite length_append in Hres'. rewrite append_assoc.
    apply (IH1 input pre w1 (w2 +:+ rest) cs1 caps _ res'); [|done|done].
    by rewrite Hinput, !append_assoc.
  - intros (cs1 & Hden & ->) Hk.
    eapply (IH1 input pre w rest cs1 caps); [done|done|].
    rewrite app_assoc in Hk. rewrite <- Hk. do 3 f_equal.
    subst input. replace (String.length pre + String.length w - String.length pre)
      with (String.length w) by lia.
    rewrite <- (Nat.add_0_r (String.length pre)), substring_skip.
    by rewrite substring_prefix.
Qed.

(** [exec] returns a match when, and only when, the pattern can be read
    somewhere in the input. *)
Lemma search_sound r : ∀ input pre s m,
  input = pre +:+ s →
  search input r (String.length pre) s = Some m →
  ∃ skip w rest,
    s = skip +:+ w +:+ rest ∧
    den r (String.length pre + String.length skip) w rest (m_groups m) ∧
    m_index m = String.length pre + String.length skip.
Proof.
  intros input pre s. revert pre.
  induction s as [|c s IH]; intros pre m Hinput.
  - simpl. destruct (match_re _ _ _ _ _ _) as [m'|] eqn:Hm; [|done].
    intros [= ->].
    apply (match_re_sound r input pre "" [] _ _ Hinput) in Hm
      as (w & rest & cs & Hs & Hden & [= <-]).
    exists "", w, rest. rewrite Nat.add_0_r. by repeat split.
  - rewrite search_cons.
    destruct (match_re _ _ _ _ _ _) as [m'|] eqn:Hm.
    + intros [= ->].
      apply (match_re_sound r input pre _ [] _ _ Hinput) in Hm
        as (w & rest & cs & Hs & Hden & [= <-]).
      exists "", w, rest. rewrite Nat.add_0_r. by repeat split.
    + intros Hsearch.
      assert (Hinput' : input = (pre +:+ String c "") +:+ s)
        by by rewrite append_snoc.
      rewrite <- length_snoc with (c := c) in Hsearch.
      apply (IH _ _ Hinput') in Hsearch as (skip & w & rest & -> & Hden & Hidx).
      rewrite length_snoc in Hden, Hidx.
      exists (String c skip), w, rest. simpl. rewrite Nat.add_succ_r.
      by repeat split.
Qed.

Lemma match_re_index r input pre s m :
  input = pre +:+ s →
  match_re input r (String.length pre) s []
    (λ p _ cs, Some {| m_index := String.length pre; m_end := p; m_groups := cs |}) = Some m →
  m_index m = String.length pre.
Proof.
  intros Hinput Hm.
  by apply (match_re_sound r input pre s [] _ _ Hinput) in Hm as (? & ? & ? & _ & _ & [= <-]).
Qed.

Lemma search_complete r : ∀ input pre skip w rest cs,
  input = pre +:+ skip +:+ w +:+ rest →
  den r (String.length pre + String.length skip) w rest cs →
  ∃ m, search input r (String.length pre) (skip +:+ w +:+ rest) = Some m ∧
       m_index m ≤ String.length pre + String.length skip.
Proof.
  intros input pre skip. revert pre.
  induction skip as [|c skip IH]; intros pre w rest cs Hinput Hden.
  - rewrite Nat.add_0_r in Hden. rewrite append_nil_l in *.
    destruct (match_re_complete r input pre w rest cs []
                (λ p _ cs', Some {| m_index := String.length pre; m_end := p; m_groups := cs' |})
                _ Hinput Hden eq_refl) as [m Hm].
    exists m. rewrite (match_re_index r input pre _ m Hinput Hm).
    split; [|simpl; lia].
    destruct (w +:+ rest) as [|c s] eqn:Hs.
    + simpl. by rewrite Hm.
    + by rewrite search_cons, Hm.
  - rewrite append_cons, search_cons.
    destruct (match_re _ _ _ _ _ _) as [m|] eqn:Hm.
    + exists m. split; [done|].
      rewrite (match_re_index r input pre _ m) by (by rewrite <- ?append_cons). lia.
    + rewrite <- length_snoc with (c := c).
      destruct (IH (pre +:+ String c "") w rest cs) as (m & Hs & Hidx).
      * by rewrite append_snoc.
      * rewrite length_snoc. simpl in Hden. by rewrite Nat.add_succ_r in Hden.
      * exists m. split; [done|]. rewrite length_snoc in Hidx. simpl. lia.
Qed.

(** How [/([^/]+\/[^/]+)\/pull\/(\d+)$/] reads a text. *)
Lemma den_pull_request pos w rest cs :
  den re_pull_request pos w rest cs →
  ∃ owner repo number,
    w = owner +:+ "/" +:+ repo +:+ "/pull/" +:+ number ∧ rest = "" ∧
    cs = [owner +:+ "/" +:+ repo; number] ∧
    segment owner ∧ segment repo ∧ digits number.
Proof.
  unfold re_pull_request. cbn [den].
  intros (w1 & w2 & cs1 & cs2 & -> & (cs1' & Hg1 & ->) & Htail & ->).
  destruct Hg1 as (owner & t & c1 & c2 & -> & (Ho1 & Ho2 & ->) & Hslash & ->).
  destruct Hslash as (x & repo & c3 & c4 & -> & [(c & -> & Hc) ->] & (Hr1 & Hr2 & ->) & ->).
  destruct Htail as (l & r & c5 & c6 & -> & [-> ->] & Hnum & ->).
  destruct Hnum as (number & e & c7 & c8 & -> & (c9 & (Hn1 & Hn2 & ->) & ->)
                    & (-> & -> & ->) & ->).
  simpl in Hc. apply Ascii.eqb_eq in Hc as ->.
  exists owner, repo, number. rewrite append_nil_r, !append_assoc.
  by repeat split.
Qed.

Lemma pull_request_den pos owner repo number :
  segment owner → segment repo → digits number →
  den re_pull_request pos (owner +:+ "/" +:+ repo +:+ "/pull/" +:+ number) ""
    [owner +:+ "/" +:+ repo; number].
Proof.
  intros [Ho1 Ho2] [Hr1 Hr2] [Hn1 Hn2]. unfold re_pull_request. cbn [den].
  exists (owner +:+ "/" +:+ repo), ("/pull/" +:+ number), [owner +:+ "/" +:+ repo], [number].
  split; [by rewrite !append_assoc|]. split; [|split; [|done]].
  - exists []. split; [|done].
    exists owner, ("/" +:+ repo), [], []. split; [done|]. split; [done|]. split; [|done].
    exists "/", repo, [], []. split; [done|]. split; [|done].
    split; [|done]. by exists "/"%char.
  - exists "/pull/", number, [], [number]. split; [done|]. split; [done|]. split; [|done].
    exists number, "", [number], []. rewrite append_nil_r. split; [done|].
    split; [|done]. by exists [].
Qed.

Lemma all_match_append a x y :
  all_match a (x +:+ y) = all_match a x && all_match a y.
Proof.
  induction x as [|c x IH]; [done|].
  rewrite append_cons. simpl. by rewrite IH, andb_assoc.
Qed.

Lemma digits_no_slash s : all_match ADigit s = true → all_match (ANotChar "/") s = true.
Proof.
  induction s as [|c s IH]; [done|]. simpl.
  intros [Hc Hs]%andb_true_iff. rewrite (IH Hs), andb_true_r.
  destruct (Ascii.eqb_spec c "/") as [->|]; [done|done].
Qed.

(** A text is cut at its last [/] in one way only. *)
Lemma append_slash_inj x a y b :
  all_match (ANotChar "/") a = true → all_match (ANotChar "/") b = true →
  x +:+ "/" +:+ a = y +:+ "/" +:+ b → x = y ∧ a = b.
Proof.
  intros Ha Hb. revert y. induction x as [|c x IH]; intros [|d y];
    rewrite ?append_cons, ?append_nil_l.
  - by intros [= ->].
  - intros [= <- ->]. rewrite all_match_append in Ha. simpl in Ha.
    by rewrite andb_false_r in Ha.
  - intros [= -> <-]. rewrite all_match_append in Hb. simpl in Hb.
    by rewrite andb_false_r in Hb.
  - intros [= -> Heq]. rewrite <- (append_nil_l b), <- (append_cons "/" "" b) in Heq.
    rewrite <- (append_nil_l a), <- (append_cons "/" "" a) in Heq.
    by destruct (IH _ Heq) as [-> ->].
Qed.

Lemma append_eq_prefix a b c d :
  a +:+ b = c +:+ d → String.length a ≤ String.length c →
  ∃ x, c = a +:+ x ∧ b = x +:+ d.
Proof.
  revert c. induction a as [|e a IH]; intros c Heq Hlen.
  { exists c. by rewrite append_nil_l in *. }
  destruct c as [|f c]; [simpl in Hlen; lia|].
  rewrite !append_cons in Heq. injection Heq as -> Heq.
  destruct (IH c Heq) as (x & -> & ->); [simpl in Hlen; lia|].
  by exists x.
Qed.

Lemma suffix_after_slash p q x :
  p +:+ "/" = q +:+ x → x ≠ "" → all_match (ANotChar "/") x = false.
Proof.
  revert q. induction p as [|c p IH]; intros [|d q];
    rewrite ?append_cons, ?append_nil_l.
  - by intros <-.
  - intros [= <- Heq] Hx. destruct q; [|done].
    by rewrite append_nil_l in Heq.
  - intros <- _. simpl.
    by rewrite all_match_append, andb_false_r, andb_false_r.
  - intros [= -> Heq]. by apply (IH q).
Qed.

(** [exec] of the pull request pattern: it matches exactly the texts that
    end in [<owner>/<repo>/pull/<number>], and the groups are
    [<owner>/<repo>] and [<number>]. *)
Lemma exec_pull_request_sound url m :
  exec re_pull_request url = Some m →
  ∃ pre owner repo number,
    url = pre +:+ owner +:+ "/" +:+ repo +:+ "/pull/" +:+ number ∧
    m_groups m = [owner +:+ "/" +:+ repo; number] ∧
    m_index m = String.length pre ∧
    segment owner ∧ segment repo ∧ digits number.
Proof.
  intros (skip & w & rest & -> & Hden & Hidx)%(search_sound _ url "" url); [|done].
  apply den_pull_request in Hden as (owner & repo & number & -> & -> & Hcs & Ho & Hr & Hn).
  exists skip, owner, repo, number. rewrite ?append_assoc, ?append_nil_r.
  simpl in Hidx. by split_and!.
Qed.

Lemma exec_pull_request_complete pre owner repo number :
  segment owner → segment repo → digits number →
  (pre = "" ∨ ∃ pre', pre = pre' +:+ "/") →
  ∃ m, exec re_pull_request (pre +:+ owner +:+ "/" +:+ repo +:+ "/pull/" +:+ number) = Some m ∧
       m_groups m = [owner +:+ "/" +:+ repo; number].
Proof.
  intros Ho Hr Hn Hpre.
  set (w := owner +:+ "/" +:+ repo +:+ "/pull/" +:+ number).
  destruct (search_complete re_pull_request (pre +:+ w +:+ "") "" pre w ""
              [owner +:+ "/" +:+ repo; number] eq_refl
              (pull_request_den _ owner repo number Ho Hr Hn)) as (m & Hm & Hidx).
  rewrite append_nil_r in Hm. exists m. split; [exact Hm|].
  apply exec_pull_request_sound in Hm
    as (pre' & owner' & repo' & number' & Heq & -> & Hidx' & Ho' & Hr' & Hn').
  rewrite Hidx' in Hidx. simpl in Hidx. unfold w in Heq.
  (* cut both readings at the last slash, three times *)
  assert (H1 : (pre +:+ owner +:+ "/" +:+ repo +:+ "/pull") +:+ "/" +:+ number =
               (pre' +:+ owner' +:+ "/" +:+ repo' +:+ "/pull") +:+ "/" +:+ number').
  { rewrite !append_assoc. exact Heq. }
  apply append_slash_inj in H1 as [H1 <-];
    [|apply digits_no_slash, Hn|apply digits_no_slash, Hn'].
  assert (H2 : (pre +:+ owner +:+ "/" +:+ repo) +:+ "/" +:+ "pull" =
               (pre' +:+ owner' +:+ "/" +:+ repo') +:+ "/" +:+ "pull").
  { rewrite !append_assoc. exact H1. }
  apply append_slash_inj in H2 as [H2 _]; [|done|done].
  assert (H3 : (pre +:+ owner) +:+ "/" +:+ repo = (pre' +:+ owner') +:+ "/" +:+ repo').
  { rewrite !append_assoc. exact H2. }
  apply append_slash_inj in H3 as [H3 <-]; [|apply Hr|apply Hr'].
  (* the match found is the leftmost one, so it takes the whole owner *)
  symmetry in H3. apply append_eq_prefix in H3 as (x & -> & ->); [|done].
  destruct x as [|c x]; [by rewrite append_nil_l|].
  exfalso. destruct Ho' as [_ Ho']. rewrite all_match_append in Ho'.
  apply andb_true_iff in Ho' as [Hx _].
  destruct Hpre as [Hpre|[q Hpre]].
  - by destruct pre'.
  - by rewrite (suffix_after_slash q pre' (String c x)) in Hx.
Qed.

Lemma exec_pull_request_None url :
  exec re_pull_request url = None ↔
  ¬ ∃ pre owner repo number,
      url = pre +:+ owner +:+ "/" +:+ repo +:+ "/pull/" +:+ number ∧
      segment owner ∧ segment repo ∧ digits number.
Proof.
  split.
  - intros Hnone (pre & owner & repo & number & -> & Ho & Hr & Hn).
    set (w := owner +:+ "/" +:+ repo +:+ "/pull/" +:+ number) in *.
    destruct (search_complete re_pull_request (pre +:+ w +:+ "") "" pre w ""
                [owner +:+ "/" +:+ repo; number] eq_refl
                (pull_request_den _ owner repo number Ho Hr Hn)) as (m & Hm & _).
    rewrite append_nil_r in Hm. unfold exec in Hnone.
    change (String.length "") with 0 in Hm. congruence.
  - intros Hno. destruct (exec re_pull_request url) as [m|] eqn:Hm; [|done].
    destruct Hno.
    apply exec_pull_request_sound in Hm
      as (pre & owner & repo & number & -> & _ & _ & Ho & Hr & Hn).
    by exists pre, owner, repo, number.
Qed.

Lemma replace_trailing_newline s :
  replace re_trailing_newline s "" = chomp s.
Proof. exact (cut_trailing_newline "" s). Qed.

End regex_facts.

(** ** The [directories] handler *)
Section prune_facts.

(** After the iterations for the indices [i-1 .. 0] the first [i]
    entries are filtered and the others are as they were. *)
Lemma prune_take i (stats : list dirent) :
  i ≤ length stats →
  RP.prune i stats = Some (filter kept (take i stats) ++ drop i stats).
Proof.
  revert stats. induction i as [|j IH]; intros stats Hi.
  { simpl. by rewrite drop_0. }
  destruct (lookup_lt_is_Some_2 stats j) as [[name d] Hj]; [lia|].
  change (RP.prune (S j) stats) with
    (match stats !! j with
     | Some (name, _) =>
         if RP.excluded name then RP.prune j (delete j stats) else RP.prune j stats
     | None => None
     end).
  rewrite Hj, (take_S_r _ _ _ Hj), filter_app.
  destruct (RP.excluded name) eqn:Hx.
  - rewrite IH by (rewrite length_delete; [lia|eauto]).
    rewrite delete_take_drop.
    rewrite take_app_length' by (rewrite length_take; lia).
    rewrite drop_app_length' by (rewrite length_take; lia).
    rewrite (filter_cons_False kept) by (unfold kept; simpl; congruence).
    by rewrite filter_nil, app_nil_r.
  - rewrite IH by lia.
    rewrite (filter_cons_True kept) by done.
    rewrite filter_nil, <- app_assoc. simpl.
    by rewrite (drop_S _ _ _ Hj).
Qed.

Lemma prune_filter (stats : list dirent) :
  RP.prune (length stats) stats = Some (filter kept stats).
Proof.
  rewrite prune_take by done.
  by rewrite firstn_all, drop_all, app_nil_r.
Qed.

End prune_facts.

(** ** The walk *)
Section walk_facts.
Context (env : Env) (toolbelt : Toolbelt).

Lemma path_of_snoc names name :
  RP.path_of toolbelt (names ++ [name]) =
  RP.path_of toolbelt names +:+ path.sep +:+ name.
Proof. unfold RP.path_of. by rewrite foldl_app. Qed.

Lemma descend_app visit root l1 l2 st :
  RP.descend visit root (l1 ++ l2) st =
  RP.descend visit root l1 st ≫= RP.descend visit root l2.
Proof.
  revert st. induction l1 as [|[name d] l1 IH]; intros st; simpl; [done|].
  destruct (visit _ d st) as [st'|]; simpl; [apply IH|done].
Qed.

Lemma visits_Dir names errs files dirs :
  RP.visits names (Dir errs files dirs) =
  (names, Dir errs files dirs) :: RP.visits_below names dirs.
Proof. reflexivity. Qed.

Lemma visits_below_cons names name d l :
  RP.visits_below names ((name, d) :: l) =
  RP.visits_below names l ++
  (if RP.excluded name then [] else RP.visits (names ++ [name]) d).
Proof. reflexivity. Qed.

Lemma height_child errs files dirs name d :
  (name, d) ∈ dirs → height d < height (Dir errs files dirs).
Proof.
  simpl. induction dirs as [|[name' d'] dirs IH]; intros Hin.
  { by apply elem_of_nil in Hin. }
  apply elem_of_cons in Hin as [[= <- <-]|Hin]; [lia|].
  specialize (IH Hin). lia.
Qed.

Lemma height_pos node : 0 < height node.
Proof. destruct node; simpl; lia. Qed.

(** The walker's pass over the subdirectories, given that each of them
    is walked as [visits] says. *)
Lemma descend_visits (visit : string → fsnode → RP.state → option RP.state) names l :
  (∀ name d st, (name, d) ∈ l →
     visit (RP.path_of toolbelt (names ++ [name])) d st =
     Some (foldl (RP.handle env toolbelt) st (RP.visits (names ++ [name]) d))) →
  ∀ st,
    RP.descend visit (RP.path_of toolbelt names) (reverse (filter kept l)) st =
    Some (foldl (RP.handle env toolbelt) st (RP.visits_below names l)).
Proof.
  induction l as [|[name d] l IH]; intros Hvisit st; [done|].
  rewrite visits_below_cons, foldl_app.
  assert (Hrest := IH (λ n d' st' Hin, Hvisit n d' st' (list_elem_of_further _ _ _ Hin))).
  destruct (RP.excluded name) eqn:Hx.
  - rewrite (filter_cons_False kept) by (unfold kept; simpl; congruence).
    by rewrite Hrest.
  - rewrite (filter_cons_True kept) by done.
    rewrite reverse_cons, descend_app, Hrest. simpl.
    rewrite <- path_of_snoc, Hvisit by apply list_elem_of_here.
    done.
Qed.

(** With fuel for the whole depth of the tree the walker comes back, and
    what it has done is what the handlers do, directory by directory, in
    the order of [visits]. *)
Lemma walk_visits fuel names node st :
  height node ≤ fuel →
  RP.walk env toolbelt fuel (RP.path_of toolbelt names) node st =
  Some (foldl (RP.handle env toolbelt) st (RP.visits names node)).
Proof.
  revert names node st. induction fuel as [|fuel IH]; intros names node st Hfuel.
  { pose proof (height_pos node). lia. }
  destruct node as [errs files dirs].
  rewrite visits_Dir. simpl foldl. unfold RP.handle at 2. cbn [fst snd].
  set (root := RP.path_of toolbelt names).
  set (st1 := match files with [] => _ | _ => _ end).
  assert (Hbelow : ∀ st',
    RP.descend (RP.walk env toolbelt fuel) root (reverse (filter kept dirs)) st' =
    Some (foldl (RP.handle env toolbelt) st' (RP.visits_below names dirs))).
  { apply descend_visits. intros name d st' Hin. apply IH.
    pose proof (height_child errs files dirs name d Hin). lia. }
  simpl RP.walk. fold root. fold st1.
  destruct dirs as [|d0 dirs'].
  - simpl. done.
  - unfold RP.on_directories. rewrite prune_filter. simpl. apply Hbelow.
Qed.

Lemma walked_visits o :
  RP.walked env toolbelt o =
  Some (foldl (RP.handle env toolbelt) (RP.initial o) (RP.visits [] (tree env))).
Proof. unfold RP.walked. by apply (walk_visits _ []). Qed.

End walk_facts.

(** ** The handlers, one directory at a time *)
Section handle_facts.
Context (env : Env) (toolbelt : Toolbelt).

#[local] Abbreviation handle := (RP.handle env toolbelt).
#[local] Abbreviation path_of := (RP.path_of toolbelt).
#[local] Abbreviation prepared := (RP.prepared env).
#[local] Abbreviation roots_of := (RP.roots_of toolbelt).

Lemma roots_of_app vs1 vs2 : roots_of (vs1 ++ vs2) = roots_of vs1 ++ roots_of vs2.
Proof. unfold RP.roots_of. by rewrite List.filter_app, List.map_app. Qed.

Lemma set_contentRoot_frame o o' root :
  Opts.frame o o' → Opts.set_contentRoot root o' = Opts.set_contentRoot root o.
Proof. intros (H1 & H2 & H3). unfold Opts.set_contentRoot. by rewrite H1, H2, H3. Qed.

Lemma frame_set_contentRoot o root : Opts.frame o (Opts.set_contentRoot root o).
Proof. done. Qed.

Lemma frame_refl o : Opts.frame o o.
Proof. done. Qed.

(** A directory without the marker file: only the trace grows, by a
    [Readdir] and log lines. *)
Lemma handle_plain st v :
  RP.has_marker v = false →
  let st' := handle st v in
  readdirs (RP.trace st') = readdirs (RP.trace st) ++ [path_of v.1] ∧
  prepare_calls (RP.trace st') = prepare_calls (RP.trace st) ∧
  RP.opts st' = RP.opts st ∧
  RP.atLeastOne st' = RP.atLeastOne st ∧
  RP.allSuccessful st' = RP.allSuccessful st ∧
  RP.submittedSomething st' = RP.submittedSomething st ∧
  RP.contentIDMap st' = RP.contentIDMap st.
Proof.
  destruct v as [names [errs files dirs]]. unfold RP.has_marker, handle. cbn [fst snd].
  intros Hm. unfold RP.on_files. rewrite Hm.
  unfold readdirs, prepare_calls.
  destruct errs, files, dirs; simpl;
    rewrite ?omap_app; simpl; rewrite ?app_nil_r; done.
Qed.

(** A content root: [opts.contentRoot] is set, the preparer is called
    with the shared [opts], and its answer is folded into the closure
    variables. *)
Lemma handle_root st v :
  RP.has_marker v = true →
  let root := path_of v.1 in
  let o' := Opts.set_contentRoot root (RP.opts st) in
  let st' := handle st v in
  readdirs (RP.trace st') = readdirs (RP.trace st) ++ [root] ∧
  prepare_calls (RP.trace st') = prepare_calls (RP.trace st) ++ [o'] ∧
  RP.opts st' = o' ∧
  RP.atLeastOne st' = true ∧
  RP.allSuccessful st' =
    RP.allSuccessful st && negb (RP.unsuccessful (prepare env o')) ∧
  RP.submittedSomething st' =
    RP.submittedSomething st || RP.did_submit (prepare env o') ∧
  RP.contentIDMap st' =
    match RP.submitted (prepare env o') with
    | Some contentIDBase =>
        Obj.set (path.relative (workspacePath toolbelt) root) contentIDBase (RP.contentIDMap st)
    | None => RP.contentIDMap st
    end.
Proof.
  destruct v as [names [errs files dirs]]. unfold RP.has_marker, handle. cbn [fst snd].
  intros Hm. unfold RP.on_files. rewrite Hm.
  assert (Hfiles : files ≠ []) by (intros ->; done).
  unfold RP.did_submit, RP.submitted, RP.unsuccessful, readdirs, prepare_calls.
  destruct errs, files as [|f files], dirs; try done; simpl;
    (destruct (prepare env _) as [err|[success did cid]]; simpl;
     [|destruct did; simpl]);
    rewrite ?omap_app; simpl; rewrite ?app_nil_r, ?andb_false_r, ?orb_false_r, ?orb_true_r, ?negb_involutive;
    repeat split; try done; by rewrite <- ?app_assoc.
Qed.

(** The closure variables after the handlers have run for the
    directories [vs], in terms of the content roots among them. *)
Lemma fold_handle o st0 vs :
  Opts.frame o (RP.opts st0) →
  let st := foldl handle st0 vs in
  let rs := roots_of vs in
  Opts.frame o (RP.opts st) ∧
  readdirs (RP.trace st) = readdirs (RP.trace st0) ++ List.map (λ v, path_of v.1) vs ∧
  prepare_calls (RP.trace st) =
    prepare_calls (RP.trace st0) ++ List.map (λ r, Opts.set_contentRoot r o) rs ∧
  RP.opts st =
    match last rs with
    | Some r => Opts.set_contentRoot r o
    | None => RP.opts st0
    end ∧
  RP.atLeastOne st = RP.atLeastOne st0 || existsb (λ _, true) rs ∧
  RP.allSuccessful st =
    RP.allSuccessful st0 && forallb (λ r, negb (RP.unsuccessful (prepared o r))) rs ∧
  RP.submittedSomething st =
    RP.submittedSomething st0 || existsb (λ r, RP.did_submit (prepared o r)) rs ∧
  RP.contentIDMap st = foldl (RP.record_root env toolbelt o) (RP.contentIDMap st0) rs.
Proof.
  intros Hframe. induction vs as [|v vs IH] using rev_ind.
  { simpl. rewrite !app_nil_r, !orb_false_r, !andb_true_r. done. }
  cbv zeta in *. rewrite foldl_app, roots_of_app, List.map_app. simpl foldl.
  destruct IH as (IHf & IHrd & IHpc & IHo & IHa & IHs & IHsub & IHm).
  set (st := foldl handle st0 vs) in *.
  destruct (RP.has_marker v) eqn:Hv.
  - destruct (handle_root st v Hv) as (Hrd & Hpc & Ho & Ha & Hs & Hsub & Hm).
    rewrite (set_contentRoot_frame o _ _ IHf) in *.
    assert (Hrs : roots_of [v] = [path_of v.1]).
    { unfold RP.roots_of. simpl. by rewrite Hv. }
    rewrite Hrs, last_snoc, List.map_app, !existsb_app, forallb_app, foldl_app.
    rewrite Hrd, Hpc, Ho, Ha, Hs, Hsub, Hm, IHrd, IHpc, IHs, IHsub, IHm.
    simpl. rewrite ?orb_true_r, ?andb_true_r, ?orb_false_r, <- ?app_assoc, ?andb_assoc, ?orb_assoc.
    repeat split; try done.
  - destruct (handle_plain st v Hv) as (Hrd & Hpc & Ho & Ha & Hs & Hsub & Hm).
    assert (Hrs : roots_of [v] = []).
    { unfold RP.roots_of. simpl. by rewrite Hv. }
    rewrite Hrs, !app_nil_r.
    rewrite Hrd, Hpc, Ho, Ha, Hs, Hsub, Hm, IHrd.
    simpl. rewrite <- !app_assoc.
    repeat split; try done; by destruct IHf as (? & ? & ?).
Qed.

End handle_facts.

(** ** Which directories the walker reads *)
Section visits_facts.

Lemma fsnode_children_ind (P : fsnode → Prop) :
  (∀ errs files dirs, (∀ name d, (name, d) ∈ dirs → P d) → P (Dir errs files dirs)) →
  ∀ t, P t.
Proof.
  intros Hstep t. remember (height t) as n eqn:Hn. revert t Hn.
  induction n as [n IH] using lt_wf_ind. intros [errs files dirs] ->.
  apply Hstep. intros name d Hin.
  apply (IH (height d)); [|done].
  by apply (height_child errs files dirs name d).
Qed.

Lemma elem_of_visits_below x pre dirs :
  x ∈ RP.visits_below pre dirs ↔
  ∃ name d, (name, d) ∈ dirs ∧ RP.excluded name = false ∧
            x ∈ RP.visits (pre ++ [name]) d.
Proof.
  induction dirs as [|[name d] dirs IH].
  { split; [by intros ?%elem_of_nil|]. intros (? & ? & ?%elem_of_nil & _). done. }
  rewrite visits_below_cons, elem_of_app, IH. split.
  - intros [(n & d' & Hin & Hx & Hv)|Hv].
    + exists n, d'. split; [by apply list_elem_of_further|done].
    + destruct (RP.excluded name) eqn:Hx; [by apply elem_of_nil in Hv|].
      exists name, d. split; [apply list_elem_of_here|done].
  - intros (n & d' & Hin & Hx & Hv).
    apply elem_of_cons in Hin as [[= -> ->]|Hin].
    + right. by rewrite Hx.
    + left. by exists n, d'.
Qed.

(** The walker reads exactly the directories that are reached from the
    workspace through names that are not excluded. *)
Lemma elem_of_visits t : ∀ pre names' node,
  (names', node) ∈ RP.visits pre t ↔
  ∃ names, names' = pre ++ names ∧ at_path t names node ∧
           Forall (λ name, RP.excluded name = false) names.
Proof.
  induction t as [errs files dirs IH] using fsnode_children_ind.
  intros pre names' node. rewrite visits_Dir, elem_of_cons, elem_of_visits_below.
  split.
  - intros [[= -> ->]|(name & d & Hin & Hx & Hv)].
    + exists []. rewrite app_nil_r. repeat split; [constructor|constructor].
    + apply (IH name d Hin) in Hv as (names & -> & Hat & Hok).
      exists (name :: names). rewrite <- app_assoc. repeat split.
      * by econstructor.
      * by constructor.
  - intros (names & -> & Hat & Hok).
    inversion Hat as [|? ? ? name d rest ? Hin Hrest]; subst.
    + left. by rewrite app_nil_r.
    + right. apply Forall_cons in Hok as [Hx Hok].
      exists name, d. repeat split; [done..|].
      apply (IH name d Hin). exists rest. by rewrite <- app_assoc.
Qed.

Lemma excluded_spec name :
  RP.excluded name = true ↔
  (∃ rest, name = String "." rest) ∨ name = "_build" ∨ name = "_site".
Proof.
  unfold RP.excluded. rewrite !orb_true_iff, !String.eqb_eq, test_dotfile.
  split.
  - intros [[H|H]|H]; [|by auto..].
    destruct name as [|c rest]; [done|].
    apply Ascii.eqb_eq in H as ->. left. by exists rest.
  - intros [[rest ->]|[H|H]]; [|by auto..].
    by left; left.
Qed.

End visits_facts.

(** ** [recursivelyPrepare] as a whole *)
Section recursivelyPrepare_facts.
Context (env : Env) (toolbelt : Toolbelt).

#[local] Abbreviation discovered := (RP.discovered env toolbelt).
#[local] Abbreviation prepared := (RP.prepared env).

Lemma forallb_false {A} (f : A → bool) l :
  forallb f l = false ↔ ∃ x, x ∈ l ∧ f x = false.
Proof.
  induction l as [|a l IH]; simpl.
  { split; [done|]. by intros (? & ?%elem_of_nil & _). }
  rewrite andb_false_iff, IH. split.
  - intros [Ha|(x & Hx & Hfx)].
    + exists a. split; [apply list_elem_of_here|done].
    + exists x. split; [by apply list_elem_of_further|done].
  - intros (x & Hx & Hfx). apply elem_of_cons in Hx as [->|Hx]; eauto.
Qed.

Lemma existsb_true {A} (f : A → bool) l :
  existsb f l = true ↔ ∃ x, x ∈ l ∧ f x = true.
Proof.
  rewrite existsb_exists. by setoid_rewrite list_elem_of_In.
Qed.

Lemma unsuccessful_spec r :
  RP.unsuccessful r = true ↔
  (∃ err, r = Failed err) ∨
  (∃ results, r = Returned results ∧ Results.success results = false).
Proof.
  destruct r as [err|results]; simpl.
  - split; [eauto|done].
  - rewrite negb_true_iff. split; [eauto|].
    by intros [[? [=]]|(? & [= <-] & ?)].
Qed.

(** The walker comes back, and the closure variables are then
    determined by the content roots and the preparer's answers. *)
Lemma walked_summary o :
  ∃ st, RP.walked env toolbelt o = Some st ∧
    readdirs (RP.trace st) =
      List.map (λ v, RP.path_of toolbelt v.1) (RP.visits [] (tree env)) ∧
    prepare_calls (RP.trace st) =
      List.map (λ root, Opts.set_contentRoot root o) discovered ∧
    RP.opts st =
      match last discovered with
      | Some root => Opts.set_contentRoot root o
      | None => o
      end ∧
    RP.atLeastOne st = existsb (λ _, true) discovered ∧
    RP.allSuccessful st =
      forallb (λ root, negb (RP.unsuccessful (prepared o root))) discovered ∧
    RP.submittedSomething st =
      existsb (λ root, RP.did_submit (prepared o root)) discovered ∧
    RP.contentIDMap st = foldl (RP.record_root env toolbelt o) ∅ discovered.
Proof.
  eexists. split; [apply walked_visits|].
  destruct (fold_handle env toolbelt o (RP.initial o) (RP.visits [] (tree env))
              (frame_refl o)) as (_ & Hrd & Hpc & Ho & Ha & Hs & Hsub & Hm).
  by repeat split.
Qed.

(** What the [end] handler makes of the closure variables. *)
Lemma recursivelyPrepare_walked o st :
  RP.walked env toolbelt o = Some st →
  ∃ logs,
    prepare_calls logs = [] ∧
    RP.recursivelyPrepare env toolbelt o =
    Some (if RP.allSuccessful st
          then RP.Completed {| RP.didSomething := RP.atLeastOne st;
                               RP.res_submittedSomething := RP.submittedSomething st;
                               RP.res_contentIDMap := RP.contentIDMap st |}
          else RP.Unsuccessful "At least one preparer terminated unsuccessfully." true,
          RP.opts st, RP.trace st ++ logs).
Proof.
  intros Hw. unfold RP.recursivelyPrepare, RP.on_end. rewrite Hw.
  destruct st as [[] [] sub m op tr]; simpl;
    rewrite <- ?app_assoc; eexists; (split; [|reflexivity]); done.
Qed.

End recursivelyPrepare_facts.

(** ** Claims about [recursivelyPrepare] *)
Section recursivelyPrepare_claims.
Context (env : Env) (toolbelt : Toolbelt).

(** C2.  A preparer that fails, or that reports [success = false], turns
    [allSuccessful] off and nothing else: the preparer is still called
    once for every content root of the workspace, in the order of
    discovery, whatever the answers are; [allSuccessful] is false at the
    end exactly when some root's preparation failed or was reported
    unsuccessful; and the error is handed to the callback by the [end]
    handler, after the last preparer call. *)
Theorem C2_failure_recorded_walk_continues (o : Opts.t) :
  ∃ st logs,
    RP.walked env toolbelt o = Some st ∧
    prepare_calls (RP.trace st) =
      List.map (λ root, Opts.set_contentRoot root o) (RP.discovered env toolbelt) ∧
    (RP.allSuccessful st = false ↔
     ∃ root, root ∈ RP.discovered env toolbelt ∧
       ((∃ err, RP.prepared env o root = Failed err) ∨
        (∃ results, RP.prepared env o root = Returned results ∧
                    Results.success results = false))) ∧
    prepare_calls logs = [] ∧
    RP.recursivelyPrepare env toolbelt o =
      Some (if RP.allSuccessful st
            then RP.Completed {| RP.didSomething := RP.atLeastOne st;
                                 RP.res_submittedSomething := RP.submittedSomething st;
                                 RP.res_contentIDMap := RP.contentIDMap st |}
            else RP.Unsuccessful "At least one preparer terminated unsuccessfully." true,
            RP.opts st, RP.trace st ++ logs).
Proof.
  destruct (walked_summary env toolbelt o) as (st & Hw & _ & Hpc & _ & _ & Hs & _).
  destruct (recursivelyPrepare_walked env toolbelt o st Hw) as (logs & Hlogs & Hrp).
  exists st, logs. repeat split; try done.
  - rewrite Hs, forallb_false. intros (root & Hin & Hbad).
    exists root. split; [done|]. apply unsuccessful_spec. by apply negb_false_iff.
  - rewrite Hs, forallb_false. intros (root & Hin & Hbad).
    exists root. split; [done|]. apply negb_false_iff. by apply unsuccessful_spec.
Qed.

(** C4.  The [directories] handler takes every entry whose name starts
    with a dot or is [_build] or [_site] out of the array before the walker
    descends, and leaves the other entries in place and in order.  So the
    directories the walker reads are exactly those reached from the
    workspace through names that are not excluded; a directory below
    [.git], [.hidden], [_build] or [_site] is never read and never
    prepared, with or without a marker file. *)
Theorem C4_excluded_directories_never_visited (o : Opts.t) :
  (∀ name, RP.excluded name = true ↔
           (∃ rest, name = String "." rest) ∨ name = "_build" ∨ name = "_site") ∧
  (∀ root stats st,
     RP.on_directories root stats st =
     Some (filter (λ d, RP.excluded d.1 = false) stats,
           RP.emit (Log LDebug "Traversing directories: %s" [AStr root]) st)) ∧
  (∀ names node,
     (names, node) ∈ RP.visits [] (tree env) ↔
     at_path (tree env) names node ∧ Forall (λ name, RP.excluded name = false) names) ∧
  ∃ st,
    RP.walked env toolbelt o = Some st ∧
    readdirs (RP.trace st) =
      List.map (λ v, RP.path_of toolbelt v.1) (RP.visits [] (tree env)) ∧
    prepare_calls (RP.trace st) =
      List.map (λ v, Opts.set_contentRoot (RP.path_of toolbelt v.1) o)
        (List.filter RP.has_marker (RP.visits [] (tree env))).
Proof.
  split; [apply excluded_spec|]. split.
  { intros root stats st. unfold RP.on_directories.
    rewrite prune_filter. done. }
  split.
  { intros names node. rewrite elem_of_visits. split.
    - by intros (names' & -> & ? & ?).
    - intros [? ?]. by exists names. }
  destruct (walked_summary env toolbelt o) as (st & Hw & Hrd & Hpc & _).
  exists st. repeat split; [done..|].
  rewrite Hpc. unfold RP.discovered, RP.roots_of. by rewrite List.map_map.
Qed.

(** C9.  When the preparation of at least one root fails or is reported
    unsuccessful, the callback of [recursivelyPrepare] gets the error and
    [true] as second argument; the map of content IDs that the roots
    prepared with success have filled stays in the closure. *)
Theorem C9_error_discards_aggregate (o : Opts.t) :
  (∃ root, root ∈ RP.discovered env toolbelt ∧
           RP.unsuccessful (RP.prepared env o root) = true) →
  ∃ st logs,
    RP.walked env toolbelt o = Some st ∧
    RP.contentIDMap st =
      foldl (RP.record_root env toolbelt o) ∅ (RP.discovered env toolbelt) ∧
    RP.recursivelyPrepare env toolbelt o =
      Some (RP.Unsuccessful "At least one preparer terminated unsuccessfully." true,
            RP.opts st, RP.trace st ++ logs).
Proof.
  intros (root & Hin & Hbad).
  destruct (walked_summary env toolbelt o) as (st & Hw & _ & _ & _ & _ & Hs & _ & Hm).
  destruct (recursivelyPrepare_walked env toolbelt o st Hw) as (logs & _ & Hrp).
  exists st, logs. repeat split; [done..|].
  assert (Hfalse : RP.allSuccessful st = false).
  { rewrite Hs. apply forallb_false. exists root. by rewrite Hbad. }
  by rewrite Hfalse in Hrp.
Qed.

(** C10.  [recursivelyPrepare] writes the current root into the
    [contentRoot] field of the caller's [opts] before each preparer call:
    every call sees the one [opts] object with its own root in
    [contentRoot] and the caller's values in the other fields, and when the
    walk is over the caller's object holds the root prepared last, or is
    as it was when no root was found; the other fields are never written. *)
Theorem C10_opts_mutated_in_place (o : Opts.t) :
  ∃ out o' tr,
    RP.recursivelyPrepare env toolbelt o = Some (out, o', tr) ∧
    prepare_calls tr =
      List.map (λ root, {| Opts.revisionID := Opts.revisionID o;
                           Opts.contentServiceURL := Opts.contentServiceURL o;
                           Opts.contentServiceAPIKey := Opts.contentServiceAPIKey o;
                           Opts.contentRoot := Some root |})
        (RP.discovered env toolbelt) ∧
    Opts.contentRoot o' =
      match last (RP.discovered env toolbelt) with
      | Some root => Some root
      | None => Opts.contentRoot o
      end ∧
    Opts.revisionID o' = Opts.revisionID o ∧
    Opts.contentServiceURL o' = Opts.contentServiceURL o ∧
    Opts.contentServiceAPIKey o' = Opts.contentServiceAPIKey o.
Proof.
  destruct (walked_summary env toolbelt o) as (st & Hw & _ & Hpc & Ho & _).
  destruct (recursivelyPrepare_walked env toolbelt o st Hw) as (logs & Hlogs & Hrp).
  eexists _, _, _. split; [exact Hrp|].
  unfold prepare_calls in *. rewrite omap_app, Hlogs, app_nil_r, Hpc, Ho.
  split; [done|]. by destruct (last _).
Qed.

End recursivelyPrepare_claims.

(** ** Directory trees and their paths *)


Section path_facts.

Lemma split_nonempty s : path.split s ≠ [].
Proof.
  destruct s as [|c s]; simpl; [done|].
  destruct (Ascii.eqb c "/"); [done|]. by destruct (path.split s).
Qed.

Lemma split_append a b :
  path.split (a +:+ path.sep +:+ b) = path.split a ++ path.split b.
Proof.
  induction a as [|c a IH].
  { done. }
  rewrite append_cons. simpl. rewrite IH.
  destruct (Ascii.eqb c "/"); [done|].
  pose proof (split_nonempty a). by destruct (path.split a).
Qed.

Lemma split_no_slash s : no_slash s = true → path.split s = [s].
Proof.
  induction s as [|c s IH]; simpl; [done|].
  intros [Hc Hs]%andb_true_iff. apply negb_true_iff in Hc.
  by rewrite Hc, (IH Hs).
Qed.

Lemma segments_append a b :
  path.segments (a +:+ path.sep +:+ b) = path.segments a ++ path.segments b.
Proof. unfold path.segments. by rewrite split_append, List.filter_app. Qed.

Lemma segments_name name : valid_name name = true → path.segments name = [name].
Proof.
  intros [Hne Hns]%andb_true_iff. unfold path.segments.
  rewrite (split_no_slash _ Hns). simpl. by rewrite Hne.
Qed.

Lemma segments_empty : path.segments "" = [].
Proof. done. Qed.

Lemma segments_concat names :
  forallb valid_name names = true →
  path.segments (String.concat path.sep names) = names.
Proof.
  induction names as [|name names IH]; [done|].
  intros [Hname Hnames]%andb_true_iff.
  destruct names as [|name' names'].
  { by apply segments_name. }
  change (String.concat path.sep (name :: name' :: names'))
    with (name +:+ path.sep +:+ String.concat path.sep (name' :: names')).
  by rewrite segments_append, segments_name, IH.
Qed.

Lemma drop_common_prefix l r : path.drop_common l (l ++ r) = ([], r).
Proof.
  induction l as [|x l IH]; simpl; [by destruct r|].
  by rewrite String.eqb_refl.
Qed.

Section with_toolbelt.
Context (toolbelt : Toolbelt).

Lemma segments_path_of names :
  forallb valid_name names = true →
  path.segments (RP.path_of toolbelt names) =
  path.segments (workspacePath toolbelt) ++ names.
Proof.
  induction names as [|name names IH] using rev_ind; intros Hv.
  { by rewrite app_nil_r. }
  rewrite forallb_app in Hv. apply andb_true_iff in Hv as [Hnames Hname].
  cbn [forallb] in Hname. rewrite andb_true_r in Hname.
  rewrite path_of_snoc, segments_append.
  rewrite (IH Hnames), (segments_name _ Hname).
  by rewrite app_assoc.
Qed.

(** Relative to the workspace, the path of a directory is its chain of
    names joined by [/]. *)
Lemma relative_path_of names :
  forallb valid_name names = true →
  path.relative (workspacePath toolbelt) (RP.path_of toolbelt names) =
  String.concat path.sep names.
Proof.
  intros Hv. unfold path.relative.
  by rewrite segments_path_of, drop_common_prefix.
Qed.

Lemma relative_path_of_inj names1 names2 :
  forallb valid_name names1 = true → forallb valid_name names2 = true →
  path.relative (workspacePath toolbelt) (RP.path_of toolbelt names1) =
  path.relative (workspacePath toolbelt) (RP.path_of toolbelt names2) →
  names1 = names2.
Proof.
  intros H1 H2. rewrite !relative_path_of by done. intros Heq.
  by rewrite <- (segments_concat names1), <- (segments_concat names2), Heq.
Qed.

End with_toolbelt.
End path_facts.

(** ** Content roots have distinct keys *)
(** ** Objects as dictionaries *)
Section obj_facts.
Context {V : Type} {HV : Obj.Value V}.
Implicit Types (o : Obj.t V) (l : list (string * V)).

Lemma get_put_eq key v l : Obj.get key (Obj.put key v l) = Some v.
Proof.
  induction l as [|[k x] l IH]; simpl.
  - by rewrite String.eqb_refl.
  - destruct (String.eqb k key) eqn:Hk; simpl; rewrite Hk; [done|apply IH].
Qed.

Lemma get_put_ne key k v l : k ≠ key → Obj.get key (Obj.put k v l) = Obj.get key l.
Proof.
  intros Hne. induction l as [|[k' x] l IH]; simpl.
  - by apply String.eqb_neq in Hne as ->.
  - destruct (String.eqb k' k) eqn:Hk; simpl.
    + apply String.eqb_eq in Hk as ->. by apply String.eqb_neq in Hne as ->.
    + by rewrite IH.
Qed.

Lemma lookup_set_ne key k v o : k ≠ key → Obj.set k v o !! key = o !! key.
Proof.
  intros Hne. unfold Obj.set.
  destruct (String.eqb k "__proto__" && Obj.inherits_accessor o).
  - by destruct (Obj.kind_of v).
  - by apply get_put_ne.
Qed.

Lemma lookup_set_eq k v o : k ≠ "__proto__" → Obj.set k v o !! k = Some v.
Proof.
  intros Hne. unfold Obj.set. apply String.eqb_neq in Hne as ->.
  apply get_put_eq.
Qed.

Lemma lookup_set_proto v o :
  Obj.inherits_accessor o = true →
  Obj.set "__proto__" v o !! "__proto__" = o !! "__proto__".
Proof. intros Hacc. unfold Obj.set. rewrite Hacc. by destruct (Obj.kind_of v). Qed.

Lemma lookup_set_mono key k v o :
  is_Some (o !! key) → is_Some (Obj.set k v o !! key).
Proof.
  intros Hsome. destruct (decide (k = key)) as [->|Hne]; [|by rewrite lookup_set_ne].
  unfold Obj.set. destruct (String.eqb key "__proto__" && Obj.inherits_accessor o).
  - by destruct (Obj.kind_of v).
  - unfold lookup, Obj.lookup. cbn [Obj.entries]. rewrite get_put_eq. by eexists.
Qed.

Lemma inherits_set_ne k v o :
  k ≠ "__proto__" → Obj.inherits_accessor (Obj.set k v o) = Obj.inherits_accessor o.
Proof. intros Hne. unfold Obj.set. by apply String.eqb_neq in Hne as ->. Qed.

Lemma inherits_set_urls k (v : list string) (o : Obj.t (list string)) :
  Obj.inherits_accessor o = true → Obj.inherits_accessor (Obj.set k v o) = true.
Proof.
  intros Hacc. unfold Obj.set. rewrite Hacc.
  by destruct (String.eqb k "__proto__").
Qed.

Lemma keys_put key v l :
  (Obj.put key v l).*1 = if bool_decide (key ∈ l.*1) then l.*1 else l.*1 ++ [key].
Proof.
  induction l as [|[k x] l IH]; [done|]. cbn [Obj.put].
  destruct (String.eqb k key) eqn:Hk.
  - apply String.eqb_eq in Hk as ->. cbn [fmap list_fmap fst].
    rewrite bool_decide_eq_true_2; [done|]. apply list_elem_of_here.
  - apply String.eqb_neq in Hk. cbn [fmap list_fmap fst]. fold (fmap (M:=list) (@fst string V)).
    rewrite IH. destruct (bool_decide (key ∈ l.*1)) eqn:Hin.
    + rewrite bool_decide_eq_true_2; [done|].
      apply list_elem_of_further. by apply bool_decide_eq_true in Hin.
    + rewrite bool_decide_eq_false_2; [done|].
      apply bool_decide_eq_false in Hin. rewrite elem_of_cons. by intros [?|?].
Qed.

Lemma NoDup_put key v l : NoDup l.*1 → NoDup (Obj.put key v l).*1.
Proof.
  intros Hnd. rewrite keys_put. destruct (bool_decide (key ∈ l.*1)) eqn:Hin; [done|].
  apply bool_decide_eq_false in Hin. apply NoDup_app. split_and!; [done| |apply NoDup_singleton].
  intros k Hk ->%list_elem_of_singleton. done.
Qed.

Lemma NoDup_set k v o :
  NoDup (Obj.entries o).*1 → NoDup (Obj.entries (Obj.set k v o)).*1.
Proof.
  intros Hnd. unfold Obj.set.
  destruct (String.eqb k "__proto__" && Obj.inherits_accessor o).
  - by destruct (Obj.kind_of v).
  - by apply NoDup_put.
Qed.

Lemma elem_of_get key v l : Obj.get key l = Some v → (key, v) ∈ l.
Proof.
  induction l as [|[k x] l IH]; [done|]. cbn [Obj.get].
  destruct (String.eqb k key) eqn:Hk.
  - apply String.eqb_eq in Hk as ->. intros [= ->]. apply list_elem_of_here.
  - intros Hget. by apply list_elem_of_further, IH.
Qed.

Lemma get_elem_of key v l : NoDup l.*1 → (key, v) ∈ l → Obj.get key l = Some v.
Proof.
  induction l as [|[k x] l IH]; intros Hnd Hin; [by apply elem_of_nil in Hin|].
  rewrite fmap_cons in Hnd. apply NoDup_cons in Hnd as [Hk Hnd]. cbn [Obj.get].
  apply elem_of_cons in Hin as [[= <- <-]|Hin].
  - by rewrite String.eqb_refl.
  - destruct (String.eqb k key) eqn:Heq; [|by apply IH].
    apply String.eqb_eq in Heq as ->. destruct Hk.
    apply list_elem_of_fmap. by exists (key, v).
Qed.

Lemma get_is_Some key l : is_Some (Obj.get key l) ↔ key ∈ l.*1.
Proof.
  induction l as [|[k x] l IH]; cbn [Obj.get].
  - split; [by intros [? ?]|by intros ?%elem_of_nil].
  - rewrite fmap_cons, elem_of_cons. cbn [fst].
    destruct (String.eqb k key) eqn:Hk.
    + apply String.eqb_eq in Hk as ->. split; [by left|by eexists].
    + apply String.eqb_neq in Hk. rewrite IH. split; [by right|by intros [?|?]].
Qed.

Lemma filter_split {A} (p : A → bool) (l : list A) :
  List.filter p l ++ List.filter (λ x, negb (p x)) l ≡ₚ l.
Proof.
  induction l as [|x l IH]; [done|]. cbn [List.filter].
  destruct (p x); cbn [negb app].
  - by rewrite IH.
  - by rewrite <- Permutation_middle, IH.
Qed.

Lemma items_entries o : Obj.items o ≡ₚ Obj.entries o.
Proof.
  unfold Obj.items. rewrite merge_sort_Permutation.
  rewrite <- (filter_split (λ e : string * V, bool_decide (is_Some (Obj.array_index e.1)))
                (Obj.entries o)) at 3.
  apply Permutation_app.
  - apply reflexive_eq. induction (Obj.entries o) as [|e l IH]; [done|].
    cbn [omap list_omap List.filter]. destruct (Obj.array_index e.1) as [n|]; cbn.
    + by rewrite IH.
    + exact IH.
  - apply reflexive_eq. induction (Obj.entries o) as [|e l IH]; [done|].
    cbn [List.filter]. destruct (Obj.array_index e.1) as [n|]; cbn; by rewrite IH.
Qed.

Lemma elem_of_items k v o :
  NoDup (Obj.entries o).*1 → (k, v) ∈ Obj.items o ↔ o !! k = Some v.
Proof.
  intros Hnd. rewrite items_entries. split.
  - by apply get_elem_of.
  - apply elem_of_get.
Qed.

Lemma NoDup_keys o : NoDup (Obj.entries o).*1 → NoDup (Obj.keys o).
Proof. intros Hnd. unfold Obj.keys. by rewrite items_entries. Qed.

Lemma elem_of_keys k o : k ∈ Obj.keys o ↔ is_Some (o !! k).
Proof. unfold Obj.keys. rewrite items_entries. symmetry. apply get_is_Some. Qed.

Lemma length_keys o : length (Obj.keys o) = size o.
Proof.
  unfold Obj.keys. rewrite length_fmap.
  by rewrite (Permutation_length (items_entries o)).
Qed.

End obj_facts.

Section key_facts.
Context (env : Env) (toolbelt : Toolbelt).

Lemma well_formed_Dir errs files dirs :
  well_formed (Dir errs files dirs) = true ↔
  forallb valid_name dirs.*1 = true ∧ NoDup dirs.*1 ∧
  ∀ name d, (name, d) ∈ dirs → well_formed d = true.
Proof.
  simpl. rewrite !andb_true_iff, bool_decide_eq_true.
  assert (Hall :
    (fix all (l : list dirent) : bool :=
       match l with
       | [] => true
       | (_, d) :: l' => well_formed d && all l'
       end) dirs = true ↔
    ∀ name d, (name, d) ∈ dirs → well_formed d = true).
  { induction dirs as [|[name d] dirs IH].
    - split; [|done]. by intros _ ? ? ?%elem_of_nil.
    - rewrite andb_true_iff, IH. split.
      + intros [Hd Hds] name' d' [[= -> ->]|Hin]%elem_of_cons; eauto.
      + intros Hall. split; [apply (Hall name), list_elem_of_here|].
        intros name' d' Hin. apply (Hall name'). by apply list_elem_of_further. }
  rewrite Hall. tauto.
Qed.

Lemma well_formed_at_path t names node :
  at_path t names node → well_formed t = true →
  forallb valid_name names = true ∧ well_formed node = true.
Proof.
  induction 1 as [t|errs files dirs name d names t Hin Hat IH]; [done|].
  intros (Hvalid & _ & Hsub)%well_formed_Dir.
  destruct (IH (Hsub name d Hin)) as [Hnames Hnode]. split; [|done].
  simpl. rewrite Hnames, andb_true_r.
  rewrite forallb_forall in Hvalid. apply Hvalid, list_elem_of_In.
  apply list_elem_of_fmap. by exists (name, d).
Qed.

Lemma visits_chain t pre names node :
  (names, node) ∈ RP.visits pre t → ∃ rest, names = pre ++ rest.
Proof. intros (rest & -> & _)%elem_of_visits. by exists rest. Qed.

(** In a well-formed tree no chain of names is visited twice. *)
Lemma NoDup_visits t :
  well_formed t = true → ∀ pre, NoDup (RP.visits pre t).*1.
Proof.
  induction t as [errs files dirs IH] using fsnode_children_ind.
  intros (_ & Hnames & Hsub)%well_formed_Dir pre.
  rewrite visits_Dir, fmap_cons. cbn [fst]. apply NoDup_cons. split.
  - intros ([names node] & Heq & Hin)%list_elem_of_fmap. cbn [fst] in Heq. subst names.
    apply elem_of_visits_below in Hin as (name & d & _ & _ & Hin).
    apply visits_chain in Hin as [rest Heq].
    apply (f_equal length) in Heq. rewrite !length_app in Heq. simpl in Heq. lia.
  - clear errs files.
    induction dirs as [|[name d] dirs IHdirs]; [constructor|].
    rewrite visits_below_cons, fmap_app.
    rewrite fmap_cons in Hnames. cbn [fst] in Hnames.
    apply NoDup_cons in Hnames as [Hname Hnames].
    apply NoDup_app. split; [|split].
    + apply IHdirs; [|done|].
      * intros n d' Hin. apply (IH n). by apply list_elem_of_further.
      * intros n d' Hin. apply (Hsub n). by apply list_elem_of_further.
    + intros chain ([names node] & Heq & Hin)%list_elem_of_fmap.
      cbn [fst] in Heq. subst chain.
      apply elem_of_visits_below in Hin as (name' & d' & Hin' & _ & Hin).
      apply visits_chain in Hin as [rest ->].
      destruct (RP.excluded name); [by intros ?%elem_of_nil|].
      intros ([names2 node2] & Heq & Hin2)%list_elem_of_fmap. cbn [fst] in Heq.
      apply visits_chain in Hin2 as [rest2 ->].
      rewrite <- !app_assoc in Heq. apply app_inv_head in Heq. simpl in Heq.
      injection Heq as -> _. apply Hname.
      apply list_elem_of_fmap. by exists (name, d').
    + destruct (RP.excluded name); [constructor|].
      apply (IH name d); [apply list_elem_of_here|].
      apply (Hsub name), list_elem_of_here.
Qed.

Lemma sublist_filter {A} (f : A → bool) l : List.filter f l `sublist_of` l.
Proof.
  induction l as [|x l IH]; simpl; [constructor|].
  destruct (f x); by constructor.
Qed.

(** The keys under which the content roots of a well-formed tree are
    entered in [contentIDMap] are pairwise distinct. *)
Lemma NoDup_discovered_keys :
  well_formed (tree env) = true →
  NoDup (List.map (path.relative (workspacePath toolbelt)) (RP.discovered env toolbelt)).
Proof.
  intros Hwf. unfold RP.discovered, RP.roots_of. rewrite List.map_map.
  set (key := λ names, path.relative (workspacePath toolbelt) (RP.path_of toolbelt names)).
  assert (Hall : NoDup (key <$> (RP.visits [] (tree env)).*1)).
  { apply NoDup_fmap_2_strong; [|by apply NoDup_visits].
    intros names1 names2 ([? n1] & -> & H1)%list_elem_of_fmap
                         ([? n2] & -> & H2)%list_elem_of_fmap Heq.
    apply elem_of_visits in H1 as (? & -> & Hat1 & _).
    apply elem_of_visits in H2 as (? & -> & Hat2 & _).
    cbn [fst app] in *.
    apply (well_formed_at_path _ _ _ Hat1) in Hwf as Hv1.
    apply (well_formed_at_path _ _ _ Hat2) in Hwf as Hv2.
    by apply (relative_path_of_inj toolbelt); [apply Hv1|apply Hv2|]. }
  eapply sublist_NoDup; [exact Hall|].
  rewrite <- list_fmap_compose.
  change (List.map ?f ?l) with (f <$> l).
  apply fmap_sublist, sublist_filter.
Qed.

(** Reading [contentIDMap] after the roots [rs] have been recorded. *)
Lemma lookup_record_roots_fresh o rs m key :
  key ∉ List.map (path.relative (workspacePath toolbelt)) rs →
  foldl (RP.record_root env toolbelt o) m rs !! key = m !! key.
Proof.
  revert m. induction rs as [|r rs IH]; intros m Hkey; [done|].
  simpl in *. apply not_elem_of_cons in Hkey as [Hne Hkey].
  rewrite IH by done. unfold RP.record_root.
  destruct (RP.submitted _); [|done]. by rewrite lookup_set_ne.
Qed.

Lemma lookup_record_roots o rs m root :
  NoDup (List.map (path.relative (workspacePath toolbelt)) rs) →
  root ∈ rs →
  path.relative (workspacePath toolbelt) root ≠ "__proto__" →
  foldl (RP.record_root env toolbelt o) m rs !! path.relative (workspacePath toolbelt) root =
  match RP.submitted (RP.prepared env o root) with
  | Some contentIDBase => Some contentIDBase
  | None => m !! path.relative (workspacePath toolbelt) root
  end.
Proof.
  revert m. induction rs as [|r rs IH]; intros m Hnd Hin Hkey.
  { by apply elem_of_nil in Hin. }
  simpl in Hnd. apply NoDup_cons in Hnd as [Hr Hnd]. simpl.
  apply elem_of_cons in Hin as [->|Hin].
  - rewrite lookup_record_roots_fresh by done. unfold RP.record_root.
    destruct (RP.submitted _); [|done]. by rewrite lookup_set_eq.
  - rewrite IH by done. destruct (RP.submitted (RP.prepared env o root)); [done|].
    unfold RP.record_root. destruct (RP.submitted _); [|done].
    rewrite lookup_set_ne; [done|]. intros Heq. apply Hr. rewrite Heq.
    apply list_elem_of_fmap. by exists root.
Qed.

(** While the accessor is within reach and no two roots share a key, no
    property named [__proto__] comes into being. *)
Lemma lookup_record_roots_proto o rs : ∀ m,
  NoDup (List.map (path.relative (workspacePath toolbelt)) rs) →
  Obj.inherits_accessor m = true →
  foldl (RP.record_root env toolbelt o) m rs !! "__proto__" = m !! "__proto__".
Proof.
  induction rs as [|r rs IH]; intros m Hnd Hacc; [done|].
  simpl in Hnd. apply NoDup_cons in Hnd as [Hr Hnd]. simpl.
  destruct (decide (path.relative (workspacePath toolbelt) r = "__proto__")) as [Heq|Hne].
  - rewrite Heq in Hr. rewrite lookup_record_roots_fresh by done.
    unfold RP.record_root. destruct (RP.submitted _); [|done].
    rewrite Heq. by apply lookup_set_proto.
  - unfold RP.record_root. destruct (RP.submitted _) as [contentIDBase|]; [|by apply IH].
    rewrite IH; [by apply lookup_set_ne|done|].
    by rewrite inherits_set_ne.
Qed.

Lemma record_roots_keys o rs m key :
  is_Some (foldl (RP.record_root env toolbelt o) m rs !! key) →
  is_Some (m !! key) ∨
  ∃ root, root ∈ rs ∧ key = path.relative (workspacePath toolbelt) root ∧
          RP.did_submit (RP.prepared env o root) = true.
Proof.
  revert m. induction rs as [|r rs IH]; intros m Hsome; [by left|].
  simpl in Hsome. apply IH in Hsome as [Hsome|(root & Hin & -> & Hdid)].
  - unfold RP.record_root, RP.did_submit in *.
    destruct (RP.submitted (RP.prepared env o r)) eqn:Hsub; [|by left].
    destruct (decide (path.relative (workspacePath toolbelt) r = key)) as [<-|Hne].
    + right. exists r. rewrite Hsub. repeat split. apply list_elem_of_here.
    + left. by rewrite lookup_set_ne in Hsome.
  - right. exists root. split; [by apply list_elem_of_further|done].
Qed.

Lemma visited_names_valid names node :
  well_formed (tree env) = true →
  (names, node) ∈ RP.visits [] (tree env) → forallb valid_name names = true.
Proof.
  intros Hwf Hin. apply elem_of_visits in Hin as (rest & -> & Hat & _).
  by destruct (well_formed_at_path _ _ _ Hat Hwf) as [Hv _].
Qed.

Lemma elem_of_discovered root :
  root ∈ RP.discovered env toolbelt ↔
  ∃ names node, (names, node) ∈ RP.visits [] (tree env) ∧
                RP.has_marker (names, node) = true ∧
                root = RP.path_of toolbelt names.
Proof.
  unfold RP.discovered, RP.roots_of.
  rewrite list_elem_of_In, in_map_iff. split.
  - intros ([names node] & <- & Hin). apply filter_In in Hin as [Hin Hm].
    exists names, node. by rewrite list_elem_of_In.
  - intros (names & node & Hin & Hm & ->). exists (names, node).
    split; [done|]. apply filter_In. by rewrite <- list_elem_of_In.
Qed.

(** What [contentIDMap] holds for a content root, by the names that lead
    to it. *)
Lemma lookup_contentIDMap o names node :
  well_formed (tree env) = true →
  (names, node) ∈ RP.visits [] (tree env) → RP.has_marker (names, node) = true →
  foldl (RP.record_root env toolbelt o) ∅ (RP.discovered env toolbelt) !!
    String.concat path.sep names =
  if String.eqb (String.concat path.sep names) "__proto__" then None
  else RP.submitted (RP.prepared env o (RP.path_of toolbelt names)).
Proof.
  intros Hwf Hin Hm.
  destruct (String.eqb _ "__proto__") eqn:Hkey.
  - apply String.eqb_eq in Hkey. rewrite Hkey.
    by rewrite (lookup_record_roots_proto o _ ∅ (NoDup_discovered_keys Hwf)).
  - apply String.eqb_neq in Hkey.
    rewrite <- (relative_path_of toolbelt names (visited_names_valid _ _ Hwf Hin)) in Hkey |- *.
    rewrite (lookup_record_roots o _ ∅ _ (NoDup_discovered_keys Hwf)); [|by apply elem_of_discovered; eauto|done].
    by destruct (RP.submitted _).
Qed.

End key_facts.

(** ** Claim C3 *)
Section contentIDMap_claim.
Context (env : Env) (toolbelt : Toolbelt).

(** C3.  In a workspace whose directory names are file-system names, after
    the walk [contentIDMap] holds, under the names that lead from the
    workspace to a content root, joined with [/], the [contentIDBase] of
    that root's results when these came with [didSomething = true], and
    nothing when they did not or when the preparer failed, with one
    exception: under the name [__proto__] it holds nothing, also for a
    root that was submitted.  It holds no other keys, and
    [submittedSomething] is true exactly when some root's results had
    [didSomething = true].  These are the values the callback receives
    when every preparation was successful. *)
Theorem C3_contentIDMap_misses_proto (o : Opts.t) :
  well_formed (tree env) = true →
  ∃ st logs,
    RP.walked env toolbelt o = Some st ∧
    (∀ names node,
       (names, node) ∈ RP.visits [] (tree env) → RP.has_marker (names, node) = true →
       RP.contentIDMap st !! String.concat path.sep names =
       if String.eqb (String.concat path.sep names) "__proto__" then None
       else match RP.prepared env o (RP.path_of toolbelt names) with
            | Returned results =>
                if Results.didSomething results
                then Some (Results.contentIDBase results) else None
            | Failed _ => None
            end) ∧
    (∀ key, is_Some (RP.contentIDMap st !! key) →
       ∃ names node,
         (names, node) ∈ RP.visits [] (tree env) ∧ RP.has_marker (names, node) = true ∧
         key = String.concat path.sep names) ∧
    (RP.submittedSomething st = true ↔
     ∃ root results, root ∈ RP.discovered env toolbelt ∧
       RP.prepared env o root = Returned results ∧
       Results.didSomething results = true) ∧
    (RP.allSuccessful st = true →
     RP.recursivelyPrepare env toolbelt o =
       Some (RP.Completed {| RP.didSomething := RP.atLeastOne st;
                             RP.res_submittedSomething := RP.submittedSomething st;
                             RP.res_contentIDMap := RP.contentIDMap st |},
             RP.opts st, RP.trace st ++ logs)).
Proof.
  intros Hwf.
  destruct (walked_summary env toolbelt o) as (st & Hw & _ & _ & _ & _ & _ & Hsub & Hm).
  destruct (recursivelyPrepare_walked env toolbelt o st Hw) as (logs & _ & Hrp).
  exists st, logs. split; [done|]. split; [|split; [|split]].
  - intros names node Hin Hmark. rewrite Hm.
    rewrite (lookup_contentIDMap env toolbelt o names node Hwf Hin Hmark).
    destruct (String.eqb _ _); [done|]. unfold RP.submitted.
    destruct (RP.prepared env o _) as [err|results]; [done|].
    by destruct (Results.didSomething results).
  - intros key Hkey. rewrite Hm in Hkey.
    apply record_roots_keys in Hkey as [Hempty|(root & Hin & -> & _)].
    + by destruct Hempty.
    + apply elem_of_discovered in Hin as (names & node & Hin & Hmark & ->).
      exists names, node. split_and!; [done..|].
      apply relative_path_of. by apply (visited_names_valid env names node).
  - rewrite Hsub, existsb_true. unfold RP.did_submit, RP.submitted. split.
    + intros (root & Hin & Hdid).
      destruct (RP.prepared env o root) as [err|results] eqn:Hp; [done|].
      exists root, results. repeat split; [done..|].
      by destruct (Results.didSomething results).
    + intros (root & results & Hin & Hp & Hdid).
      exists root. split; [done|]. by rewrite Hp, Hdid.
  - intros Hall. by rewrite Hall in Hrp.
Qed.

End contentIDMap_claim.

(** ** What the walk leaves in the trace *)


Section trace_facts.
Context (env : Env) (toolbelt : Toolbelt).

Lemma local_projections tr :
  Forall (λ e, local e = true) tr →
  subprocesses tr = [] ∧ issued tr = [] ∧ revoked tr = [] ∧
  queried tr = [] ∧ comments tr = [].
Proof.
  induction 1 as [|e tr He _ IH]; [done|].
  destruct IH as (? & ? & ? & ? & ?).
  unfold subprocesses, issued, revoked, queried, comments in *.
  destruct e; try done; simpl; by repeat split.
Qed.

Lemma log_projections tr :
  Forall (λ e, is_log e = true) tr →
  Forall (λ e, local e = true) tr ∧ prepare_calls tr = [] ∧ readdirs tr = [].
Proof.
  induction 1 as [|e tr He _ (IH1 & IH2 & IH3)]; [done|].
  destruct e; try done. unfold prepare_calls, readdirs in *. simpl.
  repeat split; [|done..]. by constructor.
Qed.

Lemma handle_local st v :
  Forall (λ e, local e = true) (RP.trace st) →
  Forall (λ e, local e = true) (RP.trace (RP.handle env toolbelt st v)).
Proof.
  intros Hst. destruct v as [names [errs files dirs]].
  unfold RP.handle, RP.on_files, RP.on_errors. cbn [fst snd].
  destruct errs, files as [|f files], dirs; simpl;
    try (destruct (_ || _)%bool; simpl;
         [destruct (prepare env _) as [err|[success [] cid]]; simpl|]);
    rewrite ?Forall_app; repeat split; try done; by repeat constructor.
Qed.

Lemma fold_handle_local st vs :
  Forall (λ e, local e = true) (RP.trace st) →
  Forall (λ e, local e = true) (RP.trace (foldl (RP.handle env toolbelt) st vs)).
Proof.
  revert st. induction vs as [|v vs IH]; intros st Hst; [done|].
  simpl. by apply IH, handle_local.
Qed.

Lemma recursivelyPrepare_aggregate o :
  ∃ o' tr,
    RP.recursivelyPrepare env toolbelt o = Some (RP.aggregate env toolbelt o, o', tr) ∧
    Forall (λ e, local e = true) tr ∧
    prepare_calls tr =
      List.map (λ root, Opts.set_contentRoot root o) (RP.discovered env toolbelt).
Proof.
  destruct (walked_summary env toolbelt o)
    as (st & Hw & _ & Hpc & _ & Ha & Hs & Hsub & Hm).
  assert (Hlocal : Forall (λ e, local e = true) (RP.trace st)).
  { rewrite walked_visits in Hw. injection Hw as <-.
    by apply fold_handle_local. }
  unfold RP.recursivelyPrepare, RP.on_end, RP.aggregate. rewrite Hw.
  rewrite <- Hs, <- Ha, <- Hsub, <- Hm. clear Hs Ha Hsub Hm Hw.
  unfold prepare_calls in *.
  destruct st as [[] [] sub m op tr]; simpl in *;
    eexists _, _; (split; [reflexivity|]);
    rewrite ?Forall_app, ?omap_app, Hpc; simpl; rewrite ?app_nil_r;
    repeat split; try done; by repeat constructor.
Qed.

End trace_facts.

(** ** The pipeline *)
Section pipeline_facts.
Context (env : Env) (order : Arrival) (toolbelt : Toolbelt).

Lemma series_cons task tasks st :
  PR.series (task :: tasks) st =
  match task st with
  | Some (Some e, st') => Some (Some e, st')
  | Some (None, st') => PR.series tasks st'
  | None => None
  end.
Proof. simpl. by destruct (task st) as [[[e|] st']|]. Qed.

(** [invokePreparer] comes back, with the aggregate of the walk. *)
Lemma invokePreparer_aggregate st :
  let o := PR.preparer_opts toolbelt (PR.revisionID st) (PR.transientKey st) in
  ∃ tr,
    Forall (λ e, local e = true) tr ∧
    prepare_calls tr =
      List.map (λ root, Opts.set_contentRoot root o) (RP.discovered env toolbelt) ∧
    PR.invokePreparer env toolbelt st =
    Some (match RP.aggregate env toolbelt o with
          | RP.Unsuccessful err _ => (Some err, PR.emits tr st)
          | RP.Completed result => (None, PR.set_result result (PR.emits tr st))
          end).
Proof.
  intros o.
  destruct (recursivelyPrepare_aggregate env toolbelt o) as (o' & tr & Hrp & Hlocal & Hpc).
  exists (Log LDebug "Invoking preparer with revision ID [%s]."
            [AStr (PR.to_string (PR.revisionID st))] :: tr).
  split; [by constructor|]. split; [done|].
  unfold PR.invokePreparer. cbn [PR.emit PR.revisionID PR.transientKey].
  fold o. rewrite Hrp. cbn [mbind option_bind].
  unfold PR.emits, PR.set_result. simpl. rewrite <- !app_assoc.
  by destruct (RP.aggregate env toolbelt o).
Qed.

Lemma aggregate_unsuccessful o :
  (∃ root, root ∈ RP.discovered env toolbelt ∧
           RP.unsuccessful (RP.prepared env o root) = true) →
  RP.aggregate env toolbelt o =
  RP.Unsuccessful "At least one preparer terminated unsuccessfully." true.
Proof.
  intros (root & Hin & Hbad). unfold RP.aggregate.
  replace (forallb _ _) with false; [done|].
  symmetry. apply forallb_false. exists root. by rewrite Hbad.
Qed.

Lemma aggregate_successful o :
  (∀ root, root ∈ RP.discovered env toolbelt →
           RP.unsuccessful (RP.prepared env o root) = false) →
  RP.aggregate env toolbelt o =
  RP.Completed
    {| RP.didSomething := existsb (λ _, true) (RP.discovered env toolbelt);
       RP.res_submittedSomething :=
         existsb (λ root, RP.did_submit (RP.prepared env o root)) (RP.discovered env toolbelt);
       RP.res_contentIDMap :=
         foldl (RP.record_root env toolbelt o) ∅ (RP.discovered env toolbelt) |}.
Proof.
  intros Hok. unfold RP.aggregate.
  replace (forallb _ _) with true; [done|].
  symmetry. apply forallb_forall. intros root Hin%list_elem_of_In.
  by rewrite (Hok root Hin).
Qed.

(** The first task leaves everything but [revisionID] and the trace as
    it was, and adds log lines and at most the git call to the trace. *)
Lemma generateRevisionID_frame st :
  ∃ err st' new,
    PR.generateRevisionID env toolbelt st = Some (err, st') ∧
    PR.trace st' = PR.trace st ++ new ∧
    issued new = [] ∧ revoked new = [] ∧ queried new = [] ∧
    comments new = [] ∧ prepare_calls new = [] ∧
    PR.transientKey st' = PR.transientKey st ∧
    PR.contentIDMap st' = PR.contentIDMap st ∧
    PR.presentedURLMap st' = PR.presentedURLMap st ∧
    PR.submittedSomething st' = PR.submittedSomething st ∧
    PR.didSomething st' = PR.didSomething st.
Proof.
  unfold PR.generateRevisionID.
  destruct (PR.truthy _); [|destruct (exec_err _)];
    eexists _, _, _; (split; [reflexivity|]); simpl;
    rewrite <- ?app_assoc; (split; [reflexivity|]); done.
Qed.

End pipeline_facts.

(** Reduction of the accessors of the pipeline state, and nothing else. *)
Ltac pr_simpl :=
  cbn [PR.emit PR.emits PR.set_result PR.set_transientKey PR.set_revisionID
       PR.set_presentedURLMap PR.transientKey PR.revisionID PR.contentIDMap
       PR.presentedURLMap PR.submittedSomething PR.didSomething PR.trace
       PR.initial RP.didSomething RP.res_submittedSomething RP.res_contentIDMap].

(** ** Claims about [preparePullRequest] *)
Section pipeline_claims.
Context (env : Env) (order : Arrival) (toolbelt : Toolbelt).

(** C1 (as the code behaves).  When the transient key has been issued and
    the preparation of some content root fails or is reported
    unsuccessful, [invokePreparer] ends with an error, [async.series] stops
    there, and [revokeAPIKey] is not called at all: the run ends with the
    preparation error and the issued key is left unrevoked. *)
Theorem C1_revoke_skipped_when_preparation_fails (rev key : string) :
  PR.revision env toolbelt = Some rev →
  issueAPIKey (stagingContentService toolbelt) ("temporary-" +:+ rev) = Returned key →
  (∃ root, root ∈ RP.discovered env toolbelt ∧
     RP.unsuccessful
       (RP.prepared env (PR.preparer_opts toolbelt (Some rev) (Some key)) root) = true) →
  ∃ tr,
    PR.preparePullRequest env order toolbelt =
      Some (Failed "At least one preparer terminated unsuccessfully.", tr) ∧
    issued tr = ["temporary-" +:+ rev] ∧
    revoked tr = [].
Proof.
  intros Hrev Hissue Hbad. unfold PR.revision in Hrev.
  destruct (generateRevisionID_frame env toolbelt PR.initial)
    as (err & st1 & new & Hgen & Htr & Hi & Hr & _ & _ & _ & _).
  rewrite Hgen in Hrev. destruct err as [err|]; [done|].
  unfold PR.preparePullRequest, PR.pipeline.
  rewrite series_cons, Hgen, series_cons.
  unfold PR.issueTransientKey at 1. cbn [PR.emit PR.revisionID].
  rewrite Hrev. cbn [PR.to_string]. rewrite Hissue.
  rewrite series_cons.
  match goal with |- context [PR.invokePreparer env toolbelt ?st] =>
    destruct (invokePreparer_aggregate env toolbelt st) as (tr & Hlocal & _ & Hinv)
  end.
  rewrite Hinv. cbn [PR.set_transientKey PR.revisionID PR.transientKey PR.emit].
  rewrite Hrev, (aggregate_unsuccessful env toolbelt _ Hbad).
  cbn [mbind option_bind]. eexists. split; [reflexivity|].
  destruct (local_projections tr Hlocal) as (_ & Hti & Htr' & _).
  cbn [PR.emits PR.trace PR.set_transientKey PR.emit]. rewrite Htr. simpl.
  unfold issued, revoked in *. rewrite !omap_app, Hi, Hr, Hti, Htr'. done.
Qed.

(** C5.  With a mock SHA configured, [generateRevisionID] sets the
    revision ID to [build-] followed by the mock value and starts no
    subprocess.  Without one it runs [git rev-parse --short=10 HEAD] in the
    workspace, once; when git comes back without error the revision ID is
    [build-] followed by the output of git less its final line end, and
    when git comes back with an error the whole pipeline ends with that
    error, before any key is issued. *)
Theorem C5_revision_id_from_mock_or_git :
  (∀ sha, mockGitSHA (config toolbelt) = Some sha → sha ≠ "" →
     ∀ st, ∃ st',
       PR.generateRevisionID env toolbelt st = Some (None, st') ∧
       PR.revisionID st' = Some ("build-" +:+ sha) ∧
       subprocesses (PR.trace st') = subprocesses (PR.trace st)) ∧
  (PR.truthy (mockGitSHA (config toolbelt)) = false →
     let git := git_rev_parse env (workspacePath toolbelt) in
     (∀ st, ∃ st',
        PR.generateRevisionID env toolbelt st = Some (exec_err git, st') ∧
        subprocesses (PR.trace st') =
          subprocesses (PR.trace st) ++
          [("git", ["rev-parse"; "--short=10"; "HEAD"], workspacePath toolbelt)] ∧
        (exec_err git = None →
         PR.revisionID st' = Some ("build-" +:+ chomp (exec_stdout git)))) ∧
     (∀ err, exec_err git = Some err →
        ∃ tr, PR.preparePullRequest env order toolbelt = Some (Failed err, tr) ∧
              issued tr = [])).
Proof.
  split.
  - intros sha Hmock Hsha st. unfold PR.generateRevisionID.
    rewrite Hmock. cbn [PR.truthy PR.to_string].
    replace (String.eqb sha "") with false by (symmetry; by apply String.eqb_neq).
    eexists. split; [reflexivity|]. split; [done|].
    unfold subprocesses. simpl. by rewrite omap_app, app_nil_r.
  - intros Hmock git. split.
    + intros st. unfold PR.generateRevisionID. rewrite Hmock. fold git.
      destruct (exec_err git) as [err|] eqn:Herr;
        (eexists; split; [reflexivity|]); unfold subprocesses; simpl;
        rewrite !omap_app; simpl; rewrite ?app_nil_r; (split; [done|]); [done|].
      intros _. by rewrite replace_trailing_newline.
    + intros err Herr. unfold PR.preparePullRequest, PR.pipeline.
      rewrite series_cons. unfold PR.generateRevisionID. rewrite Hmock. fold git.
      rewrite Herr. simpl. eexists. split; [reflexivity|]. done.
Qed.

(** C6.  With a GitHub client, a presented URL map and something
    submitted, [commentOnGitHub] reads the pull request URL with the
    pattern.  A URL that ends in [<owner>/<repo>/pull/<number>], the owner
    being a whole path segment, gets one comment, posted to
    [<owner>/<repo>] for pull request [<number>], and the task ends as the
    posting ends; so [https://host/owner/repo/pull/42] gets one comment to
    [owner/repo], pull request [42].  A URL that does not end that way, as
    [https://host/owner/repo/commits/abc], is logged as wrong, nothing is
    posted, and the task ends without error. *)
Theorem C6_comment_posted_or_skipped (gh : GitHub)
    (presented : Obj.t (list string)) (st : PR.state) :
  github toolbelt = Some gh →
  PR.presentedURLMap st = Some presented →
  PR.submittedSomething st = true →
  let body := forSuccessfulBuild env presented in
  (∀ pre owner repo number,
     segment owner → segment repo → digits number →
     (pre = "" ∨ ∃ pre', pre = pre' +:+ "/") →
     pullRequestURL toolbelt = pre +:+ owner +:+ "/" +:+ repo +:+ "/pull/" +:+ number →
     ∃ st',
       PR.commentOnGitHub env toolbelt st =
         Some (postComment gh (owner +:+ "/" +:+ repo) number body, st') ∧
       comments (PR.trace st') =
         comments (PR.trace st) ++ [(owner +:+ "/" +:+ repo, number, body)]) ∧
  ((¬ ∃ pre owner repo number,
        pullRequestURL toolbelt = pre +:+ owner +:+ "/" +:+ repo +:+ "/pull/" +:+ number ∧
        segment owner ∧ segment repo ∧ digits number) →
     ∃ st',
       PR.commentOnGitHub env toolbelt st = Some (None, st') ∧
       comments (PR.trace st') = comments (PR.trace st) ∧
       Log LError "Unable to comment on GitHub: the pull request URL looks wrong." []
         ∈ PR.trace st') ∧
  (pullRequestURL toolbelt = "https://host/owner/repo/pull/42" →
     ∃ st',
       PR.commentOnGitHub env toolbelt st =
         Some (postComment gh "owner/repo" "42" body, st') ∧
       comments (PR.trace st') = comments (PR.trace st) ++ [("owner/repo", "42", body)]) ∧
  (pullRequestURL toolbelt = "https://host/owner/repo/commits/abc" →
     ∃ st',
       PR.commentOnGitHub env toolbelt st = Some (None, st') ∧
       comments (PR.trace st') = comments (PR.trace st) ∧
       Log LError "Unable to comment on GitHub: the pull request URL looks wrong." []
         ∈ PR.trace st').
Proof.
  intros Hgh Hmap Hsub body.
  assert (Hmatch : ∀ m, exec re_pull_request (pullRequestURL toolbelt) = Some m →
     ∃ st',
       PR.commentOnGitHub env toolbelt st =
         Some (postComment gh (nth 0 (m_groups m) "") (nth 1 (m_groups m) "") body, st') ∧
       comments (PR.trace st') =
         comments (PR.trace st) ++ [(nth 0 (m_groups m) "", nth 1 (m_groups m) "", body)]).
  { intros m Hm. unfold PR.commentOnGitHub. rewrite Hmap, Hsub, Hgh, Hm. cbn [negb].
    eexists. split; [reflexivity|]. unfold comments. simpl. by rewrite omap_app. }
  assert (Hnone : exec re_pull_request (pullRequestURL toolbelt) = None →
     ∃ st',
       PR.commentOnGitHub env toolbelt st = Some (None, st') ∧
       comments (PR.trace st') = comments (PR.trace st) ∧
       Log LError "Unable to comment on GitHub: the pull request URL looks wrong." []
         ∈ PR.trace st').
  { intros Hm. unfold PR.commentOnGitHub. rewrite Hmap, Hsub, Hgh, Hm. cbn [negb].
    eexists. split; [reflexivity|]. unfold comments. simpl.
    rewrite !omap_app. simpl. rewrite !app_nil_r. split; [done|].
    rewrite !elem_of_app, !list_elem_of_singleton. auto. }
  split_and!.
  - intros pre owner repo number Ho Hr Hn Hpre Hurl.
    destruct (exec_pull_request_complete pre owner repo number Ho Hr Hn Hpre)
      as (m & Hm & Hgroups).
    rewrite <- Hurl in Hm. apply Hmatch in Hm. by rewrite Hgroups in Hm.
  - intros Hno. by apply Hnone, exec_pull_request_None.
  - intros Hurl.
    apply (Hmatch {| m_index := 13; m_end := 31; m_groups := ["owner/repo"; "42"] |}).
    by rewrite Hurl.
  - intros Hurl. apply Hnone. by rewrite Hurl.
Qed.

(** C8.  Without a staging presenter the last task does nothing: the
    presented URL map is absent, so [commentOnGitHub] calls back at once,
    with no presenter query and no comment posted.  A run in which the
    revision ID is found, the key is issued, every content root is
    prepared with success, at least one root exists and the key is revoked
    then ends with [{ didSomething: true }]. *)
Theorem C8_no_presenter_run_succeeds (rev key : string) :
  stagingPresenter toolbelt = None →
  PR.revision env toolbelt = Some rev →
  issueAPIKey (stagingContentService toolbelt) ("temporary-" +:+ rev) = Returned key →
  (∀ root, root ∈ RP.discovered env toolbelt →
     RP.unsuccessful
       (RP.prepared env (PR.preparer_opts toolbelt (Some rev) (Some key)) root) = false) →
  RP.discovered env toolbelt ≠ [] →
  revokeAPIKey (stagingContentService toolbelt) (Some key) = None →
  (∀ st, PR.presentedURLMap st = None →
         PR.commentOnGitHub env toolbelt st = Some (None, st)) ∧
  ∃ tr,
    PR.preparePullRequest env order toolbelt =
      Some (Returned {| PR.pr_didSomething := true |}, tr) ∧
    queried tr = [] ∧ comments tr = [] ∧ revoked tr = [Some key].
Proof.
  intros Hpres Hrev Hissue Hok Hroots Hrevoke. split.
  { intros st Hnone. unfold PR.commentOnGitHub. by rewrite Hnone. }
  unfold PR.revision in Hrev.
  destruct (generateRevisionID_frame env toolbelt PR.initial)
    as (err & st1 & new & Hgen & Htr & _ & Hr & Hq & Hc & _ & _ & _ & Hpm & _).
  rewrite Hgen in Hrev. destruct err as [err|]; [done|].
  unfold PR.preparePullRequest, PR.pipeline.
  rewrite series_cons, Hgen, series_cons.
  unfold PR.issueTransientKey at 1. cbn [PR.emit PR.revisionID].
  rewrite Hrev. cbn [PR.to_string]. rewrite Hissue.
  rewrite series_cons.
  match goal with |- context [PR.invokePreparer env toolbelt ?st] =>
    destruct (invokePreparer_aggregate env toolbelt st) as (tr & Hlocal & _ & Hinv)
  end.
  rewrite Hinv. cbn [PR.set_transientKey PR.revisionID PR.transientKey PR.emit].
  rewrite Hrev, (aggregate_successful env toolbelt _ Hok).
  rewrite series_cons. unfold PR.revokeTransientKey at 1.
  pr_simpl. rewrite Hrevoke.
  rewrite series_cons. unfold PR.getPresentedURLMap at 1. rewrite Hpres.
  rewrite series_cons. unfold PR.commentOnGitHub at 1.
  pr_simpl. rewrite Hpm. pr_simpl.
  cbn [PR.series mbind option_bind].
  assert (Hsome : existsb (λ _ : string, true) (RP.discovered env toolbelt) = true).
  { by destruct (RP.discovered env toolbelt). }
  rewrite Hsome. eexists. split; [reflexivity|].
  destruct (local_projections tr Hlocal) as (_ & _ & Htr' & Htq & Htc).
  pr_simpl. rewrite Htr. simpl. unfold queried, comments, revoked in *.
  rewrite !omap_app, Hr, Hq, Hc, Htr', Htq, Htc. done.
Qed.

End pipeline_claims.

(** ** The presenter queries *)
Section presenter_facts.
Context (env : Env) (toolbelt : Toolbelt) (presenter : Presenter).

#[local] Abbreviation rstep :=
  (λ acc entry, PR.resolved env toolbelt presenter entry acc).
#[local] Abbreviation present := (PR.present env toolbelt presenter).
#[local] Abbreviation presented_urls := (PR.presented_urls env toolbelt).

Lemma resolved_step err st entry :
  let res := PR.resolved env toolbelt presenter entry (err, st) in
  queried (PR.trace res.2) = queried (PR.trace st) ∧
  comments (PR.trace res.2) = comments (PR.trace st) ∧
  PR.submittedSomething res.2 = PR.submittedSomething st ∧
  PR.didSomething res.2 = PR.didSomething st ∧
  (res.1 = None ↔ err = None ∧ ∃ paths, whereis presenter entry.2 = Returned paths) ∧
  (∀ e, res.1 = Some e → err = Some e ∨ whereis presenter entry.2 = Failed e) ∧
  (∀ pm, PR.presentedURLMap st = Some pm →
         PR.presentedURLMap res.2 = Some (present pm entry)).
Proof.
  destruct entry as [root cid]. unfold PR.resolved, PR.present, PR.presented_urls. cbn [fst snd].
  destruct (whereis presenter cid) as [e|paths]; cbn [fst snd].
  - repeat split; try done.
    + by destruct err.
    + by destruct err.
    + by intros [_ [? ?]].
    + intros e'. destruct err; intros [= <-]; auto.
  - pr_simpl. unfold queried, comments. rewrite !omap_app. simpl. rewrite !app_nil_r.
    repeat split; try done.
    + by eexists.
    + by intros [? _].
    + auto.
    + intros pm ->. done.
Qed.

Lemma resolved_fold l : ∀ err st,
  let res := foldl rstep (err, st) l in
  queried (PR.trace res.2) = queried (PR.trace st) ∧
  comments (PR.trace res.2) = comments (PR.trace st) ∧
  PR.submittedSomething res.2 = PR.submittedSomething st ∧
  PR.didSomething res.2 = PR.didSomething st ∧
  (res.1 = None ↔
   err = None ∧ ∀ entry, entry ∈ l → ∃ paths, whereis presenter entry.2 = Returned paths) ∧
  (∀ e, res.1 = Some e →
        err = Some e ∨ ∃ entry, entry ∈ l ∧ whereis presenter entry.2 = Failed e) ∧
  (∀ pm, PR.presentedURLMap st = Some pm →
         PR.presentedURLMap res.2 = Some (foldl present pm l)).
Proof.
  induction l as [|entry l IH]; intros err st.
  { cbn [foldl fst snd]. repeat split; try done; auto.
    - by intros ? ?%elem_of_nil.
    - by intros [? _]. }
  cbn [foldl].
  destruct (PR.resolved env toolbelt presenter entry (err, st)) as [err1 st1] eqn:Hstep.
  pose proof (resolved_step err st entry) as Hone. rewrite Hstep in Hone.
  cbn [fst snd] in Hone. destruct Hone as (Hq & Hc & Hs & Hd & Hnone & Hsome & Hpm).
  destruct (IH err1 st1) as (IHq & IHc & IHs & IHd & IHnone & IHsome & IHpm).
  cbv zeta. split_and!.
  - congruence.
  - congruence.
  - congruence.
  - congruence.
  - rewrite IHnone, Hnone. split.
    + intros [[-> Hentry] Hl]. split; [done|].
      intros entry' [->|Hin]%elem_of_cons; auto.
    + intros [-> Hl]. repeat split.
      * apply Hl, list_elem_of_here.
      * intros entry' Hin. by apply Hl, list_elem_of_further.
  - intros e [He|(entry' & Hin & He)]%IHsome.
    + apply Hsome in He as [He|He]; [by left|].
      right. exists entry. split; [apply list_elem_of_here|done].
    + right. exists entry'. split; [by apply list_elem_of_further|done].
  - intros pm Hst. by apply IHpm, Hpm.
Qed.

Lemma lookup_present_fresh l pm key :
  key ∉ l.*1 → foldl present pm l !! key = pm !! key.
Proof.
  revert pm. induction l as [|[root cid] l IH]; intros pm Hkey; [done|].
  rewrite fmap_cons in Hkey. apply not_elem_of_cons in Hkey as [Hne Hkey].
  cbn [foldl]. rewrite IH by done. unfold PR.present. cbn [fst snd].
  destruct (whereis presenter cid); [done|]. by rewrite lookup_set_ne.
Qed.

Lemma lookup_present l pm root cid paths :
  NoDup l.*1 → (root, cid) ∈ l → whereis presenter cid = Returned paths →
  root ≠ "__proto__" →
  foldl present pm l !! root = Some (presented_urls paths).
Proof.
  revert pm. induction l as [|[root' cid'] l IH]; intros pm Hnd Hin Hw Hne.
  { by apply elem_of_nil in Hin. }
  rewrite fmap_cons in Hnd. apply NoDup_cons in Hnd as [Hfresh Hnd].
  cbn [foldl]. apply elem_of_cons in Hin as [[= <- <-]|Hin].
  - rewrite lookup_present_fresh by done. unfold PR.present. cbn [fst snd].
    by rewrite Hw, lookup_set_eq.
  - by apply IH.
Qed.

(** An array assigned to [__proto__] becomes the prototype: the
    presented URL map never has a property of that name. *)
Lemma lookup_present_proto l : ∀ pm,
  Obj.inherits_accessor pm = true →
  foldl present pm l !! "__proto__" = pm !! "__proto__".
Proof.
  induction l as [|[root cid] l IH]; intros pm Hacc; [done|].
  cbn [foldl]. unfold PR.present at 2. cbn [fst snd].
  destruct (whereis presenter cid) as [e|paths]; [by apply IH|].
  rewrite IH by by apply inherits_set_urls.
  destruct (decide (root = "__proto__")) as [->|Hne].
  - by apply lookup_set_proto.
  - by apply lookup_set_ne.
Qed.

Lemma log_events_projections logs :
  Forall (λ e, is_log e = true) logs →
  issued logs = [] ∧ revoked logs = [] ∧ queried logs = [] ∧ comments logs = [].
Proof.
  intros Hlogs. apply log_projections in Hlogs as [Hlocal _].
  apply local_projections in Hlocal. tauto.
Qed.

Lemma resolved_fold_logs l : ∀ err st,
  ∃ logs,
    PR.trace (foldl (λ acc entry, PR.resolved env toolbelt presenter entry acc) (err, st) l).2 =
      PR.trace st ++ logs ∧
    Forall (λ e, is_log e = true) logs.
Proof.
  induction l as [|[root cid] l IH]; intros err st.
  { exists []. by rewrite app_nil_r. }
  cbn [foldl]. unfold PR.resolved at 2.
  destruct (whereis presenter cid) as [e|paths].
  - apply IH.
  - match goal with |- context [foldl _ (?err', ?st') l] =>
      destruct (IH err' st') as (logs & Htr & Hlogs) end.
    rewrite Htr. pr_simpl. rewrite <- app_assoc.
    eexists. split; [reflexivity|]. by constructor.
Qed.

(** Every answer is logged with its joined URLs. *)
Lemma resolved_fold_joined l : ∀ err st root cid paths,
  (root, cid) ∈ l → whereis presenter cid = Returned paths →
  ∃ logs,
    PR.trace (foldl rstep (err, st) l).2 = PR.trace st ++ logs ∧
    Log LDebug "Content root [%s] is mapped to the URL%s %s."
      [AStr root;
       AStr (if Nat.eqb (length (presented_urls paths)) 1 then "s" else "");
       AList (presented_urls paths)]
    ∈ logs.
Proof.
  induction l as [|[root' cid'] l IH]; intros err st root cid paths Hin Hw.
  { by apply elem_of_nil in Hin. }
  cbn [foldl]. apply elem_of_cons in Hin as [[= <- <-]|Hin].
  - unfold PR.resolved at 2. rewrite Hw.
    match goal with |- context [foldl _ (?err', ?st') l] =>
      destruct (resolved_fold_logs l err' st') as (logs & -> & _) end.
    pr_simpl. rewrite <- app_assoc. eexists. split; [reflexivity|].
    apply list_elem_of_here.
  - destruct (resolved_fold_logs [(root', cid')] err st) as (logs1 & Htr1 & _).
    cbn [foldl] in Htr1.
    destruct (PR.resolved env toolbelt presenter (root', cid') (err, st)) as [err1 st1].
    cbn [snd] in Htr1.
    destruct (IH err1 st1 root cid paths Hin Hw) as (logs & -> & Hlog).
    rewrite Htr1, <- app_assoc. eexists. split; [reflexivity|].
    rewrite elem_of_app. by right.
Qed.

End presenter_facts.

(** ** Claim C7 *)
Section presenter_claim.
Context (env : Env) (order : Arrival) (toolbelt : Toolbelt).

Lemma queried_whereis (l : list (string * option string)) :
  queried (List.map (λ entry, Whereis entry.2) l) = l.*2.
Proof.
  induction l as [|[root cid] l IH]; [done|].
  cbn [List.map]. unfold queried in *. cbn [omap list_omap snd fmap list_fmap].
  f_equal. exact IH.
Qed.

(** C7.  Without a presenter, or with nothing submitted,
    [getPresentedURLMap] ends without error, leaves the presented URL map
    as it is (absent) and asks the presenter nothing.  Otherwise it asks
    the presenter once for each entry of [contentIDMap]; it ends without
    error exactly when every query is answered, and then the presented URL
    map has, for each content root, the returned paths joined to the
    presenter URL, except under the name [__proto__], where it never has
    a property; an error it ends with is the error of a query that
    failed. *)
Theorem C7_presented_urls_resolved :
  (stagingPresenter toolbelt = None →
     ∀ st, ∃ st',
       PR.getPresentedURLMap env order toolbelt st = Some (None, st') ∧
       PR.presentedURLMap st' = PR.presentedURLMap st ∧
       queried (PR.trace st') = queried (PR.trace st)) ∧
  (∀ presenter st,
     stagingPresenter toolbelt = Some presenter →
     PR.submittedSomething st = false →
     PR.getPresentedURLMap env order toolbelt st = Some (None, st)) ∧
  (∀ presenter st m,
     stagingPresenter toolbelt = Some presenter →
     PR.submittedSomething st = true →
     PR.contentIDMap st = Some m →
     NoDup (Obj.entries m).*1 →
     ∃ err st' pm new,
       PR.getPresentedURLMap env order toolbelt st = Some (err, st') ∧
       PR.trace st' = PR.trace st ++ new ∧
       queried new ≡ₚ (Obj.entries m).*2 ∧
       (err = None ↔
        ∀ root cid, m !! root = Some cid →
                    ∃ paths, whereis presenter cid = Returned paths) ∧
       (∀ e, err = Some e →
             ∃ root cid, m !! root = Some cid ∧ whereis presenter cid = Failed e) ∧
       (∀ root cid paths,
          m !! root = Some cid → whereis presenter cid = Returned paths →
          let urls := List.map (urlJoin env (stagingPresenterURL (config toolbelt))) paths in
          Log LDebug "Content root [%s] is mapped to the URL%s %s."
            [AStr root; AStr (if Nat.eqb (length urls) 1 then "s" else ""); AList urls]
          ∈ new) ∧
       PR.presentedURLMap st' = Some pm ∧
       (∀ root cid paths,
          m !! root = Some cid → whereis presenter cid = Returned paths →
          root ≠ "__proto__" →
          pm !! root =
          Some (List.map (urlJoin env (stagingPresenterURL (config toolbelt))) paths)) ∧
       pm !! "__proto__" = None ∧
       (∀ root, m !! root = None → pm !! root = None)).
Proof.
  split; [|split].
  - intros Hnone st. unfold PR.getPresentedURLMap. rewrite Hnone.
    eexists. split; [reflexivity|]. split; [done|].
    unfold queried. simpl. by rewrite omap_app, app_nil_r.
  - intros presenter st Hsome Hsub. unfold PR.getPresentedURLMap.
    by rewrite Hsome, Hsub.
  - intros presenter st m Hsome Hsub Hm Hkeys. unfold PR.getPresentedURLMap.
    rewrite Hsome, Hsub. cbn [negb]. pr_simpl. rewrite Hm. cbn [default from_option id].
    set (entries := Obj.items m).
    set (st2 := PR.emits _ _).
    pose proof (resolved_fold env toolbelt presenter (order entries) None st2) as Hfold.
    destruct (resolved_fold_logs env toolbelt presenter (order entries) None st2)
      as (logs & Htr & Hlogs).
    cbv zeta in Hfold.
    destruct (foldl _ (None, st2) (order entries)) as [err st'] eqn:Hres.
    cbn [fst snd] in Hfold, Htr. destruct Hfold as (_ & _ & _ & _ & Hok & Herr & Hpm).
    assert (Hin : ∀ root cid, (root, cid) ∈ order entries ↔ m !! root = Some cid).
    { intros root cid. rewrite (arrival_perm order entries). by apply elem_of_items. }
    assert (Hnd : NoDup (order entries).*1).
    { rewrite (arrival_perm order entries). by apply NoDup_keys. }
    exists err, st', (foldl (PR.present env toolbelt presenter) ∅ (order entries)).
    eexists. split_and!.
    + done.
    + rewrite Htr. unfold st2. pr_simpl. by rewrite <- app_assoc.
    + destruct (log_events_projections logs Hlogs) as (_ & _ & Hlq & _).
      unfold queried in *. rewrite omap_app, Hlq, app_nil_r.
      fold (queried (List.map (λ entry : string * option string, Whereis entry.2) entries)).
      rewrite queried_whereis. unfold entries. by rewrite items_entries.
    + rewrite Hok. split.
      * intros [_ Hall] root cid Hlook. by apply (Hall (root, cid)), Hin.
      * intros Hall. split; [done|]. intros [root cid] Hentry. by apply (Hall root), Hin.
    + intros e [[=]|([root cid] & Hentry & Hfail)]%Herr.
      exists root, cid. split; [by apply Hin|done].
    + intros root cid paths Hlook Hw. cbv zeta.
      destruct (resolved_fold_joined env toolbelt presenter (order entries) None st2
                  root cid paths (proj2 (Hin root cid) Hlook) Hw) as (logs' & Htr' & Hlog).
      rewrite Hres in Htr'. cbn [snd] in Htr'. rewrite Htr in Htr'.
      apply app_inv_head in Htr' as ->.
      rewrite elem_of_app. by right.
    + by apply Hpm.
    + intros root cid paths Hlook Hw Hne.
      apply (lookup_present env toolbelt presenter _ _ root cid paths); [done| |done|done].
      by apply Hin.
    + by rewrite lookup_present_proto.
    + intros root Hlook. rewrite lookup_present_fresh; [done|].
      intros ([root' cid] & Heq & Hentry)%list_elem_of_fmap. cbn [fst] in Heq. subst root'.
      apply Hin in Hentry. congruence.
Qed.

End presenter_claim.

(** ** The run as a whole *)
Section run_facts.
Context (env : Env) (order : Arrival) (toolbelt : Toolbelt).

(** The last two tasks come back, and neither issues nor revokes a key. *)
Lemma getPresentedURLMap_frame st :
  ∃ err st',
    PR.getPresentedURLMap env order toolbelt st = Some (err, st') ∧
    issued (PR.trace st') = issued (PR.trace st) ∧
    revoked (PR.trace st') = revoked (PR.trace st).
Proof.
  unfold PR.getPresentedURLMap.
  destruct (stagingPresenter toolbelt) as [presenter|].
  - destruct (PR.submittedSomething st); cbn [negb].
    + match goal with |- context [foldl ?f (None, ?st2) ?l] =>
        destruct (resolved_fold_logs env toolbelt presenter l None st2) as (logs & Htr & Hlogs);
        destruct (foldl f (None, st2) l) as [err st'] eqn:Hres
      end.
      cbn [snd] in Htr. exists err, st'. split; [done|].
      destruct (log_events_projections logs Hlogs) as (Hi & Hr & _).
      rewrite Htr. pr_simpl. unfold issued, revoked in *.
      rewrite !omap_app, Hi, Hr, !app_nil_r.
      split; (rewrite <- (app_nil_r (omap _ (PR.trace st))) at 2; f_equal;
              generalize (Obj.items (default ∅ (PR.contentIDMap st)));
              intros l; by induction l).
    + by exists None, st.
  - eexists _, _. split; [reflexivity|]. pr_simpl.
    unfold issued, revoked. by rewrite !omap_app, !app_nil_r.
Qed.

Lemma trace_emit e st : PR.trace (PR.emit e st) = PR.trace st ++ [e].
Proof. done. Qed.

Lemma trace_emits evs st : PR.trace (PR.emits evs st) = PR.trace st ++ evs.
Proof. done. Qed.

Lemma log_lines {A} (f : A → event) l :
  (∀ x, is_log (f x) = true) → Forall (λ e, is_log e = true) (List.map f l).
Proof. intros Hf. induction l; by constructor. Qed.

Lemma commentOnGitHub_frame st :
  ∃ err st',
    PR.commentOnGitHub env toolbelt st = Some (err, st') ∧
    issued (PR.trace st') = issued (PR.trace st) ∧
    revoked (PR.trace st') = revoked (PR.trace st).
Proof.
  unfold PR.commentOnGitHub.
  destruct (PR.presentedURLMap st) as [presented|]; [|by exists None, st].
  destruct (PR.submittedSomething st); cbn [negb]; [|by exists None, st].
  destruct (github toolbelt) as [gh|].
  - destruct (exec _ _) as [m|]; eexists _, _; (split; [reflexivity|]); pr_simpl;
      unfold issued, revoked; by rewrite !omap_app, !app_nil_r.
  - eexists _, _. split; [reflexivity|].
    assert (Hshown : ∀ l : list string,
      let lines := List.map (λ contentRoot,
                     Log LInfo "* %s: %s"
                       [AStr contentRoot; AList (default [] (presented !! contentRoot))]) l in
      issued lines = [] ∧ revoked lines = []).
    { intros l lines.
      destruct (log_events_projections lines) as (Hi & Hr & _); [|done].
      by apply log_lines. }
    destruct (Obj.keys presented) as [|only [|second others]];
      rewrite ?trace_emits, ?trace_emit;
      unfold issued, revoked in *; rewrite !omap_app;
      rewrite ?(proj1 (Hshown _)), ?(proj2 (Hshown _)); simpl;
      by rewrite ?app_nil_r.
Qed.

(** Every run of the pipeline comes back to its caller. *)
Lemma preparePullRequest_returns :
  is_Some (PR.preparePullRequest env order toolbelt).
Proof.
  unfold PR.preparePullRequest, PR.pipeline.
  destruct (generateRevisionID_frame env toolbelt PR.initial)
    as ([e1|] & st1 & ? & Hgen & _); rewrite series_cons, Hgen; [by eexists|].
  rewrite series_cons. unfold PR.issueTransientKey at 1.
  destruct (issueAPIKey _ _); [by eexists|].
  rewrite series_cons.
  match goal with |- context [PR.invokePreparer env toolbelt ?st] =>
    destruct (invokePreparer_aggregate env toolbelt st) as (tr & _ & _ & Hinv)
  end.
  rewrite Hinv. destruct (RP.aggregate env toolbelt _); [by eexists|].
  rewrite series_cons. unfold PR.revokeTransientKey at 1.
  destruct (revokeAPIKey _ _); [by eexists|].
  rewrite series_cons.
  match goal with |- context [PR.getPresentedURLMap env order toolbelt ?st] =>
    destruct (getPresentedURLMap_frame st) as ([e5|] & st5 & Hget & _)
  end; rewrite Hget; [by eexists|].
  rewrite series_cons.
  destruct (commentOnGitHub_frame st5) as ([e6|] & st6 & Hc & _); rewrite Hc;
    by eexists.
Qed.

(** X3.  When every content root is prepared with success, the issued
    key is revoked, once, whatever the later tasks do. *)
Lemma revoked_once_after_successful_preparation (rev key : string) :
  PR.revision env toolbelt = Some rev →
  issueAPIKey (stagingContentService toolbelt) ("temporary-" +:+ rev) = Returned key →
  (∀ root, root ∈ RP.discovered env toolbelt →
     RP.unsuccessful
       (RP.prepared env (PR.preparer_opts toolbelt (Some rev) (Some key)) root) = false) →
  ∃ result tr,
    PR.preparePullRequest env order toolbelt = Some (result, tr) ∧
    issued tr = ["temporary-" +:+ rev] ∧
    revoked tr = [Some key].
Proof.
  intros Hrev Hissue Hok. unfold PR.revision in Hrev.
  destruct (generateRevisionID_frame env toolbelt PR.initial)
    as (err & st1 & new & Hgen & Htr & Hi & Hr & _).
  rewrite Hgen in Hrev. destruct err as [err|]; [done|].
  unfold PR.preparePullRequest, PR.pipeline.
  rewrite series_cons, Hgen, series_cons.
  unfold PR.issueTransientKey at 1. cbn [PR.emit PR.revisionID].
  rewrite Hrev. cbn [PR.to_string]. rewrite Hissue.
  rewrite series_cons.
  match goal with |- context [PR.invokePreparer env toolbelt ?st] =>
    destruct (invokePreparer_aggregate env toolbelt st) as (tr & Hlocal & _ & Hinv)
  end.
  rewrite Hinv. cbn [PR.set_transientKey PR.revisionID PR.transientKey PR.emit].
  rewrite Hrev, (aggregate_successful env toolbelt _ Hok).
  destruct (local_projections tr Hlocal) as (_ & Hti & Htr' & _).
  rewrite series_cons.
  match goal with |- context [PR.revokeTransientKey toolbelt ?st] =>
    remember st as st3 eqn:Hst3 end.
  assert (Hkey3 : PR.transientKey st3 = Some key) by by subst st3.
  assert (Hi3 : issued (PR.trace st3) = ["temporary-" +:+ rev]).
  { subst st3. pr_simpl. rewrite Htr. simpl. unfold issued in *.
    by rewrite !omap_app, Hi, Hti. }
  assert (Hr3 : revoked (PR.trace st3) = []).
  { subst st3. pr_simpl. rewrite Htr. simpl. unfold revoked in *.
    by rewrite !omap_app, Hr, Htr'. }
  clear Hst3. unfold PR.revokeTransientKey at 1.
  change (PR.transientKey (PR.emit ?e st3)) with (PR.transientKey st3).
  rewrite Hkey3.
  set (st4 := PR.emit (RevokeAPIKey (Some key)) _).
  assert (Hi4 : issued (PR.trace st4) = ["temporary-" +:+ rev]).
  { unfold st4. rewrite !trace_emit. unfold issued in *.
    by rewrite !omap_app, Hi3. }
  assert (Hr4 : revoked (PR.trace st4) = [Some key]).
  { unfold st4. rewrite !trace_emit. unfold revoked in *.
    by rewrite !omap_app, Hr3. }
  clearbody st4.
  destruct (revokeAPIKey _ _) as [e4|]; [by eexists _, _|].
  rewrite series_cons.
  destruct (getPresentedURLMap_frame st4) as (e5 & st5 & Hget & Hi5 & Hr5).
  rewrite Hget. rewrite Hi4 in Hi5. rewrite Hr4 in Hr5.
  destruct e5 as [e5|]; [by eexists _, _|].
  rewrite series_cons.
  destruct (commentOnGitHub_frame st5) as (e6 & st6 & Hc & Hi6 & Hr6).
  rewrite Hc. rewrite Hi5 in Hi6. rewrite Hr5 in Hr6.
  destruct e6; by eexists _, _.
Qed.

End run_facts.

(** * Further properties of the code *)

(** ** The walk, event by event *)
Section walk_trace.
Context (env : Env) (toolbelt : Toolbelt).

Lemma handle_trace o st v :
  Opts.frame o (RP.opts st) →
  RP.trace (RP.handle env toolbelt st v) = RP.trace st ++ directory_events toolbelt o v ∧
  Opts.frame o (RP.opts (RP.handle env toolbelt st v)).
Proof.
  intros Hframe. destruct v as [names [errs files dirs]].
  unfold RP.handle, directory_events. cbn [fst snd].
  set (root := RP.path_of toolbelt names).
  assert (Hfiles : ∀ st1, Opts.frame o (RP.opts st1) →
    let st2 := match files with [] => st1 | _ => RP.on_files env toolbelt root files st1 end in
    RP.trace st2 = RP.trace st1 ++
      (if existsb (String.eqb "_deconst.json") files
       then [Log LInfo "Deconst content directory: %s" [AStr root];
             Prepare (Opts.set_contentRoot root o)]
       else []) ∧ Opts.frame o (RP.opts st2)).
  { intros st1 H1 st2.
    assert (Hon : RP.trace (RP.on_files env toolbelt root files st1) = RP.trace st1 ++
      (if existsb (String.eqb "_deconst.json") files
       then [Log LInfo "Deconst content directory: %s" [AStr root];
             Prepare (Opts.set_contentRoot root o)]
       else []) ∧ Opts.frame o (RP.opts (RP.on_files env toolbelt root files st1))).
    { unfold RP.on_files. destruct (existsb _ files).
      - cbn [RP.emit RP.set_opts RP.opts RP.trace RP.set_atLeastOne].
        rewrite (set_contentRoot_frame o _ root H1).
        destruct (prepare env _) as [err|results].
        + cbn. by rewrite <- app_assoc.
        + destruct (Results.didSomething results); cbn; by rewrite <- app_assoc.
      - by rewrite app_nil_r. }
    subst st2. destruct files; [|done]. simpl. by rewrite app_nil_r. }
  destruct errs as [|e errs], dirs as [|d dirs];
    cbn [RP.on_errors RP.emit RP.trace RP.opts];
    match goal with |- context [match files with [] => ?x | _ :: _ => _ end] =>
      destruct (Hfiles x Hframe) as [Ht2 Hf2]
    end;
    cbv zeta in Ht2, Hf2; rewrite ?Ht2; cbn [RP.trace app];
    rewrite <- ?app_assoc, ?app_nil_r; (split; [|exact Hf2]);
    cbn [RP.on_errors RP.emit RP.trace]; by rewrite <- ?app_assoc.
Qed.

Lemma fold_handle_trace o vs : ∀ st,
  Opts.frame o (RP.opts st) →
  RP.trace (foldl (RP.handle env toolbelt) st vs) =
  RP.trace st ++ flat_map (directory_events toolbelt o) vs.
Proof.
  induction vs as [|v vs IH]; intros st Hframe; simpl; [by rewrite app_nil_r|].
  destruct (handle_trace o st v Hframe) as [Ht Hf].
  by rewrite (IH _ Hf), Ht, <- app_assoc.
Qed.

Lemma recursivelyPrepare_run o :
  RP.recursivelyPrepare env toolbelt o =
  Some (RP.aggregate env toolbelt o,
        match last (RP.discovered env toolbelt) with
        | Some root => Opts.set_contentRoot root o
        | None => o
        end,
        flat_map (directory_events toolbelt o) (RP.visits [] (tree env)) ++
        end_events (RP.discovered env toolbelt)).
Proof.
  destruct (walked_summary env toolbelt o)
    as (st & Hwalked & _ & _ & Hopts & Hone & Hall & Hsub & Hmap).
  pose proof (walked_visits env toolbelt o) as Hvisits.
  rewrite Hwalked in Hvisits. injection Hvisits as Hst.
  assert (Htr : RP.trace st = flat_map (directory_events toolbelt o) (RP.visits [] (tree env))).
  { rewrite Hst. by rewrite (fold_handle_trace o _ (RP.initial o)). }
  unfold RP.recursivelyPrepare. rewrite Hwalked. cbn [mbind option_bind].
  unfold RP.on_end, RP.aggregate, end_events.
  cbn [RP.emit RP.atLeastOne RP.allSuccessful RP.trace RP.opts RP.submittedSomething RP.contentIDMap].
  rewrite Hone. rewrite <- Hopts. clear Hopts.
  destruct (RP.discovered env toolbelt) as [|r rs] eqn:Hd.
  - cbn [existsb negb forallb RP.emit RP.atLeastOne RP.allSuccessful RP.trace RP.opts
         RP.submittedSomething RP.contentIDMap].
    rewrite Hall. cbn [forallb negb].
    rewrite Hone, Hsub, Hmap. cbn [RP.emit RP.trace RP.opts existsb].
    rewrite Htr. by rewrite <- !app_assoc.
  - cbn [existsb negb orb RP.emit RP.atLeastOne RP.allSuccessful RP.trace RP.opts
         RP.submittedSomething RP.contentIDMap].
    rewrite Hall.
    destruct (forallb _ _); cbn [negb];
      cbn [RP.emit RP.atLeastOne RP.allSuccessful RP.trace RP.opts RP.submittedSomething RP.contentIDMap];
      rewrite ?Hone, ?Hsub, ?Hmap, Htr; reflexivity.
Qed.

Lemma flat_map_filter {A B} (p : B → bool) (f g : A → list B) l :
  (∀ x, List.filter p (f x) = g x) →
  List.filter p (flat_map f l) = flat_map g l.
Proof.
  intros Hfg. induction l as [|x l IH]; [done|].
  simpl. by rewrite List.filter_app, Hfg, IH.
Qed.

Lemma without_errors_Dir errs files dirs :
  without_errors (Dir errs files dirs) =
  Dir [] files (List.map (λ d, (d.1, without_errors d.2)) dirs).
Proof.
  simpl. f_equal. induction dirs as [|[name d] dirs IH]; [done|]. simpl. by rewrite IH.
Qed.

Lemma visits_without_errors t : ∀ names,
  RP.visits names (without_errors t) =
  List.map (λ v, (v.1, without_errors v.2)) (RP.visits names t).
Proof.
  induction t as [errs files dirs IH] using fsnode_children_ind. intros names.
  rewrite without_errors_Dir, !visits_Dir. cbn [List.map fst snd].
  rewrite (without_errors_Dir errs files dirs). f_equal.
  induction dirs as [|[name d] dirs IHdirs]; [done|].
  cbn [List.map fst snd]. rewrite !visits_below_cons, List.map_app.
  rewrite IHdirs by (intros n' d' Hin; apply (IH n' d'); by apply list_elem_of_further).
  f_equal. destruct (RP.excluded name); [done|].
  apply (IH name d). apply list_elem_of_here.
Qed.

Lemma directory_events_facts o v :
  readdirs (directory_events toolbelt o v) = [RP.path_of toolbelt v.1] ∧
  prepare_calls (directory_events toolbelt o v) =
    (if RP.has_marker v then [Opts.set_contentRoot (RP.path_of toolbelt v.1) o] else []) ∧
  List.filter (λ e, negb (is_log e)) (directory_events toolbelt o v) =
    Readdir (RP.path_of toolbelt v.1) ::
    (if RP.has_marker v then [Prepare (Opts.set_contentRoot (RP.path_of toolbelt v.1) o)]
     else []) ∧
  List.filter (λ e, negb (is_error_log e)) (directory_events toolbelt o v) =
    directory_events toolbelt o (v.1, without_errors v.2) ∧
  Log LInfo "No content discovered to prepare and submit." [] ∉ directory_events toolbelt o v.
Proof.
  destruct v as [names [errs files dirs]]. cbn [fst snd].
  rewrite without_errors_Dir.
  unfold directory_events, RP.has_marker. cbn [fst snd].
  destruct errs, (existsb _ files), dirs; cbn;
    (split_and!; [done..|]); intros Hin;
    repeat (apply elem_of_cons in Hin as [Hin|Hin]; [done|]);
    by apply elem_of_nil in Hin.
Qed.

Lemma flat_map_omap {A B C} (p : B → option C) (f : A → list B) (g : A → list C) l :
  (∀ x, omap p (f x) = g x) → omap p (flat_map f l) = flat_map g l.
Proof.
  intros Hfg. induction l as [|x l IH]; [done|].
  simpl. by rewrite omap_app, Hfg, IH.
Qed.

Lemma flat_map_singleton {A B} (f : A → B) l : flat_map (λ x, [f x]) l = List.map f l.
Proof. induction l as [|x l IH]; [done|]. simpl. by rewrite IH. Qed.

Lemma flat_map_if {A B} (p : A → bool) (f : A → B) l :
  flat_map (λ x, if p x then [f x] else []) l = List.map f (List.filter p l).
Proof.
  induction l as [|x l IH]; [done|]. simpl. destruct (p x); simpl; by rewrite IH.
Qed.

Lemma NoDup_visited_paths :
  well_formed (tree env) = true →
  NoDup (List.map (λ v, RP.path_of toolbelt v.1) (RP.visits [] (tree env))).
Proof.
  intros Hwf.
  rewrite <- (List.map_map fst (RP.path_of toolbelt)).
  change (NoDup (RP.path_of toolbelt <$> (RP.visits [] (tree env)).*1)).
  apply NoDup_fmap_2_strong; [|by apply NoDup_visits].
  intros names1 names2 ([? n1] & -> & H1)%list_elem_of_fmap
                       ([? n2] & -> & H2)%list_elem_of_fmap Heq.
  apply elem_of_visits in H1 as (? & -> & Hat1 & _).
  apply elem_of_visits in H2 as (? & -> & Hat2 & _).
  cbn [fst app] in *.
  apply (well_formed_at_path _ _ _ Hat1) in Hwf as Hv1.
  apply (well_formed_at_path _ _ _ Hat2) in Hwf as Hv2.
  apply (relative_path_of_inj toolbelt); [apply Hv1|apply Hv2|]. by rewrite Heq.
Qed.

Lemma effects_app tr1 tr2 : effects (tr1 ++ tr2) = effects tr1 ++ effects tr2.
Proof. apply List.filter_app. Qed.

Lemma effects_walk o vs roots :
  effects (flat_map (directory_events toolbelt o) vs ++ end_events roots) =
  walk_effects toolbelt o vs.
Proof.
  rewrite effects_app. unfold effects, walk_effects.
  rewrite (flat_map_filter _ _ _ _
             (λ v, proj1 (proj2 (proj2 (directory_events_facts o v))))).
  unfold end_events. destruct roots; cbn; by rewrite app_nil_r.
Qed.

Lemma Forall_effects (P : event → Prop) tr : Forall P tr → Forall P (effects tr).
Proof.
  induction 1 as [|e tr He _ IH]; [constructor|].
  unfold effects in *. cbn. destruct (negb (is_log e)); [by constructor|done].
Qed.

End walk_trace.

(** ** What a caller of [recursivelyPrepare] can rely on *)
Section walk_properties.
Context (env : Env) (toolbelt : Toolbelt).

(** X14.  [recursivelyPrepare] comes back with the aggregate of the
    preparers' answers, with [opts.contentRoot] left at the last content
    root, after exactly these events: for every directory of the
    traversal, parent before children and the last-listed sibling first,
    the read, the error line, the preparer call behind its info line,
    the debug line of the [directories] handler, and the error line a
    second time; then the lines of the [end] handler.  So a content root is prepared right after it is read
    and before any directory below it is read. *)
Theorem walk_reads_then_prepares (o : Opts.t) :
  ∃ tr,
    RP.recursivelyPrepare env toolbelt o =
      Some (RP.aggregate env toolbelt o,
            match last (RP.discovered env toolbelt) with
            | Some root => Opts.set_contentRoot root o
            | None => o
            end, tr) ∧
    tr = flat_map (directory_events toolbelt o) (RP.visits [] (tree env)) ++
         end_events (RP.discovered env toolbelt) ∧
    effects tr = walk_effects toolbelt o (RP.visits [] (tree env)).
Proof.
  eexists. split; [apply recursivelyPrepare_run|]. split; [done|].
  apply effects_walk.
Qed.

(** X5.  A workspace without content root is not an error: the callback
    gets a result that says nothing was done, nothing was submitted and
    no content ID is known, the caller's [opts] are untouched, no
    preparer was called, and the log says that no content was discovered.
    With a content root that line is not logged, and a result, when there
    is one, says that something was done. *)
Theorem no_content_is_reported_not_failed (o : Opts.t) :
  ∃ out o' tr,
    RP.recursivelyPrepare env toolbelt o = Some (out, o', tr) ∧
    (RP.discovered env toolbelt = [] →
       out = RP.Completed {| RP.didSomething := false;
                             RP.res_submittedSomething := false;
                             RP.res_contentIDMap := ∅ |} ∧
       o' = o ∧ prepare_calls tr = [] ∧
       Log LInfo "No content discovered to prepare and submit." [] ∈ tr) ∧
    (RP.discovered env toolbelt ≠ [] →
       (Log LInfo "No content discovered to prepare and submit." [] ∉ tr) ∧
       ∀ r, out = RP.Completed r → RP.didSomething r = true).
Proof.
  eexists _, _, _. split; [apply recursivelyPrepare_run|].
  assert (Hwalk : Log LInfo "No content discovered to prepare and submit." [] ∉
                  flat_map (directory_events toolbelt o) (RP.visits [] (tree env))).
  { rewrite list_elem_of_In, in_flat_map. intros (v & _ & Hin).
    apply list_elem_of_In in Hin.
    by apply (directory_events_facts toolbelt o v) in Hin. }
  unfold RP.aggregate. split.
  - intros Hnone. rewrite Hnone. cbn [forallb existsb foldl last].
    split_and!; [done..| |].
    + unfold prepare_calls. rewrite omap_app.
      rewrite (flat_map_omap _ _ _ _
                 (λ v, proj1 (proj2 (directory_events_facts toolbelt o v)))).
      rewrite flat_map_if. fold (RP.roots_of toolbelt (RP.visits [] (tree env))).
      unfold RP.discovered, RP.roots_of in Hnone.
      apply map_eq_nil in Hnone. by rewrite Hnone.
    + rewrite elem_of_app. right. unfold end_events. rewrite !elem_of_cons. tauto.
  - intros Hsome. split.
    + rewrite elem_of_app. intros [Hin|Hin]; [done|].
      unfold end_events in Hin. destruct (RP.discovered env toolbelt); [done|].
      repeat (apply elem_of_cons in Hin as [Hin|Hin]; [done|]).
      by apply elem_of_nil in Hin.
    + intros r. destruct (forallb _ _); [|done]. intros [= <-]. cbn.
      by destruct (RP.discovered env toolbelt).
Qed.

(** X7.  Entries that cannot be read are logged and change nothing else:
    the callback gets the same arguments and [opts] end the same as in
    the workspace without those entries, and the events are the same
    once the error lines are taken out. *)
Theorem traversal_errors_only_logged (o : Opts.t) :
  ∃ out o' tr,
    RP.recursivelyPrepare env toolbelt o = Some (out, o', tr) ∧
    RP.recursivelyPrepare (with_tree (without_errors (tree env)) env) toolbelt o =
      Some (out, o', List.filter (λ e, negb (is_error_log e)) tr).
Proof.
  eexists _, _, _. split; [apply recursivelyPrepare_run|].
  rewrite recursivelyPrepare_run.
  assert (Hroots : RP.discovered (with_tree (without_errors (tree env)) env) toolbelt =
                   RP.discovered env toolbelt).
  { unfold RP.discovered, RP.roots_of. cbn [tree with_tree].
    rewrite visits_without_errors.
    generalize (RP.visits [] (tree env)). intros vs.
    induction vs as [|[names [errs files dirs]] vs IH]; [done|].
    cbn [List.map fst snd]. rewrite without_errors_Dir.
    cbn [List.filter RP.has_marker snd] in *.
    destruct (existsb _ files); cbn [List.map fst]; by rewrite IH. }
  unfold RP.aggregate. rewrite Hroots. unfold RP.record_root, RP.prepared.
  cbn [tree with_tree prepare]. do 2 f_equal.
  rewrite visits_without_errors, List.filter_app.
  rewrite (flat_map_filter _ _ _ _ (λ v, proj1 (proj2 (proj2 (proj2 (directory_events_facts toolbelt o v)))))).
  rewrite flat_map_concat_map, List.map_map, <- flat_map_concat_map. f_equal.
  unfold end_events. by destruct (RP.discovered env toolbelt).
Qed.

(** X13.  In a workspace whose sibling directories have distinct names,
    no directory is read twice and no content root is prepared twice. *)
Theorem each_directory_once (o : Opts.t) :
  well_formed (tree env) = true →
  ∃ out o' tr,
    RP.recursivelyPrepare env toolbelt o = Some (out, o', tr) ∧
    NoDup (readdirs tr) ∧ NoDup (prepare_calls tr).
Proof.
  intros Hwf. eexists _, _, _. split; [apply recursivelyPrepare_run|].
  pose proof (NoDup_visited_paths env toolbelt Hwf) as Hpaths.
  unfold readdirs, prepare_calls. rewrite !omap_app.
  rewrite (flat_map_omap _ _ _ _ (λ v, proj1 (directory_events_facts toolbelt o v))).
  rewrite (flat_map_omap _ _ _ _
             (λ v, proj1 (proj2 (directory_events_facts toolbelt o v)))).
  assert (Hend : ∀ roots, omap (λ e, match e with Readdir d => Some d | _ => None end)
                            (end_events roots) = [] ∧
                          omap (λ e, match e with Prepare p => Some p | _ => None end)
                            (end_events roots) = []).
  { by intros []. }
  rewrite (proj1 (Hend _)), (proj2 (Hend _)), !app_nil_r.
  rewrite flat_map_singleton, flat_map_if. split; [done|].
  rewrite <- (List.map_map (λ v, RP.path_of toolbelt v.1) (λ root, Opts.set_contentRoot root o)).
  change (List.map ?f ?l) with (f <$> l) at 1.
  apply NoDup_fmap_2; [by intros r1 r2 [=]|].
  eapply sublist_NoDup; [exact Hpaths|].
  change (List.map ?f ?l) with (f <$> l).
  apply fmap_sublist, sublist_filter.
Qed.

(** X12.  The keys of [contentIDMap] are the content roots' paths
    relative to the workspace: the names of the directories on the way
    down, joined with [/], and the empty string for the workspace
    itself.  A root's key holds the content ID base the preparer
    reported for it, and is absent when the preparer reported nothing
    done; every key belongs to a root whose preparer reported something
    done.  The name [__proto__] is never among the keys. *)
Theorem contentIDMap_keys_are_relative_paths (o : Opts.t) :
  well_formed (tree env) = true →
  ∃ out o' tr,
    RP.recursivelyPrepare env toolbelt o = Some (out, o', tr) ∧
    ∀ r, out = RP.Completed r →
      (∀ names node,
         (names, node) ∈ RP.visits [] (tree env) → RP.has_marker (names, node) = true →
         String.concat path.sep names ≠ "__proto__" →
         RP.res_contentIDMap r !! String.concat path.sep names =
         RP.submitted (RP.prepared env o (RP.path_of toolbelt names))) ∧
      RP.res_contentIDMap r !! "__proto__" = None ∧
      (∀ key, is_Some (RP.res_contentIDMap r !! key) →
         ∃ names node,
           (names, node) ∈ RP.visits [] (tree env) ∧ RP.has_marker (names, node) = true ∧
           key = String.concat path.sep names ∧
           RP.did_submit (RP.prepared env o (RP.path_of toolbelt names)) = true).
Proof.
  intros Hwf. eexists _, _, _. split; [apply recursivelyPrepare_run|].
  intros r. unfold RP.aggregate. destruct (forallb _ _); [|done].
  intros [= <-]. cbn [RP.res_contentIDMap]. split_and!.
  - intros names node Hin Hm Hkey.
    rewrite (lookup_contentIDMap env toolbelt o names node Hwf Hin Hm).
    by apply String.eqb_neq in Hkey as ->.
  - by rewrite (lookup_record_roots_proto env toolbelt o _ ∅
                  (NoDup_discovered_keys env toolbelt Hwf)).
  - intros key [Hempty|(root & Hin & -> & Hdid)]%record_roots_keys.
    + by destruct Hempty.
    + apply elem_of_discovered in Hin as (names & node & Hin & Hm & ->).
      exists names, node. split_and!; [done..| |done].
      by apply relative_path_of, (visited_names_valid env names node).
Qed.

Lemma record_roots_mono o rs key : ∀ m,
  is_Some (m !! key) → is_Some (foldl (RP.record_root env toolbelt o) m rs !! key).
Proof.
  induction rs as [|r rs IH]; intros m Hm; [done|].
  cbn [foldl]. apply IH. unfold RP.record_root.
  destruct (RP.submitted _); [by apply lookup_set_mono|done].
Qed.

Lemma record_roots_submitted o rs root : ∀ m,
  root ∈ rs → RP.did_submit (RP.prepared env o root) = true →
  path.relative (workspacePath toolbelt) root ≠ "__proto__" →
  is_Some (foldl (RP.record_root env toolbelt o) m rs !!
             path.relative (workspacePath toolbelt) root).
Proof.
  induction rs as [|r rs IH]; intros m Hin Hdid Hkey.
  { by apply elem_of_nil in Hin. }
  cbn [foldl]. apply elem_of_cons in Hin as [->|Hin]; [|by apply IH].
  apply record_roots_mono. unfold RP.record_root, RP.did_submit in *.
  destruct (RP.submitted _); [|done]. rewrite lookup_set_eq by done. by eexists.
Qed.

(** X17.  In the result of [recursivelyPrepare], [contentIDMap] has an
    entry only when [submittedSomething] is true, and then [didSomething]
    is true as well.  The other way round, a root that was submitted has
    its entry unless its key is [__proto__]: [submittedSomething] can be
    true over an empty [contentIDMap]. *)
Theorem contentIDMap_entries_imply_submitted (o : Opts.t) :
  ∃ out o' tr,
    RP.recursivelyPrepare env toolbelt o = Some (out, o', tr) ∧
    ∀ r, out = RP.Completed r →
      ((∃ key, is_Some (RP.res_contentIDMap r !! key)) →
       RP.res_submittedSomething r = true) ∧
      (RP.res_submittedSomething r = true → RP.didSomething r = true) ∧
      (∀ root, root ∈ RP.discovered env toolbelt →
         RP.did_submit (RP.prepared env o root) = true →
         path.relative (workspacePath toolbelt) root ≠ "__proto__" →
         is_Some (RP.res_contentIDMap r !! path.relative (workspacePath toolbelt) root)).
Proof.
  eexists _, _, _. split; [apply recursivelyPrepare_run|].
  intros r. unfold RP.aggregate. destruct (forallb _ _); [|done].
  intros [= <-]. cbn [RP.res_submittedSomething RP.res_contentIDMap RP.didSomething].
  split_and!.
  - intros [key [Hempty|(root & Hin & _ & Hdid)]%record_roots_keys].
    + by destruct Hempty.
    + apply existsb_true. by exists root.
  - by destruct (RP.discovered env toolbelt).
  - intros root Hin Hdid Hkey. by apply record_roots_submitted.
Qed.

End walk_properties.

(** ** The tasks of the pipeline, event by event *)
Section run_steps.
Context (env : Env) (order : Arrival) (toolbelt : Toolbelt).

Lemma revision_projections new :
  Forall (λ e, revision_event e = true) new →
  issued new = [] ∧ revoked new = [] ∧ queried new = [] ∧ comments new = [] ∧
  prepare_calls new = [] ∧ readdirs new = [].
Proof.
  induction 1 as [|e new He _ IH]; [done|].
  destruct e; try done; simpl; apply IH.
Qed.

Lemma notice_projections new :
  Forall (λ e, notice_event e = true) new →
  issued new = [] ∧ prepare_calls new = [] ∧ readdirs new = [] ∧
  subprocesses new = [] ∧ revoked new = [].
Proof.
  induction 1 as [|e new He _ IH]; [done|].
  destruct e; try done; simpl; apply IH.
Qed.

Lemma log_notice new :
  Forall (λ e, is_log e = true) new → Forall (λ e, notice_event e = true) new.
Proof. intros Hlogs. eapply Forall_impl; [done|]. by intros []. Qed.

Lemma revision_start rev :
  PR.revision env toolbelt = Some rev →
  ∃ st1,
    PR.generateRevisionID env toolbelt PR.initial = Some (None, st1) ∧
    Forall (λ e, revision_event e = true) (PR.trace st1) ∧
    PR.revisionID st1 = Some rev ∧ PR.transientKey st1 = None ∧
    PR.contentIDMap st1 = None ∧ PR.presentedURLMap st1 = None ∧
    PR.submittedSomething st1 = false ∧ PR.didSomething st1 = false ∧
    effects (PR.trace st1) =
      if PR.truthy (mockGitSHA (config toolbelt)) then []
      else [ExecFile "git" ["rev-parse"; "--short=10"; "HEAD"] (workspacePath toolbelt)].
Proof.
  unfold PR.revision, PR.generateRevisionID.
  destruct (PR.truthy _); [|destruct (exec_err _); [done|]];
    pr_simpl; intros [= <-]; eexists; (split; [reflexivity|]); pr_simpl;
    split_and!; try done; by repeat constructor.
Qed.

Lemma invokePreparer_run st :
  let o := PR.preparer_opts toolbelt (PR.revisionID st) (PR.transientKey st) in
  let tr :=
    Log LDebug "Invoking preparer with revision ID [%s]."
      [AStr (PR.to_string (PR.revisionID st))] ::
    flat_map (directory_events toolbelt o) (RP.visits [] (tree env)) ++
    end_events (RP.discovered env toolbelt) in
  PR.invokePreparer env toolbelt st =
  Some (match RP.aggregate env toolbelt o with
        | RP.Unsuccessful err _ => (Some err, PR.emits tr st)
        | RP.Completed result => (None, PR.set_result result (PR.emits tr st))
        end).
Proof.
  intros o tr. unfold PR.invokePreparer. cbn [PR.emit PR.revisionID PR.transientKey].
  fold o. rewrite recursivelyPrepare_run. cbn [mbind option_bind].
  unfold PR.emits, PR.set_result, tr. simpl. rewrite <- !app_assoc.
  by destruct (RP.aggregate env toolbelt o).
Qed.

(** The run up to the end of [invokePreparer]. *)
Lemma run_to_preparation rev key :
  PR.revision env toolbelt = Some rev →
  issueAPIKey (stagingContentService toolbelt) ("temporary-" +:+ rev) = Returned key →
  let o := PR.preparer_opts toolbelt (Some rev) (Some key) in
  ∃ st3,
    PR.series (PR.pipeline env order toolbelt) PR.initial =
      match RP.aggregate env toolbelt o with
      | RP.Unsuccessful err _ => Some (Some err, st3)
      | RP.Completed r =>
          PR.series [PR.revokeTransientKey toolbelt;
                     PR.getPresentedURLMap env order toolbelt;
                     PR.commentOnGitHub env toolbelt] (PR.set_result r st3)
      end ∧
    PR.transientKey st3 = Some key ∧ PR.presentedURLMap st3 = None ∧
    issued (PR.trace st3) = ["temporary-" +:+ rev] ∧
    revoked (PR.trace st3) = [] ∧ queried (PR.trace st3) = [] ∧
    comments (PR.trace st3) = [] ∧
    prepare_calls (PR.trace st3) =
      List.map (λ root, Opts.set_contentRoot root o) (RP.discovered env toolbelt).
Proof.
  intros Hrev Hissue o.
  destruct (revision_start rev Hrev)
    as (st1 & Hgen & Hnew & Hr1 & Hk1 & Hm1 & Hp1 & Hs1 & Hd1).
  destruct (revision_projections _ Hnew) as (Hi & Hr & Hq & Hc & Hpc & _).
  unfold PR.pipeline. rewrite series_cons, Hgen, series_cons.
  unfold PR.issueTransientKey at 1. cbn [PR.emit PR.revisionID].
  rewrite Hr1. cbn [PR.to_string]. rewrite Hissue. rewrite series_cons.
  match goal with |- context [PR.invokePreparer env toolbelt ?st] =>
    destruct (invokePreparer_aggregate env toolbelt st) as (tr & Hlocal & Hcalls & Hinv)
  end.
  rewrite Hinv. cbn [PR.set_transientKey PR.revisionID PR.transientKey PR.emit].
  rewrite Hr1. fold o. fold o in Hcalls.
  cbn [PR.set_transientKey PR.revisionID PR.transientKey PR.emit] in Hcalls.
  rewrite Hr1 in Hcalls. fold o in Hcalls.
  destruct (local_projections tr Hlocal) as (_ & Hti & Htr & Htq & Htc).
  eexists. split.
  { destruct (RP.aggregate env toolbelt o); reflexivity. }
  pr_simpl. unfold issued, revoked, queried, comments, prepare_calls in *.
  rewrite !omap_app, Hi, Hr, Hq, Hc, Hpc, Hti, Htr, Htq, Htc, Hcalls.
  by split_and!.
Qed.

Lemma getPresentedURLMap_events st :
  ∃ err st' new,
    PR.getPresentedURLMap env order toolbelt st = Some (err, st') ∧
    PR.trace st' = PR.trace st ++ new ∧
    Forall (λ e, notice_event e = true) new.
Proof.
  unfold PR.getPresentedURLMap.
  destruct (stagingPresenter toolbelt) as [presenter|].
  - destruct (PR.submittedSomething st); cbn [negb].
    + match goal with |- context [foldl ?f (None, ?st2) ?l] =>
        destruct (resolved_fold_logs env toolbelt presenter l None st2) as (logs & Htr & Hlogs);
        destruct (foldl f (None, st2) l) as [err st'] eqn:Hres
      end.
      cbn [snd] in Htr. eexists err, st', _. split; [done|].
      rewrite Htr. pr_simpl. rewrite <- app_assoc. split; [reflexivity|].
      apply Forall_app. split; [|by apply log_notice].
      generalize (Obj.items (default ∅ (PR.contentIDMap st))).
      intros l. induction l; by constructor.
    + exists None, st, []. by rewrite app_nil_r.
  - eexists _, _, _. split; [reflexivity|]. pr_simpl. split; [reflexivity|].
    by repeat constructor.
Qed.

Lemma commentOnGitHub_events st :
  ∃ err st' new,
    PR.commentOnGitHub env toolbelt st = Some (err, st') ∧
    PR.trace st' = PR.trace st ++ new ∧
    Forall (λ e, notice_event e = true) new.
Proof.
  unfold PR.commentOnGitHub.
  destruct (PR.presentedURLMap st) as [presented|];
    [|exists None, st, []; by rewrite app_nil_r].
  destruct (PR.submittedSomething st); cbn [negb];
    [|exists None, st, []; by rewrite app_nil_r].
  destruct (github toolbelt) as [gh|].
  - destruct (exec _ _) as [m|]; eexists _, _, _; (split; [reflexivity|]); pr_simpl;
      rewrite <- ?app_assoc; (split; [reflexivity|]); by repeat constructor.
  - destruct (Obj.keys presented) as [|only [|second others]];
      eexists _, _, _; (split; [reflexivity|]);
      rewrite ?trace_emits, ?trace_emit, <- ?app_assoc;
      (split; [reflexivity|]); repeat constructor.
    apply log_notice. by apply log_lines.
Qed.

(** The tasks that follow the preparation. *)
Lemma closing_tasks st :
  ∃ err st' new,
    PR.series [PR.revokeTransientKey toolbelt;
               PR.getPresentedURLMap env order toolbelt;
               PR.commentOnGitHub env toolbelt] st = Some (err, st') ∧
    PR.trace st' =
      PR.trace st ++
      [Log LDebug "Revoking transient staging API key." [];
       RevokeAPIKey (PR.transientKey st)] ++ new ∧
    Forall (λ e, notice_event e = true) new.
Proof.
  rewrite series_cons. unfold PR.revokeTransientKey at 1.
  change (PR.transientKey (PR.emit ?e st)) with (PR.transientKey st).
  set (st4 := PR.emit (RevokeAPIKey _) _).
  assert (Ht4 : PR.trace st4 =
                PR.trace st ++
                [Log LDebug "Revoking transient staging API key." [];
                 RevokeAPIKey (PR.transientKey st)]).
  { unfold st4. by rewrite !trace_emit, <- app_assoc. }
  destruct (revokeAPIKey _ _) as [e4|].
  { eexists _, _, []. by rewrite app_nil_r. }
  rewrite series_cons.
  destruct (getPresentedURLMap_events st4) as (e5 & st5 & new5 & Hget & Ht5 & Hc5).
  rewrite Hget. rewrite Ht4, <- app_assoc in Ht5.
  destruct e5 as [e5|]; [by eexists _, _, _|].
  rewrite series_cons.
  destruct (commentOnGitHub_events st5) as (e6 & st6 & new6 & Hcom & Ht6 & Hc6).
  rewrite Hcom. rewrite Ht5, <- !app_assoc in Ht6.
  assert (H6 : Forall (λ e, notice_event e = true) (new5 ++ new6)).
  { by apply Forall_app. }
  destruct e6; by eexists _, _, _.
Qed.

End run_steps.

(** ** How a run of [preparePullRequest] ends *)
Section run_properties.
Context (env : Env) (order : Arrival) (toolbelt : Toolbelt).

Lemma existsb_false {A} (f : A → bool) l :
  (∀ x, x ∈ l → f x = false) → existsb f l = false.
Proof.
  induction l as [|x l IH]; intros Hall; [done|]. simpl.
  rewrite (Hall x) by apply list_elem_of_here.
  apply IH. intros y Hy. by apply Hall, list_elem_of_further.
Qed.

(** X1.  When the content service refuses to issue the transient key,
    the run ends with the service's error right there: the workspace is
    not read, no preparer is called, and nothing is revoked, asked of
    the presenter or posted. *)
Theorem issue_failure_ends_run (rev : string) (err : Error) :
  PR.revision env toolbelt = Some rev →
  issueAPIKey (stagingContentService toolbelt) ("temporary-" +:+ rev) = Failed err →
  ∃ tr,
    PR.preparePullRequest env order toolbelt = Some (Failed err, tr) ∧
    issued tr = ["temporary-" +:+ rev] ∧
    readdirs tr = [] ∧ prepare_calls tr = [] ∧ revoked tr = [] ∧
    queried tr = [] ∧ comments tr = [].
Proof.
  intros Hrev Hissue.
  destruct (revision_start env toolbelt rev Hrev) as (st1 & Hgen & Hnew & Hr1 & _).
  destruct (revision_projections _ Hnew) as (Hi & Hr & Hq & Hc & Hpc & Hrd).
  unfold PR.preparePullRequest, PR.pipeline.
  rewrite series_cons, Hgen, series_cons.
  unfold PR.issueTransientKey at 1. cbn [PR.emit PR.revisionID].
  rewrite Hr1. cbn [PR.to_string]. rewrite Hissue. cbn [mbind option_bind].
  eexists. split; [reflexivity|]. pr_simpl.
  unfold issued, readdirs, prepare_calls, revoked, queried, comments in *.
  rewrite !omap_app, Hi, Hr, Hq, Hc, Hpc, Hrd. by split_and!.
Qed.

(** X2.  When every content root has been prepared with success and the
    content service then fails to revoke the key, the run ends with the
    service's error: the content has been submitted, yet the presenter
    is not asked and nothing is posted. *)
Theorem revoke_failure_ends_run (rev key : string) (err : Error) :
  PR.revision env toolbelt = Some rev →
  issueAPIKey (stagingContentService toolbelt) ("temporary-" +:+ rev) = Returned key →
  (∀ root, root ∈ RP.discovered env toolbelt →
     RP.unsuccessful
       (RP.prepared env (PR.preparer_opts toolbelt (Some rev) (Some key)) root) = false) →
  revokeAPIKey (stagingContentService toolbelt) (Some key) = Some err →
  ∃ tr,
    PR.preparePullRequest env order toolbelt = Some (Failed err, tr) ∧
    prepare_calls tr =
      List.map (λ root, Opts.set_contentRoot root
                          (PR.preparer_opts toolbelt (Some rev) (Some key)))
        (RP.discovered env toolbelt) ∧
    revoked tr = [Some key] ∧ queried tr = [] ∧ comments tr = [].
Proof.
  intros Hrev Hissue Hok Hrevoke.
  destruct (run_to_preparation env order toolbelt rev key Hrev Hissue)
    as (st3 & Hrun & Hkey & _ & _ & Hr & Hq & Hc & Hpc).
  unfold PR.preparePullRequest. rewrite Hrun, (aggregate_successful env toolbelt _ Hok).
  rewrite series_cons. unfold PR.revokeTransientKey at 1. pr_simpl.
  rewrite Hkey, Hrevoke. cbn [mbind option_bind].
  eexists. split; [reflexivity|]. pr_simpl.
  unfold prepare_calls, revoked, queried, comments in *.
  rewrite !omap_app, Hr, Hq, Hc, Hpc. by rewrite !app_nil_r.
Qed.

(** X4.  Once the key is issued, every content root of the workspace is
    handed to the preparer, in the order of the traversal, with the
    run's revision ID, the staging content service URL, the transient
    key, and the root itself as [contentRoot]; no later task calls the
    preparer, whether the preparation fails or not. *)
Theorem preparer_gets_revision_and_key (rev key : string) :
  PR.revision env toolbelt = Some rev →
  issueAPIKey (stagingContentService toolbelt) ("temporary-" +:+ rev) = Returned key →
  ∃ result tr,
    PR.preparePullRequest env order toolbelt = Some (result, tr) ∧
    prepare_calls tr =
      List.map (λ root, {| Opts.revisionID := Some rev;
                           Opts.contentServiceURL := stagingContentServiceURL (config toolbelt);
                           Opts.contentServiceAPIKey := Some key;
                           Opts.contentRoot := Some root |})
        (RP.discovered env toolbelt).
Proof.
  intros Hrev Hissue.
  destruct (run_to_preparation env order toolbelt rev key Hrev Hissue)
    as (st3 & Hrun & _ & _ & _ & _ & _ & _ & Hpc).
  unfold PR.preparePullRequest. rewrite Hrun.
  destruct (RP.aggregate env toolbelt _) as [e second|r].
  { cbn [mbind option_bind]. by eexists _, _. }
  destruct (closing_tasks env order toolbelt (PR.set_result r st3))
    as (e & st6 & new & Hclose & Htr & Hnew).
  rewrite Hclose. cbn [mbind option_bind].
  destruct (notice_projections _ Hnew) as (_ & Hnpc & _).
  assert (Hcalls : prepare_calls (PR.trace st6) =
            List.map (λ root, Opts.set_contentRoot root
                                (PR.preparer_opts toolbelt (Some rev) (Some key)))
              (RP.discovered env toolbelt)).
  { rewrite Htr. pr_simpl. unfold prepare_calls in *.
    rewrite !omap_app, Hnpc, Hpc. cbn. by rewrite app_nil_r. }
  destruct e; by eexists _, _.
Qed.

(** X6.  When every content root is prepared with success and none
    reports a submission, the run succeeds without asking the presenter
    and without posting, whatever presenter and GitHub account are
    configured; its result says that something was done as soon as there
    is a content root. *)
Theorem nothing_submitted_nothing_presented (rev key : string) :
  PR.revision env toolbelt = Some rev →
  issueAPIKey (stagingContentService toolbelt) ("temporary-" +:+ rev) = Returned key →
  (∀ root, root ∈ RP.discovered env toolbelt →
     let answer := RP.prepared env (PR.preparer_opts toolbelt (Some rev) (Some key)) root in
     RP.unsuccessful answer = false ∧ RP.did_submit answer = false) →
  revokeAPIKey (stagingContentService toolbelt) (Some key) = None →
  ∃ tr,
    PR.preparePullRequest env order toolbelt =
      Some (Returned {| PR.pr_didSomething :=
                          match RP.discovered env toolbelt with [] => false | _ => true end |},
            tr) ∧
    revoked tr = [Some key] ∧ queried tr = [] ∧ comments tr = [].
Proof.
  intros Hrev Hissue Hanswers Hrevoke.
  destruct (run_to_preparation env order toolbelt rev key Hrev Hissue)
    as (st3 & Hrun & Hkey & Hpm & _ & Hr & Hq & Hc & _).
  unfold PR.preparePullRequest. rewrite Hrun.
  rewrite (aggregate_successful env toolbelt _ (λ root Hin, proj1 (Hanswers root Hin))).
  rewrite (existsb_false _ _ (λ root Hin, proj2 (Hanswers root Hin))).
  rewrite series_cons. unfold PR.revokeTransientKey at 1. pr_simpl.
  rewrite Hkey, Hrevoke. rewrite series_cons.
  assert (Hdid : existsb (λ _ : string, true) (RP.discovered env toolbelt) =
                 match RP.discovered env toolbelt with [] => false | _ => true end).
  { by destruct (RP.discovered env toolbelt). }
  unfold PR.getPresentedURLMap at 1.
  destruct (stagingPresenter toolbelt) as [presenter|]; pr_simpl; cbn [negb];
    rewrite series_cons; unfold PR.commentOnGitHub at 1; pr_simpl; rewrite Hpm;
    cbn [PR.series mbind option_bind]; pr_simpl; rewrite Hdid;
    (eexists; split; [reflexivity|]);
    unfold revoked, queried, comments in *;
    rewrite !omap_app, Hr, Hq, Hc; done.
Qed.

(** [getPresentedURLMap] past its two guards. *)
Lemma getPresentedURLMap_resolved presenter st m :
  stagingPresenter toolbelt = Some presenter →
  PR.submittedSomething st = true →
  PR.contentIDMap st = Some m →
  NoDup (Obj.entries m).*1 →
  ∃ err st' logs pm,
    PR.getPresentedURLMap env order toolbelt st = Some (err, st') ∧
    PR.trace st' =
      PR.trace st ++ List.map (λ entry, Whereis entry.2) (Obj.items m) ++ logs ∧
    Forall (λ e, is_log e = true) logs ∧
    PR.submittedSomething st' = true ∧
    PR.didSomething st' = PR.didSomething st ∧
    PR.presentedURLMap st' = Some pm ∧
    (err = None →
       ∀ root, pm !! root =
         if String.eqb root "__proto__" then None
         else (λ cid, PR.presented_urls env toolbelt (answered presenter cid)) <$> m !! root) ∧
    (err = None ↔
     ∀ root cid, m !! root = Some cid → ∃ paths, whereis presenter cid = Returned paths) ∧
    (∀ e, err = Some e →
          ∃ root cid, m !! root = Some cid ∧ whereis presenter cid = Failed e).
Proof.
  intros Hsome Hsub Hm Hkeys. unfold PR.getPresentedURLMap.
  rewrite Hsome, Hsub. cbn [negb]. pr_simpl. rewrite Hm. cbn [default from_option id].
  set (entries := Obj.items m).
  set (st2 := PR.emits _ _).
  pose proof (resolved_fold env toolbelt presenter (order entries) None st2) as Hfold.
  destruct (resolved_fold_logs env toolbelt presenter (order entries) None st2)
    as (logs & Htr & Hlogs).
  cbv zeta in Hfold.
  destruct (foldl _ (None, st2) (order entries)) as [err st'] eqn:Hres.
  cbn [fst snd] in Hfold, Htr. destruct Hfold as (_ & _ & Hs & Hd & Hok & Herr & Hpm).
  assert (Hin : ∀ root cid, (root, cid) ∈ order entries ↔ m !! root = Some cid).
  { intros root cid. rewrite (arrival_perm order entries). by apply elem_of_items. }
  assert (Hnd : NoDup (order entries).*1).
  { rewrite (arrival_perm order entries). by apply NoDup_keys. }
  assert (Hall : err = None ↔
            ∀ root cid, m !! root = Some cid → ∃ paths, whereis presenter cid = Returned paths).
  { rewrite Hok. split.
    - intros [_ Hall] root cid Hlook. by apply (Hall (root, cid)), Hin.
    - intros Hall. split; [done|]. intros [root cid] Hentry. by apply (Hall root), Hin. }
  exists err, st', logs, (foldl (PR.present env toolbelt presenter) ∅ (order entries)).
  split_and!; [done| |done|by rewrite Hs|by rewrite Hd|by apply Hpm| |done|].
  - rewrite Htr. unfold st2. pr_simpl. by rewrite <- app_assoc.
  - intros Hnone root. destruct (String.eqb root "__proto__") eqn:Hroot.
    { apply String.eqb_eq in Hroot as ->. by rewrite lookup_present_proto. }
    apply String.eqb_neq in Hroot.
    destruct (m !! root) as [cid|] eqn:Hlook; cbn [fmap option_fmap option_map].
    + destruct (proj1 Hall Hnone root cid Hlook) as [paths Hw].
      rewrite (lookup_present env toolbelt presenter _ _ root cid paths Hnd);
        [|by apply Hin|done|done].
      unfold answered. by rewrite Hw.
    + rewrite lookup_present_fresh; [done|].
      intros ([root' cid] & Heq & Hentry)%list_elem_of_fmap. cbn [fst] in Heq. subst root'.
      apply Hin in Hentry. congruence.
  - intros e [[=]|([root cid] & Hentry & Hfail)]%Herr.
    exists root, cid. split; [by apply Hin|done].
Qed.

Lemma NoDup_record_roots o rs : ∀ m,
  NoDup (Obj.entries m).*1 →
  NoDup (Obj.entries (foldl (RP.record_root env toolbelt o) m rs)).*1.
Proof.
  induction rs as [|r rs IH]; intros m Hm; [done|].
  cbn [foldl]. apply IH. unfold RP.record_root.
  destruct (RP.submitted _); [by apply NoDup_set|done].
Qed.

Lemma NoDup_contentIDs o :
  NoDup (Obj.entries (foldl (RP.record_root env toolbelt o) ∅
                        (RP.discovered env toolbelt))).*1.
Proof. apply NoDup_record_roots. constructor. Qed.

Lemma queries_projections (l : list (string * option string)) :
  let queries := List.map (λ entry, Whereis entry.2) l in
  queried queries = l.*2 ∧ revoked queries = [] ∧ comments queries = [].
Proof.
  induction l as [|[root cid] l (IHq & IHr & IHc)]; [done|].
  cbn. by rewrite <- IHq.
Qed.

(** The state in which the closing tasks start after a preparation that
    submitted something. *)
Lemma run_to_presentation rev key :
  PR.revision env toolbelt = Some rev →
  issueAPIKey (stagingContentService toolbelt) ("temporary-" +:+ rev) = Returned key →
  let o := PR.preparer_opts toolbelt (Some rev) (Some key) in
  (∀ root, root ∈ RP.discovered env toolbelt →
     RP.unsuccessful (RP.prepared env o root) = false) →
  (∃ root, root ∈ RP.discovered env toolbelt ∧
           RP.did_submit (RP.prepared env o root) = true) →
  revokeAPIKey (stagingContentService toolbelt) (Some key) = None →
  ∃ st4,
    PR.series (PR.pipeline env order toolbelt) PR.initial =
      PR.series [PR.getPresentedURLMap env order toolbelt;
                 PR.commentOnGitHub env toolbelt] st4 ∧
    PR.contentIDMap st4 =
      Some (foldl (RP.record_root env toolbelt o) ∅ (RP.discovered env toolbelt)) ∧
    PR.submittedSomething st4 = true ∧ PR.didSomething st4 = true ∧
    PR.presentedURLMap st4 = None ∧
    revoked (PR.trace st4) = [Some key] ∧ queried (PR.trace st4) = [] ∧
    comments (PR.trace st4) = [].
Proof.
  intros Hrev Hissue o Hok Hsub Hrevoke. subst o.
  set (o := PR.preparer_opts toolbelt (Some rev) (Some key)) in *.
  destruct (run_to_preparation env order toolbelt rev key Hrev Hissue)
    as (st3 & Hrun & Hkey & Hpm & _ & Hr & Hq & Hc & _).
  fold o in Hrun. rewrite Hrun, (aggregate_successful env toolbelt _ Hok).
  rewrite series_cons. unfold PR.revokeTransientKey at 1. pr_simpl.
  rewrite Hkey, Hrevoke.
  eexists. split; [reflexivity|]. pr_simpl.
  assert (Hsome : existsb (λ root, RP.did_submit (RP.prepared env o root))
                    (RP.discovered env toolbelt) = true).
  { by apply existsb_true. }
  assert (Hdid : existsb (λ _ : string, true) (RP.discovered env toolbelt) = true).
  { destruct Hsub as (root & Hin & _). apply existsb_true. by exists root. }
  rewrite Hsome, Hdid. split_and!; [done..| | |].
  all: unfold revoked, queried, comments in *; by rewrite !omap_app, ?Hr, ?Hq, ?Hc.
Qed.

(** X8.  Without a GitHub account, and once there are presented URLs for
    a submission, [commentOnGitHub] posts nothing and goes on without
    error; it logs the missing account and then the previews: a single
    line for a single content root, else a heading and one line for each
    content root with its URLs. *)
Theorem previews_logged_without_github
    (presented : Obj.t (list string)) (st : PR.state) :
  github toolbelt = None →
  PR.presentedURLMap st = Some presented →
  PR.submittedSomething st = true →
  ∃ st' lines,
    PR.commentOnGitHub env toolbelt st = Some (None, st') ∧
    PR.trace st' =
      PR.trace st ++
      Log LError "Unable to comment on GitHub: no GitHub account available." [] :: lines ∧
    (∀ root urls, presented = {[ root := urls ]} →
       lines = [Log LInfo "Your preview is available at %s." [AList urls]]) ∧
    (size presented ≠ 1 →
       ∃ body,
         lines = Log LInfo "Your previews are available at:" [] :: body ∧
         length body = size presented ∧
         ∀ root urls,
           Log LInfo "* %s: %s" [AStr root; AList urls] ∈ body ↔
           presented !! root = Some urls).
Proof.
  intros Hgh Hpm Hsub. unfold PR.commentOnGitHub. rewrite Hpm, Hsub, Hgh. cbn [negb].
  pose proof (length_keys presented) as Hlen.
  assert (Hbody : ∀ root urls,
    Log LInfo "* %s: %s" [AStr root; AList urls] ∈
      List.map (λ contentRoot,
                  Log LInfo "* %s: %s"
                    [AStr contentRoot; AList (default [] (presented !! contentRoot))])
        (Obj.keys presented) ↔
    presented !! root = Some urls).
  { intros root urls. rewrite list_elem_of_In, in_map_iff. split.
    - intros (root' & Heq & Hin). injection Heq as -> <-.
      apply list_elem_of_In, elem_of_keys in Hin as [us Hus]. by rewrite Hus.
    - intros Hlook. exists root. cbn beta. rewrite Hlook. split; [done|].
      apply list_elem_of_In, elem_of_keys. by eexists. }
  assert (Hone : ∀ root urls, presented = {[ root := urls ]} →
                   Obj.keys presented = [root] ∧ presented !! root = Some urls).
  { intros root urls ->. split.
    - unfold Obj.keys.
      pose proof (items_entries ({[ root := urls ]} : Obj.t (list string))) as Hperm.
      apply Permutation_singleton_r in Hperm. by rewrite Hperm.
    - unfold lookup, Obj.lookup. cbn. by rewrite String.eqb_refl. }
  destruct (Obj.keys presented) as [|only [|second others]] eqn:Hkeys;
    eexists _, _; (split; [reflexivity|]);
    rewrite ?trace_emits, ?trace_emit, <- ?app_assoc; (split; [reflexivity|]).
  - split.
    + intros root urls [? _]%Hone. done.
    + intros _. eexists. split; [reflexivity|]. split; [by rewrite <- Hlen|]. done.
  - split; [|by rewrite <- Hlen].
    intros root urls [[= <-] Hlook]%Hone. by rewrite Hlook.
  - split.
    + intros root urls [? _]%Hone. done.
    + intros _. eexists. split; [reflexivity|]. split; [|done].
      rewrite <- Hlen. cbn. by rewrite !length_map.
Qed.

(** X9.  A run in which every content root is prepared with success,
    something was submitted, the key is revoked, the presenter answers
    for every content ID and the pull request URL has the expected form
    posts one comment: to the repository and pull request named in the
    URL, with the text made from the presented URL map.  That map takes
    every key of [contentIDMap] other than [__proto__] to the staging
    URLs of the paths presented for its content ID, and has no other
    property.  The presenter is asked once for each entry of
    [contentIDMap], and the run ends as the post does. *)
Theorem preview_comment_posted (rev key : string) (presenter : Presenter) (gh : GitHub)
    (pre owner repo number : string) :
  PR.revision env toolbelt = Some rev →
  issueAPIKey (stagingContentService toolbelt) ("temporary-" +:+ rev) = Returned key →
  let o := PR.preparer_opts toolbelt (Some rev) (Some key) in
  let contentIDs := foldl (RP.record_root env toolbelt o) ∅ (RP.discovered env toolbelt) in
  (∀ root, root ∈ RP.discovered env toolbelt →
     RP.unsuccessful (RP.prepared env o root) = false) →
  (∃ root, root ∈ RP.discovered env toolbelt ∧
           RP.did_submit (RP.prepared env o root) = true) →
  revokeAPIKey (stagingContentService toolbelt) (Some key) = None →
  stagingPresenter toolbelt = Some presenter →
  (∀ root cid, contentIDs !! root = Some cid →
               ∃ paths, whereis presenter cid = Returned paths) →
  github toolbelt = Some gh →
  segment owner → segment repo → digits number →
  (pre = "" ∨ ∃ pre', pre = pre' +:+ "/") →
  pullRequestURL toolbelt = pre +:+ owner +:+ "/" +:+ repo +:+ "/pull/" +:+ number →
  ∃ tr presented,
    PR.preparePullRequest env order toolbelt =
      Some (match postComment gh (owner +:+ "/" +:+ repo) number
                    (forSuccessfulBuild env presented) with
            | Some err => Failed err
            | None => Returned {| PR.pr_didSomething := true |}
            end, tr) ∧
    (∀ root, presented !! root =
       if String.eqb root "__proto__" then None
       else (λ cid, PR.presented_urls env toolbelt (answered presenter cid)) <$>
            contentIDs !! root) ∧
    revoked tr = [Some key] ∧
    queried tr ≡ₚ (Obj.entries contentIDs).*2 ∧
    comments tr = [(owner +:+ "/" +:+ repo, number, forSuccessfulBuild env presented)].
Proof.
  intros Hrev Hissue o contentIDs Hok Hsub Hrevoke Hpres Hanswers Hgh
         Howner Hrepo Hnumber Hpre Hurl.
  unfold contentIDs, o in *. clear contentIDs o.
  set (contentIDs := foldl _ ∅ _) in *.
  destruct (run_to_presentation rev key Hrev Hissue Hok Hsub Hrevoke)
    as (st4 & Hrun & Hm4 & Hs4 & Hd4 & _ & Hr4 & Hq4 & Hc4).
  change (PR.contentIDMap st4 = Some contentIDs) in Hm4.
  destruct (getPresentedURLMap_resolved presenter st4 _ Hpres Hs4 Hm4
              (NoDup_contentIDs _))
    as (err & st5 & logs & pm & Hget & Htr5 & Hlogs & Hs5 & Hd5 & Hpm5 & Hlook & Hall & _).
  assert (err = None) as -> by by apply Hall.
  specialize (Hlook eq_refl).
  destruct (exec_pull_request_complete pre owner repo number Howner Hrepo Hnumber Hpre)
    as (m & Hexec & Hgroups).
  unfold PR.preparePullRequest. rewrite Hrun, series_cons, Hget, series_cons.
  unfold PR.commentOnGitHub at 1. rewrite Hpm5, Hs5, Hgh, Hurl, Hexec, Hgroups.
  cbn [negb nth PR.series].
  destruct (log_events_projections logs Hlogs) as (_ & Hlr & Hlq & Hlc).
  destruct (queries_projections (Obj.items contentIDs)) as (Hqq & Hqr & Hqc).
  assert (Htrace : revoked (PR.trace st5) = [Some key] ∧
                   queried (PR.trace st5) = (Obj.items contentIDs).*2 ∧
                   comments (PR.trace st5) = []).
  { rewrite Htr5. unfold revoked, queried, comments in *.
    by rewrite !omap_app, Hr4, Hq4, Hc4, Hlr, Hlq, Hlc, Hqq, Hqr, Hqc, !app_nil_r. }
  destruct Htrace as (Hr5 & Hq5 & Hc5).
  exists (PR.trace st5 ++
          [PostComment (owner +:+ "/" +:+ repo) number (forSuccessfulBuild env pm)]), pm.
  split_and!.
  - destruct (postComment gh _ _ _); cbn [mbind option_bind]; pr_simpl;
      by rewrite ?Hd5, ?Hd4.
  - exact Hlook.
  - unfold revoked in *. by rewrite omap_app, Hr5.
  - unfold queried in *. by rewrite omap_app, Hq5, app_nil_r, items_entries.
  - unfold comments in *. by rewrite omap_app, Hc5.
Qed.

(** X10.  When the presenter fails for the content ID of a submitted
    root, the run ends with the error of a failed query.  By then the key
    is revoked and every content ID has been asked for; nothing is
    posted. *)
Theorem presenter_failure_ends_run (rev key : string) (presenter : Presenter) :
  PR.revision env toolbelt = Some rev →
  issueAPIKey (stagingContentService toolbelt) ("temporary-" +:+ rev) = Returned key →
  let o := PR.preparer_opts toolbelt (Some rev) (Some key) in
  let contentIDs := foldl (RP.record_root env toolbelt o) ∅ (RP.discovered env toolbelt) in
  (∀ root, root ∈ RP.discovered env toolbelt →
     RP.unsuccessful (RP.prepared env o root) = false) →
  revokeAPIKey (stagingContentService toolbelt) (Some key) = None →
  stagingPresenter toolbelt = Some presenter →
  (∃ root cid err, contentIDs !! root = Some cid ∧ whereis presenter cid = Failed err) →
  ∃ err tr,
    PR.preparePullRequest env order toolbelt = Some (Failed err, tr) ∧
    (∃ root cid, contentIDs !! root = Some cid ∧ whereis presenter cid = Failed err) ∧
    revoked tr = [Some key] ∧
    queried tr ≡ₚ (Obj.entries contentIDs).*2 ∧
    comments tr = [].
Proof.
  intros Hrev Hissue o contentIDs Hok Hrevoke Hpres (root & cid & e & Hlook & Hfail).
  unfold contentIDs, o in *. clear contentIDs o.
  set (o := PR.preparer_opts toolbelt (Some rev) (Some key)) in *.
  set (contentIDs := foldl _ ∅ _) in *.
  assert (Hsub : ∃ root, root ∈ RP.discovered env toolbelt ∧
                         RP.did_submit (RP.prepared env o root) = true).
  { destruct (record_roots_keys env toolbelt o (RP.discovered env toolbelt) ∅ root)
      as [Hempty|(r & Hin & _ & Hdid)].
    - fold contentIDs. by rewrite Hlook.
    - by destruct Hempty.
    - by exists r. }
  destruct (run_to_presentation rev key Hrev Hissue Hok Hsub Hrevoke)
    as (st4 & Hrun & Hm4 & Hs4 & Hd4 & _ & Hr4 & Hq4 & Hc4).
  change (PR.contentIDMap st4 = Some contentIDs) in Hm4.
  destruct (getPresentedURLMap_resolved presenter st4 _ Hpres Hs4 Hm4
              (NoDup_contentIDs _))
    as (err & st5 & logs & pm & Hget & Htr5 & Hlogs & _ & _ & _ & _ & Hall & Herr).
  destruct err as [err|].
  2:{ destruct (proj1 Hall eq_refl root cid Hlook) as [paths Hw]. congruence. }
  unfold PR.preparePullRequest. rewrite Hrun, series_cons, Hget.
  cbn [mbind option_bind]. exists err. eexists. split; [reflexivity|].
  split; [by apply Herr|].
  destruct (log_events_projections logs Hlogs) as (_ & Hlr & Hlq & Hlc).
  destruct (queries_projections (Obj.items contentIDs)) as (Hqq & Hqr & Hqc).
  rewrite Htr5. unfold revoked, queried, comments in *.
  rewrite !omap_app, Hr4, Hq4, Hc4, Hlr, Hlq, Hlc, Hqq, Hqr, Hqc, !app_nil_r.
  split_and!; [done| |done]. by rewrite items_entries.
Qed.

(** X16.  The order of what a run does once its key is issued: git, when
    there is no mock SHA; the request for the key; the reads and
    preparer calls of the walk; and then, only when every content root
    was prepared with success, the revocation of that key, followed by
    nothing but presenter queries and a comment.  The key is thus issued
    before the workspace is read and revoked after the last preparer
    call, and a failed preparation is the end of the run. *)
Theorem key_brackets_preparation (rev key : string) :
  PR.revision env toolbelt = Some rev →
  issueAPIKey (stagingContentService toolbelt) ("temporary-" +:+ rev) = Returned key →
  let o := PR.preparer_opts toolbelt (Some rev) (Some key) in
  ∃ result tr rest,
    PR.preparePullRequest env order toolbelt = Some (result, tr) ∧
    effects tr =
      (if PR.truthy (mockGitSHA (config toolbelt)) then []
       else [ExecFile "git" ["rev-parse"; "--short=10"; "HEAD"] (workspacePath toolbelt)]) ++
      IssueAPIKey ("temporary-" +:+ rev) ::
      walk_effects toolbelt o (RP.visits [] (tree env)) ++ rest ∧
    match RP.aggregate env toolbelt o with
    | RP.Unsuccessful _ _ => rest = []
    | RP.Completed _ =>
        ∃ notices, rest = RevokeAPIKey (Some key) :: notices ∧
                   Forall (λ e, notice_event e = true) notices
    end.
Proof.
  intros Hrev Hissue o.
  destruct (revision_start env toolbelt rev Hrev)
    as (st1 & Hgen & _ & Hr1 & _ & _ & _ & _ & _ & Hhead).
  unfold PR.preparePullRequest, PR.pipeline.
  rewrite series_cons, Hgen, series_cons.
  unfold PR.issueTransientKey at 1. cbn [PR.emit PR.revisionID].
  rewrite Hr1. cbn [PR.to_string]. rewrite Hissue. rewrite series_cons.
  rewrite invokePreparer_run. pr_simpl. rewrite Hr1. fold o.
  destruct (RP.aggregate env toolbelt o) as [e second|r].
  - cbn [mbind option_bind]. eexists _, _, []. split; [reflexivity|]. split; [|done].
    pr_simpl. rewrite !effects_app, Hhead, app_nil_r, <- !app_assoc.
    f_equal. cbn [app]. f_equal.
    change (effects (Log ?lv ?fmt ?args :: ?tr)) with (effects tr).
    by rewrite effects_walk, app_nil_r.
  - match goal with |- context [PR.series _ ?st] =>
      destruct (closing_tasks env order toolbelt st) as (e & st6 & new & Hclose & Htr & Hnew)
    end.
    rewrite Hclose. pr_simpl.
    assert (Heff : effects (PR.trace st6) =
      (if PR.truthy (mockGitSHA (config toolbelt)) then []
       else [ExecFile "git" ["rev-parse"; "--short=10"; "HEAD"] (workspacePath toolbelt)]) ++
      IssueAPIKey ("temporary-" +:+ rev) ::
      walk_effects toolbelt o (RP.visits [] (tree env)) ++
      RevokeAPIKey (Some key) :: effects new).
    { rewrite Htr. pr_simpl. rewrite !effects_app, Hhead, <- !app_assoc.
      f_equal. cbn [app]. f_equal.
      change (effects (Log ?lv ?fmt ?args :: ?tr)) with (effects tr).
      by rewrite effects_walk. }
    cbn [mbind option_bind].
    destruct e; eexists _, _, _; (split; [reflexivity|]); (split; [exact Heff|]);
      eexists; (split; [reflexivity|]); by apply Forall_effects.
Qed.

(** X18.  A pull request URL that does not end in two path segments,
    [/pull/] and a number does not fail the run: with everything else in
    order the run succeeds, the presenter has been asked, and nothing is
    posted. *)
Theorem malformed_url_run_succeeds (rev key : string) (presenter : Presenter) (gh : GitHub) :
  PR.revision env toolbelt = Some rev →
  issueAPIKey (stagingContentService toolbelt) ("temporary-" +:+ rev) = Returned key →
  let o := PR.preparer_opts toolbelt (Some rev) (Some key) in
  let contentIDs := foldl (RP.record_root env toolbelt o) ∅ (RP.discovered env toolbelt) in
  (∀ root, root ∈ RP.discovered env toolbelt →
     RP.unsuccessful (RP.prepared env o root) = false) →
  (∃ root, root ∈ RP.discovered env toolbelt ∧
           RP.did_submit (RP.prepared env o root) = true) →
  revokeAPIKey (stagingContentService toolbelt) (Some key) = None →
  stagingPresenter toolbelt = Some presenter →
  (∀ root cid, contentIDs !! root = Some cid →
               ∃ paths, whereis presenter cid = Returned paths) →
  github toolbelt = Some gh →
  (¬ ∃ pre owner repo number,
       pullRequestURL toolbelt = pre +:+ owner +:+ "/" +:+ repo +:+ "/pull/" +:+ number ∧
       segment owner ∧ segment repo ∧ digits number) →
  ∃ tr,
    PR.preparePullRequest env order toolbelt =
      Some (Returned {| PR.pr_didSomething := true |}, tr) ∧
    revoked tr = [Some key] ∧
    queried tr ≡ₚ (Obj.entries contentIDs).*2 ∧
    comments tr = [] ∧
    Log LError "Unable to comment on GitHub: the pull request URL looks wrong." [] ∈ tr.
Proof.
  intros Hrev Hissue o contentIDs Hok Hsub Hrevoke Hpres Hanswers Hgh Hurl.
  unfold contentIDs, o in *. clear contentIDs o.
  set (contentIDs := foldl _ ∅ _) in *.
  destruct (run_to_presentation rev key Hrev Hissue Hok Hsub Hrevoke)
    as (st4 & Hrun & Hm4 & Hs4 & Hd4 & _ & Hr4 & Hq4 & Hc4).
  change (PR.contentIDMap st4 = Some contentIDs) in Hm4.
  destruct (getPresentedURLMap_resolved presenter st4 _ Hpres Hs4 Hm4
              (NoDup_contentIDs _))
    as (err & st5 & logs & pm & Hget & Htr5 & Hlogs & Hs5 & Hd5 & Hpm5 & _ & Hall & _).
  assert (err = None) as -> by by apply Hall.
  apply exec_pull_request_None in Hurl.
  unfold PR.preparePullRequest. rewrite Hrun, series_cons, Hget, series_cons.
  unfold PR.commentOnGitHub at 1. rewrite Hpm5, Hs5, Hgh, Hurl.
  cbn [negb PR.series mbind option_bind]. pr_simpl. rewrite Hd5, Hd4.
  eexists. split; [reflexivity|].
  destruct (log_events_projections logs Hlogs) as (_ & Hlr & Hlq & Hlc).
  destruct (queries_projections (Obj.items contentIDs)) as (Hqq & Hqr & Hqc).
  rewrite Htr5. unfold revoked, queried, comments in *.
  rewrite !omap_app, Hr4, Hq4, Hc4, Hlr, Hlq, Hlc, Hqq, Hqr, Hqc, !app_nil_r.
  split_and!; [done|by rewrite items_entries|done|].
  rewrite !elem_of_app, !elem_of_cons. tauto.
Qed.

End run_properties.

(** ** The revision ID read from git *)
Section revision_properties.
Context (env : Env) (order : Arrival) (toolbelt : Toolbelt).

Lemma chomp_line sha :
  no_line_end sha = true →
  chomp sha = sha ∧ chomp (sha +:+ String LF "") = sha ∧
  chomp (sha +:+ String CR (String LF "")) = sha.
Proof.
  induction sha as [|c sha IH]; [done|].
  cbn [no_line_end]. rewrite !andb_true_iff, !negb_true_iff.
  intros [[Hcr Hlf] Hrest]. destruct (IH Hrest) as (IH1 & IH2 & IH3).
  rewrite !append_cons. cbn [chomp]. rewrite Hcr, Hlf. cbn [andb].
  by rewrite IH1, IH2, IH3.
Qed.

(** A run that has its revision ID asks for one key, named after it. *)
Lemma key_issued_for_revision rev :
  PR.revision env toolbelt = Some rev →
  ∃ result tr,
    PR.preparePullRequest env order toolbelt = Some (result, tr) ∧
    issued tr = ["temporary-" +:+ rev].
Proof.
  intros Hrev.
  destruct (issueAPIKey (stagingContentService toolbelt) ("temporary-" +:+ rev))
    as [err|key] eqn:Hissue.
  - destruct (revision_start env toolbelt rev Hrev) as (st1 & Hgen & Hnew & Hr1 & _).
    destruct (revision_projections _ Hnew) as (Hi & _).
    unfold PR.preparePullRequest, PR.pipeline.
    rewrite series_cons, Hgen, series_cons.
    unfold PR.issueTransientKey at 1. cbn [PR.emit PR.revisionID].
    rewrite Hr1. cbn [PR.to_string]. rewrite Hissue. cbn [mbind option_bind].
    eexists _, _. split; [reflexivity|]. pr_simpl.
    unfold issued in *. by rewrite !omap_app, Hi.
  - destruct (run_to_preparation env order toolbelt rev key Hrev Hissue)
      as (st3 & Hrun & _ & _ & Hi & _).
    unfold PR.preparePullRequest. rewrite Hrun.
    destruct (RP.aggregate env toolbelt _) as [e second|r].
    { cbn [mbind option_bind]. by eexists _, _. }
    destruct (closing_tasks env order toolbelt (PR.set_result r st3))
      as (e & st6 & new & Hclose & Htr & Hnew).
    rewrite Hclose. cbn [mbind option_bind].
    destruct (notice_projections _ Hnew) as (Hni & _).
    assert (Hissued : issued (PR.trace st6) = ["temporary-" +:+ rev]).
    { rewrite Htr. pr_simpl. unfold issued in *. by rewrite !omap_app, Hni, Hi. }
    destruct e; by eexists _, _.
Qed.

(** X11.  Without a mock SHA, when git prints the abbreviated SHA by
    itself or followed by one line end, LF or CR LF, the revision ID is
    [build-] followed by the SHA, and the run asks the content service
    for one key, named [temporary-build-] followed by the SHA. *)
Theorem revision_from_git_output (sha : string) :
  PR.truthy (mockGitSHA (config toolbelt)) = false →
  exec_err (git_rev_parse env (workspacePath toolbelt)) = None →
  no_line_end sha = true →
  exec_stdout (git_rev_parse env (workspacePath toolbelt)) = sha ∨
  exec_stdout (git_rev_parse env (workspacePath toolbelt)) = sha +:+ String LF "" ∨
  exec_stdout (git_rev_parse env (workspacePath toolbelt)) =
    sha +:+ String CR (String LF "") →
  PR.revision env toolbelt = Some ("build-" +:+ sha) ∧
  ∃ result tr,
    PR.preparePullRequest env order toolbelt = Some (result, tr) ∧
    issued tr = ["temporary-build-" +:+ sha].
Proof.
  intros Hmock Hgit Hsha Hout.
  destruct (chomp_line sha Hsha) as (H1 & H2 & H3).
  assert (Hrev : PR.revision env toolbelt = Some ("build-" +:+ sha)).
  { unfold PR.revision, PR.generateRevisionID. rewrite Hmock, Hgit. pr_simpl.
    rewrite replace_trailing_newline.
    by destruct Hout as [->|[->| ->]]; rewrite ?H1, ?H2, ?H3. }
  split; [done|]. exact (key_issued_for_revision _ Hrev).
Qed.

End revision_properties.

(** ** The pull request URL *)
Section pull_request_url.

Lemma string_snoc_cases s : s = "" ∨ ∃ s' c, s = s' +:+ String c "".
Proof.
  induction s as [|c s [->|(s' & d & ->)]]; [by left| |]; right.
  - by exists "", c.
  - by exists (String c s'), d.
Qed.

(** X15.  The pattern [/([^/]+\/[^/]+)\/pull\/(\d+)$/] matches exactly
    the URLs that end in two path segments, [/pull/] and a number; the
    repository name it captures is made of those two whole segments, and
    the pull request number is the number at the end. *)
Theorem pull_request_url_parsed (url repoName pullRequestNumber : string) :
  (∃ m, exec re_pull_request url = Some m ∧
        m_groups m = [repoName; pullRequestNumber]) ↔
  ∃ pre owner repo,
    url = pre +:+ repoName +:+ "/pull/" +:+ pullRequestNumber ∧
    repoName = owner +:+ "/" +:+ repo ∧
    (pre = "" ∨ ∃ pre', pre = pre' +:+ "/") ∧
    segment owner ∧ segment repo ∧ digits pullRequestNumber.
Proof.
  split.
  - intros (m & Hexec & Hgroups).
    destruct (exec_pull_request_sound url m Hexec)
      as (pre & owner & repo & number & Hurl & Hg & Hidx & Ho & Hr & Hn).
    rewrite Hg in Hgroups. injection Hgroups as <- <-.
    exists pre, owner, repo. rewrite !append_assoc.
    split_and!; [done..| |done|done|done].
    destruct (string_snoc_cases pre) as [->|(pre' & c & ->)]; [by left|].
    destruct (Ascii.eqb c "/") eqn:Hc.
    { apply Ascii.eqb_eq in Hc as ->. right. by exists pre'. }
    exfalso.
    assert (Ho' : segment (String c owner)).
    { split; [done|]. cbn. rewrite Hc. apply Ho. }
    set (w := String c owner +:+ "/" +:+ repo +:+ "/pull/" +:+ number).
    assert (Heq : url = "" +:+ pre' +:+ w +:+ "").
    { rewrite Hurl, append_nil_r, append_nil_l. unfold w.
      by rewrite !append_assoc. }
    destruct (search_complete re_pull_request url "" pre' w ""
                [String c owner +:+ "/" +:+ repo; number] Heq
                (pull_request_den _ (String c owner) repo number Ho' Hr Hn))
      as (m' & Hm' & Hidx').
    rewrite append_nil_l in Heq. rewrite <- Heq in Hm'.
    unfold exec in Hexec. cbn [String.length] in Hm', Hidx'.
    rewrite Hm' in Hexec. injection Hexec as ->.
    rewrite Hidx, length_snoc in Hidx'. cbn in Hidx'. lia.
  - intros (pre & owner & repo & -> & -> & Hpre & Ho & Hr & Hn).
    destruct (exec_pull_request_complete pre owner repo pullRequestNumber Ho Hr Hn Hpre)
      as (m & Hexec & Hgroups).
    exists m. split; [|done]. by rewrite !append_assoc.
Qed.

End pull_request_url.

(** ** The order of the presenter queries *)
Section query_order.
Context (env : Env) (order : Arrival) (toolbelt : Toolbelt).

Lemma put_fresh {V} key (v : V) l : key ∉ l.*1 → Obj.put key v l = l ++ [(key, v)].
Proof.
  induction l as [|[k x] l IH]; intros Hkey; [done|].
  rewrite fmap_cons in Hkey. apply not_elem_of_cons in Hkey as [Hne Hkey].
  cbn [Obj.put fst]. cbn [fst] in Hne.
  assert (String.eqb k key = false) as -> by (apply String.eqb_neq; congruence).
  by rewrite IH.
Qed.

Lemma omap_nil {A B} (f : A → option B) (l : list A) :
  (∀ x, x ∈ l → f x = None) → omap f l = [].
Proof.
  induction l as [|x l IH]; intros Hnone; [done|]. cbn [omap list_omap].
  rewrite (Hnone x) by apply list_elem_of_here.
  apply IH. intros y Hy. by apply Hnone, list_elem_of_further.
Qed.

Lemma filter_all {A} (p : A → bool) (l : list A) :
  (∀ x, x ∈ l → p x = true) → List.filter p l = l.
Proof.
  induction l as [|x l IH]; intros Hall; [done|]. cbn [List.filter].
  rewrite (Hall x) by apply list_elem_of_here. f_equal.
  apply IH. intros y Hy. by apply Hall, list_elem_of_further.
Qed.

Lemma items_no_index {V} (o : Obj.t V) :
  (∀ e, e ∈ Obj.entries o → Obj.array_index e.1 = None) → Obj.items o = Obj.entries o.
Proof.
  intros Hnone. unfold Obj.items. rewrite omap_nil, filter_all.
  - done.
  - intros e He. by rewrite (Hnone e He), bool_decide_eq_true_2.
  - intros e He. by rewrite (Hnone e He).
Qed.

Lemma entries_record_roots o rs : ∀ m,
  NoDup (List.map (path.relative (workspacePath toolbelt)) rs) →
  (∀ root, root ∈ rs →
     path.relative (workspacePath toolbelt) root ≠ "__proto__" ∧
     path.relative (workspacePath toolbelt) root ∉ (Obj.entries m).*1) →
  Obj.entries (foldl (RP.record_root env toolbelt o) m rs) =
  Obj.entries m ++
  omap (λ root, contentIDBase ← RP.submitted (RP.prepared env o root);
                Some (path.relative (workspacePath toolbelt) root, contentIDBase)) rs.
Proof.
  induction rs as [|r rs IH]; intros m Hnd Hfresh; [by rewrite app_nil_r|].
  simpl in Hnd. apply NoDup_cons in Hnd as [Hr Hnd].
  destruct (Hfresh r (list_elem_of_here _ _)) as [Hproto Hnew].
  cbn [foldl omap list_omap]. unfold RP.record_root at 2.
  destruct (RP.submitted (RP.prepared env o r)) as [contentIDBase|]; cbn.
  - rewrite IH; [|done|].
    + unfold Obj.set. apply String.eqb_neq in Hproto as ->. cbn.
      by rewrite put_fresh, <- app_assoc.
    + intros root Hin. destruct (Hfresh root (list_elem_of_further _ _ _ Hin)) as [? Hm].
      split; [done|]. unfold Obj.set. apply String.eqb_neq in Hproto as ->. cbn.
      rewrite put_fresh by done. rewrite fmap_app, elem_of_app. cbn.
      intros [?|Heq%list_elem_of_singleton]; [done|].
      apply Hr. rewrite <- Heq. apply list_elem_of_fmap. by exists root.
  - apply IH; [done|]. intros root Hin. by apply Hfresh, list_elem_of_further.
Qed.

Lemma commentOnGitHub_queried st :
  ∃ err st',
    PR.commentOnGitHub env toolbelt st = Some (err, st') ∧
    queried (PR.trace st') = queried (PR.trace st).
Proof.
  unfold PR.commentOnGitHub.
  destruct (PR.presentedURLMap st) as [presented|]; [|by exists None, st].
  destruct (PR.submittedSomething st); cbn [negb]; [|by exists None, st].
  destruct (github toolbelt) as [gh|].
  - destruct (exec _ _) as [m|]; eexists _, _; (split; [reflexivity|]); pr_simpl;
      unfold queried; by rewrite !omap_app, !app_nil_r.
  - assert (Hshown : ∀ l : list string,
      queried (List.map (λ contentRoot,
                 Log LInfo "* %s: %s"
                   [AStr contentRoot; AList (default [] (presented !! contentRoot))]) l) = []).
    { intros l. by induction l. }
    destruct (Obj.keys presented) as [|only [|second others]];
      eexists _, _; (split; [reflexivity|]);
      rewrite ?trace_emits, ?trace_emit;
      unfold queried in *; rewrite !omap_app, ?Hshown; cbn;
      by rewrite ?app_nil_r.
Qed.

(** X19.  In a workspace with file-system names in which no content
    root has [__proto__] or an array index as its relative path, the
    presenter is asked for the content IDs of the submitted roots in the
    order in which the walk found these roots, and for nothing else,
    whatever it answers. *)
Theorem queries_follow_discovery (rev key : string) (presenter : Presenter) :
  PR.revision env toolbelt = Some rev →
  issueAPIKey (stagingContentService toolbelt) ("temporary-" +:+ rev) = Returned key →
  let o := PR.preparer_opts toolbelt (Some rev) (Some key) in
  well_formed (tree env) = true →
  (∀ names node,
     (names, node) ∈ RP.visits [] (tree env) → RP.has_marker (names, node) = true →
     String.concat path.sep names ≠ "__proto__" ∧
     Obj.array_index (String.concat path.sep names) = None) →
  (∀ root, root ∈ RP.discovered env toolbelt →
     RP.unsuccessful (RP.prepared env o root) = false) →
  (∃ root, root ∈ RP.discovered env toolbelt ∧
           RP.did_submit (RP.prepared env o root) = true) →
  revokeAPIKey (stagingContentService toolbelt) (Some key) = None →
  stagingPresenter toolbelt = Some presenter →
  ∃ result tr,
    PR.preparePullRequest env order toolbelt = Some (result, tr) ∧
    queried tr =
      omap (λ root, RP.submitted (RP.prepared env o root)) (RP.discovered env toolbelt).
Proof.
  intros Hrev Hissue o Hwf Hnames Hok Hsub Hrevoke Hpres. subst o.
  set (o := PR.preparer_opts toolbelt (Some rev) (Some key)) in *.
  set (contentIDs := foldl (RP.record_root env toolbelt o) ∅ (RP.discovered env toolbelt)).
  assert (Hkeys : ∀ root, root ∈ RP.discovered env toolbelt →
            path.relative (workspacePath toolbelt) root ≠ "__proto__" ∧
            Obj.array_index (path.relative (workspacePath toolbelt) root) = None).
  { intros root (names & node & Hin & Hm & ->)%elem_of_discovered.
    rewrite (relative_path_of toolbelt names (visited_names_valid env names node Hwf Hin)).
    by apply (Hnames names node). }
  assert (Hentries : Obj.entries contentIDs =
            omap (λ root, contentIDBase ← RP.submitted (RP.prepared env o root);
                          Some (path.relative (workspacePath toolbelt) root, contentIDBase))
              (RP.discovered env toolbelt)).
  { unfold contentIDs. rewrite entries_record_roots; [done| |].
    - by apply NoDup_discovered_keys.
    - intros root Hin. split; [by apply Hkeys|]. cbn. apply not_elem_of_nil. }
  assert (Hitems : (Obj.items contentIDs).*2 =
            omap (λ root, RP.submitted (RP.prepared env o root)) (RP.discovered env toolbelt)).
  { rewrite items_no_index.
    - rewrite Hentries. clear. induction (RP.discovered env toolbelt) as [|r rs IH]; [done|].
      cbn [omap list_omap]. destruct (RP.submitted _); cbn; by rewrite IH.
    - intros [k v] He. rewrite Hentries in He. apply list_elem_of_omap in He as (root & Hin & He).
      destruct (RP.submitted _); [|done]. injection He as <- <-. by apply Hkeys. }
  destruct (run_to_presentation env order toolbelt rev key Hrev Hissue Hok Hsub Hrevoke)
    as (st4 & Hrun & Hm4 & Hs4 & Hd4 & _ & Hr4 & Hq4 & Hc4).
  change (PR.contentIDMap st4 = Some contentIDs) in Hm4.
  destruct (getPresentedURLMap_resolved env order toolbelt presenter st4 _ Hpres Hs4 Hm4
              (NoDup_contentIDs env toolbelt _))
    as (err & st5 & logs & pm & Hget & Htr5 & Hlogs & _).
  destruct (log_events_projections logs Hlogs) as (_ & _ & Hlq & _).
  destruct (queries_projections (Obj.items contentIDs)) as (Hqq & _).
  assert (Hq5 : queried (PR.trace st5) =
            omap (λ root, RP.submitted (RP.prepared env o root)) (RP.discovered env toolbelt)).
  { rewrite Htr5. unfold queried in *.
    by rewrite !omap_app, Hq4, Hlq, Hqq, app_nil_r, Hitems. }
  unfold PR.preparePullRequest. rewrite Hrun, series_cons, Hget.
  destruct err as [err|]; [by eexists _, _|].
  rewrite series_cons.
  destruct (commentOnGitHub_queried st5) as (e6 & st6 & Hcom & Hq6).
  rewrite Hcom, Hq5 in *. destruct e6; by eexists _, _.
Qed.

End query_order.

(** * The sample workspace, evaluated *)

Example sample_excluded :
  RP.excluded ".git" = true ∧ RP.excluded ".hidden" = true ∧
  RP.excluded "_build" = true ∧ RP.excluded "_site" = true ∧
  RP.excluded "docs" = false ∧ RP.excluded "build" = false ∧
  RP.excluded "a.b" = false.
Proof. by vm_compute. Qed.

Example sample_prune :
  RP.prune 4 [(".git", Sample.leaf []); ("api", Sample.leaf []);
              ("_build", Sample.leaf []); ("docs", Sample.leaf [])] =
  Some [("api", Sample.leaf []); ("docs", Sample.leaf [])].
Proof. by vm_compute. Qed.

Example sample_discovered :
  RP.discovered Sample.env Sample.toolbelt = ["/ws/docs"; "/ws/api"].
Proof. by vm_compute. Qed.

Example sample_readdirs :
  readdirs <$> (RP.trace <$> RP.walked Sample.env Sample.toolbelt Sample.opts) =
  Some ["/ws"; "/ws/docs"; "/ws/docs/guide"; "/ws/api"].
Proof. by vm_compute. Qed.

Example sample_aggregate :
  (λ r, (r.1.1, Opts.contentRoot r.1.2)) <$>
    RP.recursivelyPrepare Sample.env Sample.toolbelt Sample.opts =
  Some (RP.Completed {| RP.didSomething := true;
                        RP.res_submittedSomething := true;
                        RP.res_contentIDMap := Sample.contentIDs |},
        Some "/ws/api").
Proof. by vm_compute. Qed.

Example sample_failing_aggregate :
  fst <$> (fst <$> RP.recursivelyPrepare Sample.failing_env Sample.toolbelt Sample.opts) =
  Some (RP.Unsuccessful "At least one preparer terminated unsuccessfully." true).
Proof. by vm_compute. Qed.

Example sample_relative :
  path.relative "/ws" "/ws/docs/guide" = "docs/guide" ∧
  path.relative "/ws" "/ws" = "" ∧
  path.relative "/ws/" "/ws//docs" = "docs".
Proof. by vm_compute. Qed.

Example sample_pull_request_urls :
  m_groups <$> exec re_pull_request "https://host/owner/repo/pull/42" =
    Some ["owner/repo"; "42"] ∧
  exec re_pull_request "https://host/owner/repo/commits/abc" = None ∧
  exec re_pull_request "https://host/owner/repo/pull/42/" = None ∧
  exec re_pull_request "https://host/owner/repo/pull/" = None ∧
  exec re_pull_request "repo/pull/42" = None.
Proof. by vm_compute. Qed.

Example sample_chomp :
  replace re_trailing_newline ("0123456789" +:+ String LF "") "" = "0123456789" ∧
  replace re_trailing_newline ("0123456789" +:+ String CR (String LF "")) "" = "0123456789" ∧
  replace re_trailing_newline "0123456789" "" = "0123456789".
Proof. by vm_compute. Qed.

(** The run of the pipeline in which the preparer fails on [api]: the key
    is issued, both roots are attempted, and the trace ends with the walk;
    there is no [RevokeAPIKey] in it. *)
Example sample_failing_run :
  (λ r, (r.1, List.filter (λ e, negb (is_log e)) r.2)) <$>
    PR.preparePullRequest Sample.failing_env Sample.fifo Sample.toolbelt =
  Some (Failed "At least one preparer terminated unsuccessfully.",
        [IssueAPIKey "temporary-build-abc123";
         Readdir "/ws"; Readdir "/ws/docs";
         Prepare (Opts.set_contentRoot "/ws/docs" Sample.opts);
         Readdir "/ws/docs/guide"; Readdir "/ws/api";
         Prepare (Opts.set_contentRoot "/ws/api" Sample.opts)]).
Proof. by vm_compute. Qed.

(** The same workspace with a preparer that submits both roots. *)
Example sample_successful_run :
  (λ r, (r.1, List.filter (λ e, negb (is_log e)) r.2)) <$>
    PR.preparePullRequest Sample.env Sample.fifo Sample.toolbelt =
  Some (Returned {| PR.pr_didSomething := true |},
        [IssueAPIKey "temporary-build-abc123";
         Readdir "/ws"; Readdir "/ws/docs";
         Prepare (Opts.set_contentRoot "/ws/docs" Sample.opts);
         Readdir "/ws/docs/guide"; Readdir "/ws/api";
         Prepare (Opts.set_contentRoot "/ws/api" Sample.opts);
         RevokeAPIKey (Some "key-for-temporary-build-abc123")]).
Proof. by vm_compute. Qed.

(** * The claims on the sample workspace *)

Lemma C1_sample_run_leaves_key_unrevoked :
  ∃ tr,
    PR.preparePullRequest Sample.failing_env Sample.fifo Sample.toolbelt =
      Some (Failed "At least one preparer terminated unsuccessfully.", tr) ∧
    issued tr = ["temporary-build-abc123"] ∧
    revoked tr = [].
Proof.
  apply (C1_revoke_skipped_when_preparation_fails Sample.failing_env Sample.fifo
           Sample.toolbelt "build-abc123" "key-for-temporary-build-abc123").
  - reflexivity.
  - reflexivity.
  - exists "/ws/api". split; [|reflexivity].
    apply list_elem_of_In. vm_compute. auto.
Defined.

Lemma C3_sample_proto_root_unrecorded :
  ∃ st logs,
    RP.walked Cases.dunder_env Sample.toolbelt Sample.opts = Some st ∧
    (∀ names node,
       (names, node) ∈ RP.visits [] (tree Cases.dunder_env) →
       RP.has_marker (names, node) = true →
       RP.contentIDMap st !! String.concat path.sep names =
       if String.eqb (String.concat path.sep names) "__proto__" then None
       else match RP.prepared Cases.dunder_env Sample.opts
                    (RP.path_of Sample.toolbelt names) with
            | Returned results =>
                if Results.didSomething results
                then Some (Results.contentIDBase results) else None
            | Failed _ => None
            end) ∧
    (∀ key, is_Some (RP.contentIDMap st !! key) →
       ∃ names node,
         (names, node) ∈ RP.visits [] (tree Cases.dunder_env) ∧
         RP.has_marker (names, node) = true ∧
         key = String.concat path.sep names) ∧
    (RP.submittedSomething st = true ↔
     ∃ root results, root ∈ RP.discovered Cases.dunder_env Sample.toolbelt ∧
       RP.prepared Cases.dunder_env Sample.opts root = Returned results ∧
       Results.didSomething results = true) ∧
    (RP.allSuccessful st = true →
     RP.recursivelyPrepare Cases.dunder_env Sample.toolbelt Sample.opts =
       Some (RP.Completed {| RP.didSomething := RP.atLeastOne st;
                             RP.res_submittedSomething := RP.submittedSomething st;
                             RP.res_contentIDMap := RP.contentIDMap st |},
             RP.opts st, RP.trace st ++ logs)).
Proof.
  apply (C3_contentIDMap_misses_proto Cases.dunder_env Sample.toolbelt Sample.opts).
  vm_compute. reflexivity.
Defined.

Lemma C5_sample_revisions :
  (∃ st',
     PR.generateRevisionID Sample.env Sample.toolbelt PR.initial = Some (None, st') ∧
     PR.revisionID st' = Some "build-abc123" ∧
     subprocesses (PR.trace st') = subprocesses (PR.trace PR.initial)) ∧
  (∃ st',
     PR.generateRevisionID Sample.env Sample.git_toolbelt PR.initial = Some (None, st') ∧
     subprocesses (PR.trace st') =
       subprocesses (PR.trace PR.initial) ++
       [("git", ["rev-parse"; "--short=10"; "HEAD"], "/ws")] ∧
     (exec_err Sample.git_ok = None →
      PR.revisionID st' = Some ("build-" +:+ chomp (exec_stdout Sample.git_ok)))).
Proof.
  split.
  - apply (proj1 (C5_revision_id_from_mock_or_git Sample.env Sample.fifo Sample.toolbelt)
             "abc123" eq_refl).
    discriminate.
  - apply (proj1 (proj2 (C5_revision_id_from_mock_or_git Sample.env Sample.fifo
                           Sample.git_toolbelt) eq_refl)).
Defined.

Lemma C6_sample_comment :
  ∃ st',
    PR.commentOnGitHub Sample.env Sample.full_toolbelt Sample.presented_state =
      Some (postComment Sample.hub "owner/repo" "42"
              (forSuccessfulBuild Sample.env Sample.presented), st') ∧
    comments (PR.trace st') =
      comments (PR.trace Sample.presented_state) ++
      [("owner/repo", "42", forSuccessfulBuild Sample.env Sample.presented)].
Proof.
  apply (proj1 (C6_comment_posted_or_skipped Sample.env Sample.full_toolbelt Sample.hub
                  Sample.presented Sample.presented_state eq_refl eq_refl eq_refl)
           "https://host/" "owner" "repo" "42").
  - split; [discriminate|reflexivity].
  - split; [discriminate|reflexivity].
  - split; [discriminate|reflexivity].
  - right. by exists "https://host".
  - reflexivity.
Defined.

Lemma C7_sample_resolution :
  ∃ err st' pm new,
    PR.getPresentedURLMap Sample.env Sample.fifo Sample.full_toolbelt Sample.prepared_state =
      Some (err, st') ∧
    PR.trace st' = PR.trace Sample.prepared_state ++ new ∧
    queried new ≡ₚ (Obj.entries Sample.contentIDs).*2 ∧
    (err = None ↔
     ∀ root cid, Sample.contentIDs !! root = Some cid →
                 ∃ paths, whereis Sample.presenter cid = Returned paths) ∧
    (∀ e, err = Some e →
          ∃ root cid, Sample.contentIDs !! root = Some cid ∧
                      whereis Sample.presenter cid = Failed e) ∧
    (∀ root cid paths,
       Sample.contentIDs !! root = Some cid →
       whereis Sample.presenter cid = Returned paths →
       let urls := List.map (urlJoin Sample.env
                               (stagingPresenterURL (config Sample.full_toolbelt))) paths in
       Log LDebug "Content root [%s] is mapped to the URL%s %s."
         [AStr root; AStr (if Nat.eqb (length urls) 1 then "s" else ""); AList urls]
       ∈ new) ∧
    PR.presentedURLMap st' = Some pm ∧
    (∀ root cid paths,
       Sample.contentIDs !! root = Some cid →
       whereis Sample.presenter cid = Returned paths →
       root ≠ "__proto__" →
       pm !! root =
       Some (List.map (urlJoin Sample.env
                         (stagingPresenterURL (config Sample.full_toolbelt))) paths)) ∧
    pm !! "__proto__" = None ∧
    (∀ root, Sample.contentIDs !! root = None → pm !! root = None).
Proof.
  apply (proj2 (proj2 (C7_presented_urls_resolved Sample.env Sample.fifo
                         Sample.full_toolbelt))
           Sample.presenter Sample.prepared_state Sample.contentIDs
           eq_refl eq_refl eq_refl).
  apply (bool_decide_unpack _). vm_compute. exact I.
Defined.

Lemma C8_sample_local_run :
  (∀ st, PR.presentedURLMap st = None →
         PR.commentOnGitHub Sample.env Sample.toolbelt st = Some (None, st)) ∧
  ∃ tr,
    PR.preparePullRequest Sample.env Sample.fifo Sample.toolbelt =
      Some (Returned {| PR.pr_didSomething := true |}, tr) ∧
    queried tr = [] ∧ comments tr = [] ∧
    revoked tr = [Some "key-for-temporary-build-abc123"].
Proof.
  apply (C8_no_presenter_run_succeeds Sample.env Sample.fifo Sample.toolbelt
           "build-abc123" "key-for-temporary-build-abc123").
  - reflexivity.
  - reflexivity.
  - reflexivity.
  - intros root Hin. apply list_elem_of_In in Hin. vm_compute in Hin.
    destruct Hin as [<-|[<-|[]]]; reflexivity.
  - vm_compute. discriminate.
  - reflexivity.
Defined.

Lemma C9_sample_error_without_result :
  ∃ st logs,
    RP.walked Sample.failing_env Sample.toolbelt Sample.opts = Some st ∧
    RP.contentIDMap st =
      foldl (RP.record_root Sample.failing_env Sample.toolbelt Sample.opts) ∅
        (RP.discovered Sample.failing_env Sample.toolbelt) ∧
    RP.recursivelyPrepare Sample.failing_env Sample.toolbelt Sample.opts =
      Some (RP.Unsuccessful "At least one preparer terminated unsuccessfully." true,
            RP.opts st, RP.trace st ++ logs).
Proof.
  apply (C9_error_discards_aggregate Sample.failing_env Sample.toolbelt Sample.opts).
  exists "/ws/api". split; [|reflexivity].
  apply list_elem_of_In. vm_compute. auto.
Defined.

(** * The further properties on the sample workspace *)

Example unreadable_entries_logged :
  (λ r, (r.1.1, List.filter is_error_log r.2)) <$>
    RP.recursivelyPrepare (with_tree Cases.unreadable Sample.env) Sample.toolbelt Sample.opts =
  Some (RP.Completed {| RP.didSomething := true;
                        RP.res_submittedSomething := true;
                        RP.res_contentIDMap := Sample.contentIDs |},
        [Log LError "Error walking %s" [AStr "/ws"; AList ["EACCES: permission denied"]];
         Log LError "Error walking %s" [AStr "/ws"; AList ["EACCES: permission denied"]];
         Log LError "Error walking %s"
           [AStr "/ws/docs"; AList ["ELOOP: too many symbolic links"]];
         Log LError "Error walking %s"
           [AStr "/ws/docs"; AList ["ELOOP: too many symbolic links"]]]).
Proof. by vm_compute. Qed.

Example proto_root_run :
  fst <$> (fst <$> RP.recursivelyPrepare Cases.dunder_env Sample.toolbelt Sample.opts) =
  Some (RP.Completed {| RP.didSomething := true;
                        RP.res_submittedSomething := true;
                        RP.res_contentIDMap := ∅ |}).
Proof. by vm_compute. Qed.

Example property_order :
  Obj.keys (Obj.set "2" (Some "c") (Obj.set "docs" (Some "b")
             (Obj.set "10" (Some "a") (Obj.set "api" (Some "z") ∅)))) =
    ["2"; "10"; "api"; "docs"] ∧
  Obj.keys (Obj.set "__proto__" (Some "x") (Obj.set "__proto__" None
             (Obj.set "__proto__" (Some "y") (Obj.set "01" None ∅)))) =
    ["01"; "__proto__"].
Proof. by vm_compute. Qed.

Example bare_workspace :
  (λ r, (r.1.1, effects r.2)) <$>
    RP.recursivelyPrepare (with_tree Cases.bare Sample.env) Sample.toolbelt Sample.opts =
  Some (RP.Completed {| RP.didSomething := false;
                        RP.res_submittedSomething := false;
                        RP.res_contentIDMap := ∅ |},
        [Readdir "/ws"; Readdir "/ws/src"]).
Proof. by vm_compute. Qed.

Example complete_run :
  (λ r, (r.1, issued r.2, prepare_calls r.2, revoked r.2, comments r.2)) <$>
    PR.preparePullRequest Sample.env Sample.fifo Cases.complete =
  Some (Returned {| PR.pr_didSomething := true |},
        ["temporary-build-abc123"],
        [Opts.set_contentRoot "/ws/docs" Sample.opts;
         Opts.set_contentRoot "/ws/api" Sample.opts],
        [Some "key-for-temporary-build-abc123"],
        [("owner/repo", "42", "Preview ready.")]).
Proof. by vm_compute. Qed.

Lemma sample_roots_prepared :
  ∀ root, root ∈ RP.discovered Sample.env Sample.toolbelt →
    RP.unsuccessful (RP.prepared Sample.env Sample.opts root) = false.
Proof.
  intros root Hin. apply list_elem_of_In in Hin. vm_compute in Hin.
  destruct Hin as [<-|[<-|[]]]; reflexivity.
Defined.

Lemma sample_contentIDs_answered :
  ∀ root cid, Sample.contentIDs !! root = Some cid →
    ∃ paths, whereis Cases.presenter cid = Returned paths.
Proof.
  intros root cid. unfold lookup, Obj.lookup.
  change (Obj.entries Sample.contentIDs) with [("docs", Some "id1"); ("api", Some "id2")].
  cbn [Obj.get].
  destruct (String.eqb "docs" root); [intros [= <-]; by eexists|].
  destruct (String.eqb "api" root); [intros [= <-]; by eexists|done].
Defined.

Lemma X1_sample_key_refused :
  ∃ tr,
    PR.preparePullRequest Sample.env Sample.fifo Cases.refused =
      Some (Failed "401 Unauthorized", tr) ∧
    issued tr = ["temporary-build-abc123"] ∧
    readdirs tr = [] ∧ prepare_calls tr = [] ∧ revoked tr = [] ∧
    queried tr = [] ∧ comments tr = [].
Proof.
  apply (issue_failure_ends_run Sample.env Sample.fifo Cases.refused
           "build-abc123" "401 Unauthorized"); reflexivity.
Defined.

Lemma X2_sample_key_kept :
  ∃ tr,
    PR.preparePullRequest Sample.env Sample.fifo Cases.kept_key =
      Some (Failed "500 Internal Server Error", tr) ∧
    prepare_calls tr =
      List.map (λ root, Opts.set_contentRoot root Sample.opts)
        (RP.discovered Sample.env Cases.kept_key) ∧
    revoked tr = [Some "key-for-temporary-build-abc123"] ∧
    queried tr = [] ∧ comments tr = [].
Proof.
  apply (revoke_failure_ends_run Sample.env Sample.fifo Cases.kept_key
           "build-abc123" "key-for-temporary-build-abc123" "500 Internal Server Error").
  - reflexivity.
  - reflexivity.
  - exact sample_roots_prepared.
  - reflexivity.
Defined.

Lemma X3_sample_key_revoked :
  ∃ result tr,
    PR.preparePullRequest Sample.env Sample.fifo Sample.full_toolbelt = Some (result, tr) ∧
    issued tr = ["temporary-build-abc123"] ∧
    revoked tr = [Some "key-for-temporary-build-abc123"].
Proof.
  apply (revoked_once_after_successful_preparation Sample.env Sample.fifo
           Sample.full_toolbelt "build-abc123" "key-for-temporary-build-abc123").
  - reflexivity.
  - reflexivity.
  - exact sample_roots_prepared.
Defined.

Lemma X4_sample_preparer_calls :
  ∃ result tr,
    PR.preparePullRequest Sample.failing_env Sample.fifo Sample.toolbelt =
      Some (result, tr) ∧
    prepare_calls tr =
      List.map (λ root, {| Opts.revisionID := Some "build-abc123";
                           Opts.contentServiceURL := "https://content.staging";
                           Opts.contentServiceAPIKey := Some "key-for-temporary-build-abc123";
                           Opts.contentRoot := Some root |})
        (RP.discovered Sample.failing_env Sample.toolbelt).
Proof.
  apply (preparer_gets_revision_and_key Sample.failing_env Sample.fifo Sample.toolbelt
           "build-abc123" "key-for-temporary-build-abc123"); reflexivity.
Defined.

Lemma X6_sample_idle_run :
  ∃ tr,
    PR.preparePullRequest Cases.idle_env Sample.fifo Cases.complete =
      Some (Returned {| PR.pr_didSomething := true |}, tr) ∧
    revoked tr = [Some "key-for-temporary-build-abc123"] ∧
    queried tr = [] ∧ comments tr = [].
Proof.
  apply (nothing_submitted_nothing_presented Cases.idle_env Sample.fifo Cases.complete
           "build-abc123" "key-for-temporary-build-abc123").
  - reflexivity.
  - reflexivity.
  - intros root Hin. split; reflexivity.
  - reflexivity.
Defined.

Lemma X8_sample_preview_logged :
  ∃ st' lines,
    PR.commentOnGitHub Sample.env Cases.no_hub Sample.presented_state = Some (None, st') ∧
    PR.trace st' =
      PR.trace Sample.presented_state ++
      Log LError "Unable to comment on GitHub: no GitHub account available." [] :: lines ∧
    (∀ root urls, Sample.presented = {[ root := urls ]} →
       lines = [Log LInfo "Your preview is available at %s." [AList urls]]) ∧
    (size Sample.presented ≠ 1 →
       ∃ body,
         lines = Log LInfo "Your previews are available at:" [] :: body ∧
         length body = size Sample.presented ∧
         ∀ root urls,
           Log LInfo "* %s: %s" [AStr root; AList urls] ∈ body ↔
           Sample.presented !! root = Some urls).
Proof.
  apply (previews_logged_without_github Sample.env Cases.no_hub
           Sample.presented Sample.presented_state); reflexivity.
Defined.

Lemma X9_sample_comment_posted :
  ∃ tr (presented : Obj.t (list string)),
    PR.preparePullRequest Sample.env Sample.fifo Cases.complete =
      Some (Returned {| PR.pr_didSomething := true |}, tr) ∧
    (∀ root, presented !! root =
       if String.eqb root "__proto__" then None
       else (λ cid, PR.presented_urls Sample.env Cases.complete
                      (answered Cases.presenter cid)) <$>
            Sample.contentIDs !! root) ∧
    revoked tr = [Some "key-for-temporary-build-abc123"] ∧
    queried tr ≡ₚ (Obj.entries Sample.contentIDs).*2 ∧
    comments tr = [("owner/repo", "42", "Preview ready.")].
Proof.
  apply (preview_comment_posted Sample.env Sample.fifo Cases.complete
           "build-abc123" "key-for-temporary-build-abc123" Cases.presenter Sample.hub
           "https://host/" "owner" "repo" "42").
  - reflexivity.
  - reflexivity.
  - exact sample_roots_prepared.
  - exists "/ws/docs". split; [|reflexivity].
    apply list_elem_of_In. vm_compute. by left.
  - reflexivity.
  - reflexivity.
  - exact sample_contentIDs_answered.
  - reflexivity.
  - split; [discriminate|reflexivity].
  - split; [discriminate|reflexivity].
  - split; [discriminate|reflexivity].
  - right. by exists "https://host".
  - reflexivity.
Defined.

Lemma X10_sample_presenter_fails :
  ∃ err tr,
    PR.preparePullRequest Sample.env Sample.fifo Sample.full_toolbelt =
      Some (Failed err, tr) ∧
    (∃ root cid, Sample.contentIDs !! root = Some cid ∧
                 whereis Sample.presenter cid = Failed err) ∧
    revoked tr = [Some "key-for-temporary-build-abc123"] ∧
    queried tr ≡ₚ (Obj.entries Sample.contentIDs).*2 ∧
    comments tr = [].
Proof.
  apply (presenter_failure_ends_run Sample.env Sample.fifo Sample.full_toolbelt
           "build-abc123" "key-for-temporary-build-abc123" Sample.presenter).
  - reflexivity.
  - reflexivity.
  - exact sample_roots_prepared.
  - reflexivity.
  - reflexivity.
  - exists "api", (Some "id2"), "presenter unreachable". split; reflexivity.
Defined.

Lemma X11_sample_git_revision :
  PR.revision Sample.env Sample.git_toolbelt = Some "build-0123456789" ∧
  ∃ result tr,
    PR.preparePullRequest Sample.env Sample.fifo Sample.git_toolbelt = Some (result, tr) ∧
    issued tr = ["temporary-build-0123456789"].
Proof.
  apply (revision_from_git_output Sample.env Sample.fifo Sample.git_toolbelt "0123456789").
  - reflexivity.
  - reflexivity.
  - reflexivity.
  - right. left. reflexivity.
Defined.

Lemma X12_sample_keys :
  ∃ out o' tr,
    RP.recursivelyPrepare Sample.env Sample.toolbelt Sample.opts = Some (out, o', tr) ∧
    ∀ r, out = RP.Completed r →
      (∀ names node,
         (names, node) ∈ RP.visits [] (tree Sample.env) →
         RP.has_marker (names, node) = true →
         String.concat path.sep names ≠ "__proto__" →
         RP.res_contentIDMap r !! String.concat path.sep names =
         RP.submitted (RP.prepared Sample.env Sample.opts
                         (RP.path_of Sample.toolbelt names))) ∧
      RP.res_contentIDMap r !! "__proto__" = None ∧
      (∀ key, is_Some (RP.res_contentIDMap r !! key) →
         ∃ names node,
           (names, node) ∈ RP.visits [] (tree Sample.env) ∧
           RP.has_marker (names, node) = true ∧
           key = String.concat path.sep names ∧
           RP.did_submit (RP.prepared Sample.env Sample.opts
                            (RP.path_of Sample.toolbelt names)) = true).
Proof.
  apply (contentIDMap_keys_are_relative_paths Sample.env Sample.toolbelt Sample.opts).
  reflexivity.
Defined.

Lemma X13_sample_once :
  ∃ out o' tr,
    RP.recursivelyPrepare Sample.env Sample.toolbelt Sample.opts = Some (out, o', tr) ∧
    NoDup (readdirs tr) ∧ NoDup (prepare_calls tr).
Proof.
  apply (each_directory_once Sample.env Sample.toolbelt Sample.opts). reflexivity.
Defined.

Lemma X16_sample_order :
  ∃ result tr rest,
    PR.preparePullRequest Sample.env Sample.fifo Sample.full_toolbelt = Some (result, tr) ∧
    effects tr =
      (if PR.truthy (mockGitSHA (config Sample.full_toolbelt)) then []
       else [ExecFile "git" ["rev-parse"; "--short=10"; "HEAD"]
               (workspacePath Sample.full_toolbelt)]) ++
      IssueAPIKey "temporary-build-abc123" ::
      walk_effects Sample.full_toolbelt Sample.opts (RP.visits [] (tree Sample.env)) ++ rest ∧
    match RP.aggregate Sample.env Sample.full_toolbelt Sample.opts with
    | RP.Unsuccessful _ _ => rest = []
    | RP.Completed _ =>
        ∃ notices, rest = RevokeAPIKey (Some "key-for-temporary-build-abc123") :: notices ∧
                   Forall (λ e, notice_event e = true) notices
    end.
Proof.
  apply (key_brackets_preparation Sample.env Sample.fifo Sample.full_toolbelt
           "build-abc123" "key-for-temporary-build-abc123"); reflexivity.
Defined.

Lemma X18_sample_wrong_url :
  ∃ tr,
    PR.preparePullRequest Sample.env Sample.fifo Cases.wrong_url =
      Some (Returned {| PR.pr_didSomething := true |}, tr) ∧
    revoked tr = [Some "key-for-temporary-build-abc123"] ∧
    queried tr ≡ₚ (Obj.entries Sample.contentIDs).*2 ∧
    comments tr = [] ∧
    Log LError "Unable to comment on GitHub: the pull request URL looks wrong." [] ∈ tr.
Proof.
  apply (malformed_url_run_succeeds Sample.env Sample.fifo Cases.wrong_url
           "build-abc123" "key-for-temporary-build-abc123" Cases.presenter Sample.hub).
  - reflexivity.
  - reflexivity.
  - exact sample_roots_prepared.
  - exists "/ws/docs". split; [|reflexivity].
    apply list_elem_of_In. vm_compute. by left.
  - reflexivity.
  - reflexivity.
  - exact sample_contentIDs_answered.
  - reflexivity.
  - apply exec_pull_request_None. reflexivity.
Defined.

Lemma X19_sample_query_order :
  ∃ result tr,
    PR.preparePullRequest Sample.env Sample.fifo Cases.complete = Some (result, tr) ∧
    queried tr =
      omap (λ root, RP.submitted (RP.prepared Sample.env Sample.opts root))
        (RP.discovered Sample.env Cases.complete).
Proof.
  apply (queries_follow_discovery Sample.env Sample.fifo Cases.complete
           "build-abc123" "key-for-temporary-build-abc123" Cases.presenter).
  - reflexivity.
  - reflexivity.
  - reflexivity.
  - intros names node Hin Hm. apply list_elem_of_In in Hin. vm_compute in Hin.
    repeat (destruct Hin as [Hin|Hin];
            [injection Hin as <- <-;
             first [by vm_compute in Hm | split; [discriminate|reflexivity]]|]).
    destruct Hin.
  - exact sample_roots_prepared.
  - exists "/ws/docs". split; [|reflexivity].
    apply list_elem_of_In. vm_compute. by left.
  - reflexivity.
  - reflexivity.
Defined.

Example sample_query_order :
  (λ r, queried r.2) <$> PR.preparePullRequest Sample.env Sample.fifo Cases.complete =
  Some [Some "id1"; Some "id2"].
Proof. by vm_compute. Qed.
